(** * Lengauer-Tarjan dominators ([graph/path/control_flow_lt.go])

    A shallow embedding of [Dominators] and of the [DominatorTree] queries,
    followed by the verification of the dominator tree they compute. *)

From stdpp Require Import gmap list sorting.

Set Default Proof Using "Type".

(** ** Results of fallible code *)

(** The ways a run can stop without a value.  [UninitializedNode] is the
    explicit [panic("path: unintialized node")] of [dfs]; [NilDeref] and
    [IndexOutOfRange] are the Go runtime panics of a nil pointer dereference
    and of a slice index out of range.  [OutOfFuel] belongs to the model
    only: recursion is bounded by a fuel argument. *)
Inductive error := UninitializedNode | NilDeref | IndexOutOfRange | OutOfFuel.

Inductive result (A : Type) := Ok (a : A) | Err (e : error).
Arguments Ok {A} a.
Arguments Err {A} e.

Definition rbind {A B} (m : result A) (f : A → result B) : result B :=
  match m with Ok a => f a | Err e => Err e end.

Notation "x ←ᵣ m ; k" := (rbind m (λ x, k))
  (at level 20, m at level 100, k at level 200, right associativity,
   format "x  ←ᵣ  m ; '/' k").
Notation "' p ←ᵣ m ; k" := (rbind m (λ p, k))
  (at level 20, p pattern, m at level 100, k at level 200, right associativity,
   format "' p  ←ᵣ  m ; '/' k").

(** [for _, x := range xs { s = f(s, x) }] with a fallible body. *)
Fixpoint foldR {A S} (f : S → A → result S) (s : S) (xs : list A) : result S :=
  match xs with
  | [] => Ok s
  | x :: xs' => s' ←ᵣ f s x; foldR f s' xs'
  end.

(** ** Data model *)

(** A [graph.Node] is known to the algorithm by its [ID()] only; a
    [graph.Directed] by its successor lists [From]. *)
Abbreviation Node := Z (only parsing).
Abbreviation graph := (gmap Z (list Z)) (only parsing).

Definition From (g : graph) (v : Node) : list Node := default [] (g !! v).

(** [*ltNode] pointers are positions in the arena [lt.nodes]: every [ltNode]
    is allocated by [dfs] and appended to [lt.nodes] at once, and no entry is
    ever removed, so the i-th allocated record is [lt.nodes[i]].  A nil
    pointer is [None]. *)
Record ltNode := LtNode {
  node : Node;
  parent : option nat;
  pred : list nat;
  semi : nat;
  bucket : gset nat;
  dom : option nat;
  ancestor : option nat;
  label : nat;
}.

Abbreviation heap := (list ltNode) (only parsing).

Record lengauerTarjan := LT {
  nodes : list ltNode;
  indexOf : gmap Z nat;
}.

Record DominatorTree := Tree {
  root : Node;
  dominatorOf : gmap Z Z;
  dominatedBy : gmap Z (list Z);
}.

(** Field assignments through a pointer. *)
Definition with_parent (p : option nat) (n : ltNode) : ltNode :=
  LtNode (node n) p (pred n) (semi n) (bucket n) (dom n) (ancestor n) (label n).
Definition with_pred (l : list nat) (n : ltNode) : ltNode :=
  LtNode (node n) (parent n) l (semi n) (bucket n) (dom n) (ancestor n) (label n).
Definition with_semi (s : nat) (n : ltNode) : ltNode :=
  LtNode (node n) (parent n) (pred n) s (bucket n) (dom n) (ancestor n) (label n).
Definition with_bucket (b : gset nat) (n : ltNode) : ltNode :=
  LtNode (node n) (parent n) (pred n) (semi n) b (dom n) (ancestor n) (label n).
Definition with_dom (d : option nat) (n : ltNode) : ltNode :=
  LtNode (node n) (parent n) (pred n) (semi n) (bucket n) d (ancestor n) (label n).
Definition with_ancestor (a : option nat) (n : ltNode) : ltNode :=
  LtNode (node n) (parent n) (pred n) (semi n) (bucket n) (dom n) a (label n).
Definition with_label (l : nat) (n : ltNode) : ltNode :=
  LtNode (node n) (parent n) (pred n) (semi n) (bucket n) (dom n) (ancestor n) l.

(** Reading through a pointer that is always valid in Go, and through one
    that may be nil. *)
Definition load (h : heap) (p : nat) : result ltNode :=
  match h !! p with Some n => Ok n | None => Err IndexOutOfRange end.

Definition deref (h : heap) (p : option nat) : result (nat * ltNode) :=
  match p with
  | None => Err NilDeref
  | Some q => n ←ᵣ load h q; Ok (q, n)
  end.

Definition store (p : nat) (f : ltNode → ltNode) (h : heap) : heap := alter f p h.

(** ** Step 1: depth-first search *)

Definition new_ltNode (v : Node) (i : nat) : ltNode :=
  LtNode v None [] i ∅ None None i.

(** The lookup after the recursive call, with its panic. *)
Definition check_initialized (lt : lengauerTarjan) (wid : Z) : result nat :=
  match indexOf lt !! wid with
  | Some idx => Ok idx
  | None => Err UninitializedNode
  end.

(** One round of the loop over [g.From(v)]; [rec] is the recursive call and
    [ltv] the record of [v]. *)
Definition dfs_edge (rec : Node → lengauerTarjan → result lengauerTarjan)
    (ltv : nat) (lt : lengauerTarjan) (w : Node) : result lengauerTarjan :=
  '(idx, lt) ←ᵣ
    match indexOf lt !! w with
    | Some idx => Ok (idx, lt)
    | None =>
        lt ←ᵣ rec w lt;
        idx ←ᵣ check_initialized lt w;
        _ ←ᵣ load (nodes lt) idx;
        Ok (idx, LT (store idx (with_parent (Some ltv)) (nodes lt)) (indexOf lt))
    end;
  ltw ←ᵣ load (nodes lt) idx;
  Ok (LT (store idx (with_pred (pred ltw ++ [ltv])) (nodes lt)) (indexOf lt)).

Fixpoint dfs (fuel : nat) (g : graph) (v : Node) (lt : lengauerTarjan)
    : result lengauerTarjan :=
  match fuel with
  | 0 => Err OutOfFuel
  | S fuel =>
      let i := length (nodes lt) in
      let lt := LT (nodes lt ++ [new_ltNode v i]) (<[v := i]> (indexOf lt)) in
      foldR (dfs_edge (dfs fuel g) i) lt (From g v)
  end.

(** ** EVAL, COMPRESS and LINK *)

Fixpoint compress (fuel : nat) (v : nat) (h : heap) : result heap :=
  match fuel with
  | 0 => Err OutOfFuel
  | S fuel =>
      nv ←ᵣ load h v;
      '(a, na) ←ᵣ deref h (ancestor nv);
      match ancestor na with
      | None => Ok h
      | Some _ =>
          h ←ᵣ compress fuel a h;
          nv ←ᵣ load h v;
          '(a, na) ←ᵣ deref h (ancestor nv);
          la ←ᵣ load h (label na);
          lv ←ᵣ load h (label nv);
          let h := if decide (semi la < semi lv)
                   then store v (with_label (label na)) h else h in
          nv ←ᵣ load h v;
          '(a, na) ←ᵣ deref h (ancestor nv);
          Ok (store v (with_ancestor (ancestor na)) h)
      end
  end.

Definition eval (fuel : nat) (v : nat) (h : heap) : result (nat * heap) :=
  nv ←ᵣ load h v;
  match ancestor nv with
  | None => Ok (v, h)
  | Some _ =>
      h ←ᵣ compress fuel v h;
      nv ←ᵣ load h v;
      Ok (label nv, h)
  end.

Definition link (v : option nat) (w : nat) (h : heap) : heap :=
  store w (with_ancestor v) h.

(** ** Iteration order of a Go map

    [for v := range m] visits the keys of [m] in an order the language leaves
    open.  A run is given a list of numbers; each picks the next key among
    those not visited yet, so that every order can be chosen. *)
Fixpoint pick_order (n : nat) (choices : list nat) (keys : list nat) : list nat :=
  match n with
  | 0 => []
  | S n =>
      let c := hd 0 choices `mod` length keys in
      match keys !! c with
      | None => []
      | Some k => k :: pick_order n (tl choices) (delete c keys)
      end
  end.

Definition range_keys (choices : list nat) (m : gset nat) : list nat :=
  pick_order (size m) choices (elements m).

(** ** Steps 2 and 3 *)

Definition step2_pred (fuel : nat) (w : nat) (h : heap) (v : nat) : result heap :=
  '(u, h) ←ᵣ eval fuel v h;
  nu ←ᵣ load h u;
  nw ←ᵣ load h w;
  Ok (if decide (semi nu < semi nw) then store w (with_semi (semi nu)) h else h).

Definition step3_bucket (fuel : nat) (w : nat) (h : heap) (v : nat) : result heap :=
  nw ←ᵣ load h w;
  '(p, np) ←ᵣ deref h (parent nw);
  let h := store p (with_bucket (bucket np ∖ {[v]})) h in
  '(u, h) ←ᵣ eval fuel v h;
  nu ←ᵣ load h u;
  nv ←ᵣ load h v;
  if decide (semi nu < semi nv) then Ok (store v (with_dom (Some u)) h)
  else nw ←ᵣ load h w; Ok (store v (with_dom (parent nw)) h).

(** The body of the main loop for [w = lt.nodes[i]]. *)
Definition process (sched : nat → list nat) (fuel : nat) (h : heap) (w : nat)
    : result heap :=
  nw ←ᵣ load h w;
  h ←ᵣ foldR (step2_pred fuel w) h (pred nw);
  nw ←ᵣ load h w;
  ns ←ᵣ load h (semi nw);
  let h := store (semi nw) (with_bucket (bucket ns ∪ {[w]})) h in
  nw ←ᵣ load h w;
  let h := link (parent nw) w h in
  nw ←ᵣ load h w;
  '(_, np) ←ᵣ deref h (parent nw);
  foldR (step3_bucket fuel w) h (range_keys (sched w) (bucket np)).

(** ** Step 4 *)

Definition step4_node (h : heap) (w : nat) : result heap :=
  nw ←ᵣ load h w;
  '(_, nd) ←ᵣ deref h (dom nw);
  ns ←ᵣ load h (semi nw);
  if decide (node nd ≠ node ns) then Ok (store w (with_dom (dom nd)) h)
  else Ok h.

(** ** The public tree *)

Definition add_entry (h : heap) (t : gmap Z Z * gmap Z (list Z)) (w : nat)
    : result (gmap Z Z * gmap Z (list Z)) :=
  nw ←ᵣ load h w;
  '(_, nd) ←ᵣ deref h (dom nw);
  let did := node nd in
  Ok (<[node nw := node nd]> t.1,
      <[did := default [] (t.2 !! did) ++ [node nw]]> t.2).

(** The indices [i] of [for i := len(lt.nodes) - 1; i > 0; i--] and the
    positions of [lt.nodes[1:]]. *)
Definition downward (n : nat) : list nat := reverse (seq 1 (n - 1)).
Definition tail_indices (n : nat) : list nat := seq 1 (n - 1).

Definition steps23 (sched : nat → list nat) (h : heap) : result heap :=
  foldR (process sched (length h)) h (downward (length h)).

Definition step4 (h : heap) : result heap :=
  foldR step4_node h (tail_indices (length h)).

Definition build_tree (r : Node) (h : heap) : result DominatorTree :=
  '(dof, dby) ←ᵣ foldR (add_entry h) (∅, ∅) (tail_indices (length h));
  Ok (Tree r dof dby).

(** Every node [dfs] can index is the root or the target of an edge, which
    bounds the depth of the recursion. *)
Definition universe (r : Node) (g : graph) : gset Z :=
  {[r]} ∪ list_to_set (mjoin ((map_to_list g).*2)).

Definition dfs_fuel (r : Node) (g : graph) : nat := S (size (universe r g)).

Definition run_dfs (r : Node) (g : graph) : result lengauerTarjan :=
  dfs (dfs_fuel r g) g r (LT [] ∅).

Definition Dominators (sched : nat → list nat) (r : Node) (g : graph)
    : result DominatorTree :=
  lt ←ᵣ run_dfs r g;
  h ←ᵣ steps23 sched (nodes lt);
  h ←ᵣ step4 h;
  build_tree r h.

Definition Root (d : DominatorTree) : Node := root d.
Definition DominatorOf (d : DominatorTree) (n : Node) : option Node :=
  dominatorOf d !! n.
Definition DominatedBy (d : DominatorTree) (n : Node) : list Node :=
  default [] (dominatedBy d !! n).

(** ** Scenario graphs *)

(** root = 0, A = 1, B = 2, C = 3, D = 4. *)
Definition diamond_tail : graph :=
  {[ 0%Z := [1; 2]%Z; 1%Z := [3%Z]; 2%Z := [3%Z]; 3%Z := [4%Z] ]}.

(** ** Reading the spanning tree off a heap *)

Definition parF (h : heap) (i : nat) : option nat := from_option parent None (h !! i).
Definition semiF (h : heap) (i : nat) : nat := from_option semi 0 (h !! i).
Definition labelF (h : heap) (i : nat) : nat := from_option label 0 (h !! i).
Definition ancF (h : heap) (i : nat) : option nat := from_option ancestor None (h !! i).
Definition domF (h : heap) (i : nat) : option nat := from_option dom None (h !! i).
Definition bucketF (h : heap) (i : nat) : gset nat := from_option bucket ∅ (h !! i).
Definition predF (h : heap) (i : nat) : list nat := from_option pred [] (h !! i).
Definition nodeF (h : heap) (i : nat) : option Z := node <$> h !! i.

(** [edgeF h a b]: the predecessor list of [b] holds [a]. *)
Definition edgeF (h : heap) (a b : nat) : Prop := a ∈ predF h b.

(** [anc par a c]: [a] is [c] or a proper ancestor of [c] along [par]. *)
Inductive anc (par : nat → option nat) (a : nat) : nat → Prop :=
  | anc_refl : anc par a a
  | anc_step p c : par c = Some p → anc par a p → anc par a c.

(** ** Paths *)

(** [path edge a l b]: the edges lead from [a] through the vertices of [l]
    in turn, the last of which is [b] ([b] is [a] when [l] is empty). *)
Inductive path {V} (edge : V → V → Prop) : V → list V → V → Prop :=
  | path_nil a : path edge a [] a
  | path_cons a c l b : edge a c → path edge c l b → path edge a (c :: l) b.

(** ** Dominance *)

Definition reachable {V} (edge : V → V → Prop) (r n : V) : Prop :=
  ∃ l, path edge r l n.

(** [d] dominates [n]: every path from [r] to [n] passes through [d]. *)
Definition dominates {V} (edge : V → V → Prop) (r d n : V) : Prop :=
  ∀ l, path edge r l n → d ∈ r :: l.

(** [d] is the immediate dominator of [n]: a dominator of [n] other than [n]
    which every other such dominator of [n] dominates, the closest one to
    [n]. *)
Definition is_idom {V} (edge : V → V → Prop) (r d n : V) : Prop :=
  d ≠ n ∧ dominates edge r d n ∧
  ∀ d', d' ≠ n → dominates edge r d' n → dominates edge r d' d.

(** The edges of a graph. *)
Definition gedge (g : graph) (a b : Z) : Prop := b ∈ From g a.

(** ** Semidominators *)

(** [x] is a candidate for the semidominator of [w]: a path with at least one
    edge leads from [x] to [w] through vertices numbered above [w] only. *)
Definition cand (edge : nat → nat → Prop) (w x : nat) : Prop :=
  ∃ l, path edge x (l ++ [w]) w ∧ Forall (λ y, w < y) l.

Definition is_sdom (edge : nat → nat → Prop) (w s : nat) : Prop :=
  cand edge w s ∧ ∀ x, cand edge w x → s ≤ x.

(** ** Counting occurrences *)

Definition cnt {A} `{EqDecision A} (x : A) (l : list A) : nat :=
  length (filter (λ y, y = x) l).

Lemma cnt_nil {A} `{EqDecision A} (x : A) : cnt x [] = 0.
Proof. done. Qed.

Lemma cnt_app {A} `{EqDecision A} (x : A) l1 l2 :
  cnt x (l1 ++ l2) = cnt x l1 + cnt x l2.
Proof. unfold cnt. by rewrite filter_app, length_app. Qed.

Lemma cnt_singleton {A} `{EqDecision A} (x y : A) :
  cnt x [y] = if decide (y = x) then 1 else 0.
Proof.
  unfold cnt. case_decide.
  - by rewrite filter_cons_True.
  - by rewrite filter_cons_False.
Qed.

Lemma cnt_not_elem {A} `{EqDecision A} (x : A) l : x ∉ l → cnt x l = 0.
Proof.
  induction l as [|y l IH]; [done|]. intros Hx.
  apply not_elem_of_cons in Hx as [Hne Hx].
  change (y :: l) with ([y] ++ l). rewrite cnt_app, cnt_singleton, (IH Hx).
  by rewrite decide_False.
Qed.

(** ** The result monad *)

Lemma rbind_Ok {A B} (m : result A) (f : A → result B) b :
  rbind m f = Ok b ↔ ∃ a, m = Ok a ∧ f a = Ok b.
Proof.
  destruct m as [a|e]; simpl; split.
  - eauto.
  - by intros (a' & [= ->] & ?).
  - done.
  - by intros (a' & ? & ?).
Qed.

Lemma load_Ok (h : heap) p n : load h p = Ok n ↔ h !! p = Some n.
Proof. unfold load. destruct (h !! p); split; congruence. Qed.

Lemma deref_Ok (h : heap) p q n :
  deref h p = Ok (q, n) ↔ p = Some q ∧ h !! q = Some n.
Proof.
  unfold deref. destruct p as [q'|]; simpl; [|by split; [|intros []]].
  unfold load. destruct (h !! q') eqn:E; simpl; split.
  - by intros [= -> ->].
  - intros ([= ->] & Hq). congruence.
  - done.
  - intros ([= ->] & ?). congruence.
Qed.

Lemma foldR_app {A S} (f : S → A → result S) s xs ys :
  foldR f s (xs ++ ys) = s' ←ᵣ foldR f s xs; foldR f s' ys.
Proof.
  revert s. induction xs as [|x xs IH]; intros s; simpl; [done|].
  destruct (f s x); simpl; auto.
Qed.

(** Invariant rule for [foldR]. *)
Lemma foldR_inv {A S} (f : S → A → result S) (I : list A → S → Prop) xs s s' :
  foldR f s xs = Ok s' →
  I [] s →
  (∀ done x rest s1 s2, xs = done ++ x :: rest → I done s1 →
     f s1 x = Ok s2 → I (done ++ [x]) s2) →
  I xs s'.
Proof.
  intros Hf H0 Hstep.
  assert (∀ done rest s, done ++ rest = xs → I done s →
           foldR f s rest = Ok s' → I xs s') as Hgen.
  { intros done rest. revert done. induction rest as [|x rest IH];
      intros done s1 Heq HI Hfold; simpl in *.
    - rewrite app_nil_r in Heq. by simplify_eq.
    - apply rbind_Ok in Hfold as (s2 & Hx & Hfold).
      apply (IH (done ++ [x]) s2); [by rewrite <-app_assoc| |done].
      eapply Hstep; eauto. }
  by apply (Hgen [] xs s).
Qed.

(** Totality rule for [foldR]. *)
Lemma foldR_total {A S} (f : S → A → result S) (I : list A → S → Prop) xs s :
  I [] s →
  (∀ done x rest s1, xs = done ++ x :: rest → I done s1 →
     ∃ s2, f s1 x = Ok s2 ∧ I (done ++ [x]) s2) →
  ∃ s', foldR f s xs = Ok s' ∧ I xs s'.
Proof.
  intros H0 Hstep.
  assert (∀ done rest s, done ++ rest = xs → I done s →
           ∃ s', foldR f s rest = Ok s' ∧ I xs s') as Hgen.
  { intros done rest. revert done. induction rest as [|x rest IH];
      intros done s1 Heq HI; simpl in *.
    - rewrite app_nil_r in Heq. simplify_eq. eauto.
    - destruct (Hstep done x rest s1) as (s2 & Hx & HI2); [done|done|].
      rewrite Hx. simpl. apply (IH (done ++ [x]) s2); [by rewrite <-app_assoc|done]. }
  by apply (Hgen [] xs s).
Qed.

(** Where a failing [foldR] fails. *)
Lemma foldR_Err {A S} (f : S → A → result S) xs s e :
  foldR f s xs = Err e → ∃ s1 x, x ∈ xs ∧ f s1 x = Err e.
Proof.
  revert s. induction xs as [|x xs IH]; intros s; simpl; [done|].
  destruct (f s x) as [s'|e'] eqn:E; simpl.
  - intros (s1 & y & ? & ?)%IH. exists s1, y. split; [set_solver|done].
  - intros [= ->]. exists s, x. split; [set_solver|done].
Qed.

(** ** Stores *)

Lemma store_length p f (h : heap) : length (store p f h) = length h.
Proof. apply length_alter. Qed.

Lemma store_lookup p f (h : heap) q :
  store p f h !! q = if decide (p = q) then f <$> h !! q else h !! q.
Proof.
  unfold store. rewrite list_lookup_alter. by case_decide; subst.
Qed.

Lemma store_lookup_eq p f (h : heap) : store p f h !! p = f <$> h !! p.
Proof. rewrite store_lookup. by case_decide. Qed.

Lemma store_lookup_ne p f (h : heap) q : p ≠ q → store p f h !! q = h !! q.
Proof. intros. rewrite store_lookup. by case_decide. Qed.

Lemma store_insert p f (h : heap) nd :
  h !! p = Some nd → store p f h = <[p := f nd]> h.
Proof.
  intros Hp. apply list_eq. intros i. rewrite store_lookup.
  pose proof (lookup_lt_Some _ _ _ Hp).
  case_decide; subst.
  - by rewrite list_lookup_insert_eq, Hp.
  - by rewrite list_lookup_insert_ne.
Qed.

(** A field read after a store to another field, or to another record. *)
Section fields.
Context {A : Type} (π : ltNode → A) (d : A).

Lemma field_store p f (h : heap) i :
  from_option π d (store p f h !! i)
  = if decide (p = i) then from_option (π ∘ f) d (h !! i)
    else from_option π d (h !! i).
Proof. rewrite store_lookup. case_decide; [|done]. by destruct (h !! i). Qed.

Lemma field_store_frame p f (h : heap) i :
  (∀ n, π (f n) = π n) →
  from_option π d (store p f h !! i) = from_option π d (h !! i).
Proof.
  intros Hf. rewrite field_store. case_decide; [|done].
  destruct (h !! i); simpl; auto.
Qed.

Lemma field_store_ne p f (h : heap) i :
  p ≠ i → from_option π d (store p f h !! i) = from_option π d (h !! i).
Proof. intros. rewrite field_store. by case_decide. Qed.

Lemma field_store_eq p f (h : heap) x :
  p < length h → (∀ n, π (f n) = x) →
  from_option π d (store p f h !! p) = x.
Proof.
  intros [n Hn]%lookup_lt_is_Some Hf. rewrite field_store.
  case_decide; [|done]. rewrite Hn. simpl. auto.
Qed.
End fields.

Lemma nodeF_store p f (h : heap) i :
  (∀ n, node (f n) = node n) → nodeF (store p f h) i = nodeF h i.
Proof.
  intros Hf. unfold nodeF. rewrite store_lookup. case_decide; [|done].
  destruct (h !! i); simpl; [|done]. by rewrite Hf.
Qed.

Lemma nodeF_lt (h : heap) i : i < length h ↔ is_Some (nodeF h i).
Proof. unfold nodeF. rewrite fmap_is_Some. symmetry. apply lookup_lt_is_Some. Qed.

Lemma nodeF_Some_lt (h : heap) i v : nodeF h i = Some v → i < length h.
Proof. intros. apply nodeF_lt. eauto. Qed.

Lemma parF_Some_lt (h : heap) i p : parF h i = Some p → i < length h.
Proof.
  unfold parF. destruct (h !! i) eqn:E; [|done]. intros _.
  by eapply lookup_lt_Some.
Qed.

Lemma elem_predF_lt (h : heap) i j : i ∈ predF h j → j < length h.
Proof.
  unfold predF. destruct (h !! j) eqn:E; simpl; [|by intros ?%elem_of_nil].
  intros _. by eapply lookup_lt_Some.
Qed.

(** ** Ancestors *)

Section anc.
Context (par : nat → option nat).

Lemma anc_trans a b c : anc par a b → anc par b c → anc par a c.
Proof. intros Hab Hbc. induction Hbc; [done|]. eapply anc_step; eauto. Qed.

Lemma anc_parent p c : par c = Some p → anc par p c.
Proof. intros. eapply anc_step; [done|]. apply anc_refl. Qed.

Lemma anc_inv a c : anc par a c → a = c ∨ ∃ p, par c = Some p ∧ anc par a p.
Proof. destruct 1; eauto. Qed.

Lemma anc_mono (par' : nat → option nat) a c :
  (∀ x p, par x = Some p → par' x = Some p) →
  anc par a c → anc par' a c.
Proof. intros Hm. induction 1; [apply anc_refl|]. eapply anc_step; eauto. Qed.

Context (par_lt : ∀ c p, par c = Some p → p < c).

Lemma anc_le a c : anc par a c → a ≤ c.
Proof using par_lt. induction 1 as [|p c Hp _ IH]; [lia|]. apply par_lt in Hp. lia. Qed.

Lemma anc_antisym a c : anc par a c → anc par c a → a = c.
Proof using par_lt. intros H1%anc_le H2%anc_le. lia. Qed.

(** The ancestors of a vertex form a chain. *)
Lemma anc_chain a b c : anc par a c → anc par b c → a ≤ b → anc par a b.
Proof using par_lt.
  intros Ha Hb. revert a Ha. induction Hb as [|p c Hp Hb IH]; intros a Ha Hle.
  - done.
  - apply IH; [|done].
    apply anc_inv in Ha as [->|(p' & Hp' & Ha)].
    + apply anc_le in Hb. apply par_lt in Hp. lia.
    + congruence.
Qed.

Lemma anc_linear a b c : anc par a c → anc par b c → anc par a b ∨ anc par b a.
Proof using par_lt.
  intros Ha Hb. destruct (decide (a ≤ b)).
  - left. by eapply anc_chain.
  - right. eapply anc_chain; eauto. lia.
Qed.

(** A proper ancestor is an ancestor of the parent. *)
Lemma anc_proper a c p : anc par a c → a ≠ c → par c = Some p → anc par a p.
Proof. intros [->|(p' & Hp' & Ha)]%anc_inv; [done|]. congruence. Qed.
End anc.

(** ** Paths *)

Section path.
Context {V : Type} (edge : V → V → Prop).

Lemma path_app a l1 b l2 c :
  path edge a l1 b → path edge b l2 c → path edge a (l1 ++ l2) c.
Proof. induction 1; simpl; [done|]. intros. constructor; auto. Qed.

Lemma path_snoc a l b c : path edge a l b → edge b c → path edge a (l ++ [c]) c.
Proof. intros Hp He. eapply path_app; [done|]. repeat constructor. done. Qed.

Lemma path_app_inv a l1 l2 c :
  path edge a (l1 ++ l2) c → ∃ b, path edge a l1 b ∧ path edge b l2 c.
Proof.
  revert a. induction l1 as [|x l1 IH]; intros a; simpl.
  - intros. exists a. split; [constructor|done].
  - inversion 1; subst. destruct (IH _ H5) as (b & ? & ?).
    exists b. split; [by constructor|done].
Qed.

Lemma path_snoc_inv a l c b :
  path edge a (l ++ [c]) b → b = c ∧ ∃ x, path edge a l x ∧ edge x c.
Proof.
  intros (x & H1 & H2)%path_app_inv.
  inversion H2 as [|? ? ? ? He Hn]; subst. inversion Hn; subst. eauto.
Qed.

Lemma path_end a l b : path edge a l b → l = [] ∧ a = b ∨ ∃ l', l = l' ++ [b].
Proof.
  induction 1 as [|a c l b He Hp IH]; [by left|right].
  destruct IH as [[-> ->]|[l' ->]]; [by exists []|by exists (c :: l')].
Qed.

Lemma path_end_in a l b : path edge a l b → b ∈ a :: l.
Proof. intros [[-> ->]|[l' ->]]%path_end; set_solver. Qed.

(** Cutting a path at one of its vertices. *)
Lemma path_split_at a l b l1 x l2 :
  path edge a l b → a :: l = l1 ++ x :: l2 →
  ∃ l0, a :: l0 = l1 ++ [x] ∧ path edge a l0 x ∧ path edge x l2 b.
Proof.
  intros Hp Heq. destruct l1 as [|a' l1]; simplify_eq/=.
  - exists []. repeat split; [constructor|done].
  - apply path_app_inv in Hp as (y & H1 & H2).
    inversion H2; subst. exists (l1 ++ [x]). split; [done|].
    split; [by eapply path_snoc|done].
Qed.

Lemma path_mono (edge' : V → V → Prop) a l b :
  (∀ x y, edge x y → edge' x y) → path edge a l b → path edge' a l b.
Proof. intros Hm. induction 1; constructor; auto. Qed.
End path.

Lemma path_fmap {V W} (f : V → W) (e : V → V → Prop) (e' : W → W → Prop) a l b :
  (∀ x y, e x y → e' (f x) (f y)) →
  path e a l b → path e' (f a) (f <$> l) (f b).
Proof. intros Hm. induction 1; simpl; constructor; auto. Qed.

(** ** Lists of numbers *)

(** The first occurrence of the least element. *)
Lemma list_min_first (x : nat) (l : list nat) :
  ∃ l0 m l2, x :: l = l0 ++ m :: l2 ∧
    Forall (λ y, m < y) l0 ∧ Forall (λ y, m ≤ y) l2.
Proof.
  revert x. induction l as [|y l IH]; intros x.
  - exists [], x, []. by repeat split.
  - destruct (IH y) as (l0 & m & l2 & Heq & H0 & H2).
    destruct (decide (x ≤ m)).
    + exists [], x, (y :: l). split; [done|]. split; [constructor|].
      rewrite Heq. apply Forall_app. split.
      * eapply Forall_impl; [done|]. simpl. lia.
      * constructor; [done|]. eapply Forall_impl; [done|]. simpl. lia.
    + exists (x :: l0), m, l2. rewrite Heq. split; [done|].
      split; [|done]. constructor; [lia|done].
Qed.

(** The last element with a decidable property. *)
Lemma list_last_such (P : nat → Prop) `{!∀ x, Decision (P x)} (l : list nat) :
  Exists P l → ∃ l1 x l2, l = l1 ++ x :: l2 ∧ P x ∧ Forall (λ y, ¬ P y) l2.
Proof.
  induction l as [|y l IH]; [by inversion 1|].
  intros HE. destruct (decide (Exists P l)) as [HE'|HE'].
  - destruct (IH HE') as (l1 & x & l2 & -> & ? & ?).
    by exists (y :: l1), x, l2.
  - exists [], y, l. split; [done|].
    split; [|by apply (not_Exists_Forall P)].
    by apply Exists_inv in HE as [?|?].
Qed.

(** ** Dominators on a depth-first spanning tree

    The vertices are the numbers below [N] in the order of their discovery,
    [0] being the root; [par] is the spanning tree and [edge] the graph.  The
    lemmas follow Lengauer and Tarjan's paper, stated so that no case
    distinction on dominance is needed. *)
Section theory.
Context (N : nat) (par : nat → option nat) (edge : nat → nat → Prop).
Context (par_lt : ∀ c p, par c = Some p → p < c).
Context (par_some : ∀ c, 0 < c < N → is_Some (par c)).
Context (par_edge : ∀ c p, par c = Some p → edge p c).
Context (edge_bound : ∀ a b, edge a b → a < N ∧ b < N).
Context (tree_interval : ∀ c p b, par c = Some p → p < b < c → anc par p b).
Context (edge_forward : ∀ a b, edge a b → a < b → anc par a b).

Set Default Proof Using "All".

Local Notation "a ⪯ b" := (anc par a b) (at level 70).

(** The descendants of a vertex are numbered consecutively. *)
Lemma anc_interval a b c : a ⪯ c → a ≤ b ≤ c → a ⪯ b.
Proof.
  induction 1 as [|p c Hp Ha IH]; intros Hb.
  - replace b with a by lia. apply anc_refl.
  - pose proof (par_lt _ _ Hp).
    destruct (decide (b ≤ p)); [apply IH; lia|].
    destruct (decide (b = c)) as [->|]; [by eapply anc_step|].
    eapply anc_trans; [done|]. eapply tree_interval; [done|lia].
Qed.

Lemma anc_root v : v < N → 0 ⪯ v.
Proof.
  induction (lt_wf v) as [v _ IH]. intros Hv.
  destruct (decide (v = 0)) as [->|]; [apply anc_refl|].
  destruct (par_some v) as [p Hp]; [lia|].
  pose proof (par_lt _ _ Hp). eapply anc_step; [done|]. apply IH; lia.
Qed.

Lemma anc_bound a c : a ⪯ c → c < N → a < N.
Proof. intros H%(anc_le _ par_lt). lia. Qed.

(** The path along the tree. *)
Lemma tree_path a b :
  a ⪯ b → ∃ l, path edge a l b ∧ Forall (λ x, a < x ∧ a ⪯ x ∧ x ⪯ b) l.
Proof.
  induction 1 as [|p c Hp Ha (l & Hl & Hall)].
  - exists []. split; constructor.
  - exists (l ++ [c]). split; [eapply path_snoc; eauto|].
    apply Forall_app. split.
    + eapply Forall_impl; [done|]. intros x (? & ? & ?). repeat split; [done..|].
      by eapply anc_step.
    + repeat constructor.
      * apply (anc_le _ par_lt) in Ha. apply par_lt in Hp. lia.
      * by eapply anc_step.
Qed.

(** A vertex below which a path stays is an ancestor of the path's end
    once it is an ancestor of its start. *)
Lemma path_above m a l b :
  path edge a l b → Forall (λ y, m ≤ y) l → m ⪯ a → m ⪯ b.
Proof.
  induction 1 as [|a c l b He Hp IH]; [done|].
  intros [Hc Hl]%Forall_cons Ha. apply IH; [done|].
  destruct (decide (a < c)).
  - eapply anc_trans; [done|]. by apply edge_forward.
  - eapply anc_interval; [done|]. apply (anc_le _ par_lt) in Ha. lia.
Qed.

(** Lemma 1: a path from [v] to a vertex numbered no less holds a common
    ancestor of both, its least vertex. *)
Lemma path_common_ancestor v l w :
  path edge v l w → v ≤ w →
  ∃ m, m ∈ v :: l ∧ m ⪯ v ∧ m ⪯ w.
Proof.
  intros Hp Hle.
  destruct (list_min_first v l) as (l0 & m & l2 & Heq & H0 & H2).
  exists m. split; [rewrite Heq; set_solver|].
  destruct (path_split_at _ _ _ _ _ _ _ Hp Heq) as (l' & _ & _ & Hp2).
  assert (m ⪯ w) as Hw.
  { eapply path_above; [done..|apply anc_refl]. }
  split; [|done]. eapply anc_interval; [done|].
  split; [|done]. destruct l0; simplify_eq/=; [done|].
  apply Forall_cons in H0 as [? _]. lia.
Qed.

(** Lemma 3: a candidate numbered below [w] is a proper ancestor of [w]. *)
Lemma cand_anc w x : cand edge w x → x < w → x ⪯ w.
Proof.
  intros (l & Hp & Hl) Hlt.
  destruct (path_common_ancestor _ _ _ Hp) as (m & Hin & Hx & Hw); [lia|].
  apply (anc_le _ par_lt) in Hx as Hle.
  apply elem_of_cons in Hin as [->|Hin]; [done|].
  apply elem_of_app in Hin as [Hin|Hin].
  - rewrite Forall_forall in Hl. apply Hl in Hin. lia.
  - apply list_elem_of_singleton in Hin. lia.
Qed.

Lemma cand_parent w p : par w = Some p → cand edge w p.
Proof.
  intros Hp. exists []. split; [|constructor].
  simpl. constructor; [by apply par_edge|constructor].
Qed.

Lemma cand_edge w v : edge v w → cand edge w v.
Proof.
  intros He. exists []. split; [|constructor].
  simpl. constructor; [done|constructor].
Qed.

Lemma sdom_lt w s : 0 < w < N → is_sdom edge w s → s < w.
Proof.
  intros Hw [_ Hmin]. destruct (par_some w Hw) as [p Hp].
  specialize (Hmin p (cand_parent _ _ Hp)). apply par_lt in Hp. lia.
Qed.

Lemma sdom_anc w s : 0 < w < N → is_sdom edge w s → s ⪯ w ∧ s ≠ w.
Proof.
  intros Hw Hs. pose proof (sdom_lt _ _ Hw Hs).
  split; [|lia]. apply cand_anc; [apply Hs|done].
Qed.

(** Lemma 2: a dominator of [w] lies on the tree path to [w]. *)
Lemma dominates_anc d w : w < N → dominates edge 0 d w → d ⪯ w.
Proof.
  intros Hw Hd. destruct (tree_path 0 w (anc_root w Hw)) as (l & Hp & Hl).
  specialize (Hd l Hp). apply elem_of_cons in Hd as [->|Hd].
  - by apply anc_root.
  - rewrite Forall_forall in Hl. by apply Hl.
Qed.

Lemma dominates_refl w : w < N → dominates edge 0 w w.
Proof. intros _ l Hp. by eapply path_end_in. Qed.

(** Theorem 4, upper bound: semidominators of descendants above [w] that
    reach [w] by one more edge are candidates for [w]. *)
Lemma cand_via w v u x :
  edge v w → u ⪯ v → w < u → cand edge u x → cand edge w x.
Proof.
  intros He Hv Hu (l & Hp & Hl).
  destruct (tree_path u v Hv) as (l2 & Hp2 & Hl2).
  exists ((l ++ [u]) ++ l2). split.
  - eapply path_snoc; [|done]. eapply path_app; done.
  - rewrite !Forall_app. split_and!.
    + eapply Forall_impl; [done|]. simpl. lia.
    + by repeat constructor.
    + eapply Forall_impl; [done|]. simpl. lia.
Qed.

(** Theorem 4, lower bound: where a candidate comes from. *)
Lemma cand_inv w x :
  cand edge w x →
  ∃ v, edge v w ∧ (x = v ∨ ∃ y, y ⪯ v ∧ w < y ∧ cand edge y x).
Proof.
  intros (l & Hp & Hl).
  destruct (path_snoc_inv _ _ _ _ _ Hp) as (_ & v & Hpv & He).
  exists v. split; [done|].
  destruct l as [|z l]; [left; by inversion Hpv|right].
  destruct (list_min_first z l) as (l0 & m & l2 & Heq & H0 & H2).
  rewrite Heq in Hpv, Hl.
  apply path_app_inv in Hpv as (b & Hp1 & Hp2).
  inversion Hp2 as [|? ? ? ? Hem Hp3]; subst.
  apply Forall_app in Hl as [_ [Hm _]%Forall_cons].
  exists m. split; [eapply path_above; [done..|apply anc_refl]|].
  split; [done|]. exists l0. split; [by eapply path_snoc|done].
Qed.

(** The common core of Theorems 2 and 3: a proper ancestor [d] of [w]
    dominates [w] when no vertex on the tree path from below [d] to [w]
    has a candidate numbered below [d]. *)
Lemma anc_dominates d w :
  d ⪯ w → d ≠ w →
  (∀ y x, d ⪯ y → d ≠ y → y ⪯ w → cand edge y x → d ≤ x) →
  dominates edge 0 d w.
Proof.
  intros Hdw Hne Hcand.
  assert (∀ n l y, length l = n → path edge 0 l y → d ∉ 0 :: l →
            ¬ (d ⪯ y ∧ d ≠ y ∧ y ⪯ w)) as Hclaim.
  { intros n. induction (lt_wf n) as [n _ IH].
    intros l y Hlen Hp Hd (Hdy & Hney & Hyw).
    pose proof (anc_le _ par_lt _ _ Hdy) as Hle.
    assert (0 < d) as Hd0 by (apply not_elem_of_cons in Hd; lia).
    destruct (path_end _ _ _ _ Hp) as [[-> <-]|[l' ->]]; [lia|].
    (* the last vertex before [y] numbered below [d] *)
    destruct (list_last_such (λ v, v < d) (0 :: l')) as (l1 & x & l2 & Heq & Hx & Hl2).
    { by left. }
    assert (0 :: l' ++ [y] = l1 ++ x :: (l2 ++ [y])) as Heq'.
    { by rewrite app_comm_cons, Heq, <-app_assoc. }
    destruct (path_split_at _ _ _ _ _ _ _ Hp Heq') as (l0 & _ & _ & Hp2).
    (* earlier vertices are not on the tree path from below [d] to [w] *)
    assert (∀ z, z ∈ l2 → ¬ (d ⪯ z ∧ d ≠ z ∧ z ⪯ w)) as Hearlier.
    { intros z Hz. apply list_elem_of_split in Hz as (l3 & l4 & ->).
      assert (0 :: l' ++ [y] = (l1 ++ x :: l3) ++ z :: (l4 ++ [y])) as Heq3.
      { rewrite Heq'. by rewrite <-!app_assoc. }
      destruct (path_split_at _ _ _ _ _ _ _ Hp Heq3) as (l5 & Hl5 & Hp5 & _).
      apply (IH (length l5)) with (l := l5); [|done|done|].
      - rewrite <-Hlen. apply (f_equal length) in Hl5, Heq3.
        revert Hl5 Heq3. simpl. rewrite !length_app. simpl.
        rewrite !length_app. simpl. lia.
      - rewrite Hl5. intros Hin. apply Hd. rewrite Heq3.
        clear -Hin. set_solver. }
    assert (Forall (λ v, d < v) l2) as Hl2'.
    { apply Forall_forall. intros z Hz.
      rewrite Forall_forall in Hl2. specialize (Hl2 z Hz).
      assert (z ≠ d); [|lia]. intros ->. apply Hd.
      rewrite Heq'. set_solver. }
    destruct (decide (Forall (λ v, y < v) l2)) as [Hall|Hex].
    - assert (cand edge y x) as Hc by (by exists l2).
      specialize (Hcand y x Hdy Hney Hyw Hc). lia.
    - apply not_Forall_Exists in Hex; [|apply _].
      apply Exists_exists in Hex as (v & Hv & Hvy). simpl in Hvy.
      destruct (decide (v = y)) as [->|Hvne].
      { by apply (Hearlier y Hv). }
      apply list_elem_of_split in Hv as (l3 & l4 & ->).
      assert (x :: (l3 ++ v :: l4) ++ [y] = (x :: l3) ++ v :: (l4 ++ [y])) as Heq4.
      { simpl. by rewrite <-!app_assoc. }
      destruct (path_split_at _ _ _ _ _ _ _ Hp2 Heq4) as (_ & _ & _ & Hp4).
      destruct (path_common_ancestor _ _ _ Hp4) as (m & Hm & Hmv & Hmy); [lia|].
      pose proof (anc_le _ par_lt _ _ Hmv) as Hmle.
      assert (m ∈ l3 ++ v :: l4) as Hm'.
      { rewrite app_comm_cons in Hm. apply elem_of_app in Hm as [Hm|Hm].
        - set_solver.
        - apply list_elem_of_singleton in Hm. lia. }
      rewrite Forall_forall in Hl2'. pose proof (Hl2' m Hm').
      apply (Hearlier m Hm'). split_and!.
      + eapply anc_chain; [done..|lia].
      + lia.
      + by eapply anc_trans. }
  intros l Hp. destruct (decide (d ∈ 0 :: l)) as [|Hd]; [done|].
  destruct (Hclaim _ l w eq_refl Hp Hd). split_and!; [done..|apply anc_refl].
Qed.

(** A path from the root through a candidate: down the tree, then along
    the candidate's path. *)
Lemma cand_path w s :
  s < N → cand edge w s →
  ∃ l1 l2, path edge 0 l1 s ∧ path edge s (l2 ++ [w]) w ∧
    Forall (λ x, x ⪯ s) l1 ∧ Forall (λ x, w < x) l2.
Proof.
  intros Hs (l2 & Hp2 & Hl2).
  destruct (tree_path 0 s (anc_root s Hs)) as (l1 & Hp1 & Hl1).
  exists l1, l2. split_and!; [done..| |done].
  eapply Forall_impl; [done|]. by intros x (_ & _ & ?).
Qed.

(** Lemma 4: a dominator of [w] other than [w] is an ancestor of every
    candidate of [w] numbered below [w], and dominates it. *)
Lemma dominates_cand d w s :
  w < N → s < w → cand edge w s → dominates edge 0 d w → d ≠ w →
  d ⪯ s ∧ dominates edge 0 d s.
Proof.
  intros Hw Hsw Hc Hd Hne.
  pose proof (dominates_anc _ _ Hw Hd) as Hdw.
  pose proof (anc_le _ par_lt _ _ Hdw) as Hle.
  destruct (cand_path w s) as (l1 & l2 & Hp1 & Hp2 & Hl1 & Hl2); [lia|done|].
  assert (∀ l, path edge 0 l s → d ∈ 0 :: l) as Hdom.
  { intros l Hp. pose proof (Hd _ (path_app _ _ _ _ _ _ Hp Hp2)) as Hin.
    rewrite app_comm_cons in Hin. apply elem_of_app in Hin as [?|Hin]; [done|].
    apply elem_of_app in Hin as [Hin|Hin].
    - rewrite Forall_forall in Hl2. apply Hl2 in Hin. lia.
    - apply list_elem_of_singleton in Hin. lia. }
  split; [|done]. apply dominates_anc; [lia|done].
Qed.

(** Theorem 2. *)
Lemma sdom_is_idom w s :
  0 < w < N → is_sdom edge w s →
  (∀ y x, s ⪯ y → s ≠ y → y ⪯ w → cand edge y x → s ≤ x) →
  is_idom edge 0 s w.
Proof.
  intros Hw Hs Hmin. destruct (sdom_anc _ _ Hw Hs) as [Hsw Hne].
  split; [done|]. split; [by apply anc_dominates|].
  intros d' Hne' Hd'.
  apply (dominates_cand d' w s); [lia| |apply Hs|done..].
  by eapply sdom_lt.
Qed.

(** A dominator of [u] has no candidate of a vertex between them below
    itself. *)
Lemma dominates_no_bypass d u y x :
  u < N → dominates edge 0 d u → d ⪯ y → d ≠ y → y ⪯ u →
  cand edge y x → d ≤ x.
Proof.
  intros Hu Hd Hdy Hne Hyu Hc.
  destruct (decide (d ≤ x)) as [|Hlt]; [done|exfalso].
  pose proof (anc_le _ par_lt _ _ Hdy).
  pose proof (anc_le _ par_lt _ _ Hyu).
  destruct (cand_path y x) as (l1 & l2 & Hp1 & Hp2 & Hl1 & Hl2); [lia|done|].
  destruct (tree_path y u Hyu) as (l3 & Hp3 & Hl3).
  pose proof (Hd _ (path_app _ _ _ _ _ _ (path_app _ _ _ _ _ _ Hp1 Hp2) Hp3)) as Hin.
  rewrite !app_comm_cons in Hin.
  apply elem_of_app in Hin as [Hin|Hin]; [apply elem_of_app in Hin as [Hin|Hin]|].
  - apply elem_of_cons in Hin as [->|Hin]; [lia|].
    rewrite Forall_forall in Hl1. apply Hl1, (anc_le _ par_lt) in Hin. lia.
  - apply elem_of_app in Hin as [Hin|Hin].
    + rewrite Forall_forall in Hl2. apply Hl2 in Hin. lia.
    + apply list_elem_of_singleton in Hin. lia.
  - rewrite Forall_forall in Hl3. apply Hl3 in Hin. lia.
Qed.

(** Theorem 3. *)
Lemma idom_of_min w s u su d :
  0 < w < N → is_sdom edge w s →
  s ⪯ u → s ≠ u → u ⪯ w → is_sdom edge u su →
  (∀ y x, s ⪯ y → s ≠ y → y ⪯ w → cand edge y x → su ≤ x) →
  is_idom edge 0 d u → is_idom edge 0 d w.
Proof.
  intros Hw Hs Hsu Hne Huw Hsdu Hmin (Hdu & Hd & Hclosest).
  destruct (sdom_anc _ _ Hw Hs) as [Hsw Hnew].
  pose proof (anc_le _ par_lt _ _ Hsu) as Hle1.
  pose proof (anc_le _ par_lt _ _ Huw) as Hle2.
  assert (0 < u < N) as Hu by lia.
  pose proof (sdom_lt _ _ Hu Hsdu) as Hsult.
  destruct (dominates_cand d u su) as [Hdsu _]; [lia|done|apply Hsdu|done..|].
  pose proof (anc_le _ par_lt _ _ Hdsu) as Hle3.
  pose proof (dominates_anc _ _ (proj2 Hu) Hd) as Hdu'.
  pose proof (anc_le _ par_lt _ _ Hdu') as Hle4.
  split; [lia|]. split.
  - apply anc_dominates; [by eapply anc_trans|lia|].
    intros y x Hdy Hney Hyw Hc.
    destruct (decide (y ≤ s)) as [Hys|Hys].
    + eapply (dominates_no_bypass d u y x); [lia|done..| |done].
      apply anc_trans with s; [|done].
      by apply (anc_chain _ par_lt y s w).
    + etrans; [|eapply (Hmin y x); [|lia|done..]]; [lia|].
      apply (anc_chain _ par_lt s y w); [done..|lia].
  - intros d' Hne' Hd'.
    destruct (dominates_cand d' w s) as [Hd's _];
      [lia|by eapply sdom_lt|apply Hs|done..|].
    pose proof (anc_le _ par_lt _ _ Hd's) as Hle5.
    apply Hclosest; [lia|].
    intros l Hp. destruct (tree_path u w Huw) as (l3 & Hp3 & Hl3).
    pose proof (Hd' _ (path_app _ _ _ _ _ _ Hp Hp3)) as Hin.
    rewrite app_comm_cons in Hin. apply elem_of_app in Hin as [?|Hin]; [done|].
    rewrite Forall_forall in Hl3. apply Hl3 in Hin. lia.
Qed.

Lemma idom_unique d1 d2 w :
  w < N → is_idom edge 0 d1 w → is_idom edge 0 d2 w → d1 = d2.
Proof.
  intros Hw (Hn1 & Hd1 & Hc1) (Hn2 & Hd2 & Hc2).
  pose proof (dominates_anc _ _ Hw Hd1) as H1.
  pose proof (dominates_anc _ _ Hw Hd2) as H2.
  pose proof (anc_bound _ _ H1 Hw). pose proof (anc_bound _ _ H2 Hw).
  apply (anc_antisym _ par_lt); apply dominates_anc; auto.
Qed.

Lemma idom_lt d w : w < N → is_idom edge 0 d w → d < w.
Proof.
  intros Hw (Hn & Hd & _). apply dominates_anc, (anc_le _ par_lt) in Hd; [lia|done].
Qed.
End theory.

(** ** Step 1: what the search builds *)

Section dfs.
Context (g : graph).

(** The index and the records agree, predecessor entries are edges of the
    graph, tree edges are among them, and the algorithm state of every
    record is still the initial one. *)
Definition wf (lt : lengauerTarjan) : Prop :=
  (∀ v i, indexOf lt !! v = Some i ↔ nodeF (nodes lt) i = Some v) ∧
  (∀ i j, i ∈ predF (nodes lt) j →
     ∃ vi vj, nodeF (nodes lt) i = Some vi ∧ nodeF (nodes lt) j = Some vj ∧
              vj ∈ From g vi) ∧
  (∀ c p, parF (nodes lt) c = Some p → p ∈ predF (nodes lt) c) ∧
  (∀ i nd, nodes lt !! i = Some nd →
     semi nd = i ∧ label nd = i ∧ bucket nd = ∅ ∧ dom nd = None ∧
     ancestor nd = None).

Definition extends (lt lt' : lengauerTarjan) : Prop :=
  indexOf lt ⊆ indexOf lt' ∧
  (∀ i v, nodeF (nodes lt) i = Some v → nodeF (nodes lt') i = Some v) ∧
  (∀ i p, parF (nodes lt) i = Some p → parF (nodes lt') i = Some p) ∧
  (∀ i j, i ∈ predF (nodes lt) j → i ∈ predF (nodes lt') j).

(** The records [lo+1 .. hi-1] hang below [lo], each after its parent, and
    the records between a parent and its child are descendants of the
    parent. *)
Definition tree_ok (h : heap) (lo hi : nat) : Prop :=
  ∀ i, lo < i < hi →
    ∃ p, parF h i = Some p ∧ lo ≤ p < i ∧
         ∀ b, p < b < i → anc (parF h) p b.

(** Every edge out of the records [lo .. hi-1] has been followed: its
    target is indexed and lists the source as a predecessor, and a target
    numbered above the source is a descendant of it. *)
Definition closed (lt : lengauerTarjan) (lo hi : nat) : Prop :=
  ∀ i vi w, lo ≤ i < hi → nodeF (nodes lt) i = Some vi → w ∈ From g vi →
    ∃ j, indexOf lt !! w = Some j ∧ i ∈ predF (nodes lt) j ∧
         (i < j → anc (parF (nodes lt)) i j).

Lemma extends_refl lt : extends lt lt.
Proof. by repeat split. Qed.

Lemma extends_trans lt1 lt2 lt3 : extends lt1 lt2 → extends lt2 lt3 → extends lt1 lt3.
Proof.
  intros (? & ? & ? & ?) (? & ? & ? & ?). split_and!; [by etrans|eauto..].
Qed.

Lemma extends_length lt lt' : extends lt lt' → length (nodes lt) ≤ length (nodes lt').
Proof.
  intros (_ & Hn & _). destruct (decide (length (nodes lt) = 0)) as [|Hne]; [lia|].
  destruct (lookup_lt_is_Some_2 (nodes lt) (length (nodes lt) - 1)) as [nd Hnd]; [lia|].
  specialize (Hn (length (nodes lt) - 1) (node nd)).
  unfold nodeF in Hn at 1. rewrite Hnd in Hn. specialize (Hn eq_refl).
  apply nodeF_Some_lt in Hn. lia.
Qed.

Lemma wf_index_lt lt v i : wf lt → indexOf lt !! v = Some i → i < length (nodes lt).
Proof. intros (H1 & _) Hi. apply H1 in Hi. by eapply nodeF_Some_lt. Qed.

Lemma wf_inj lt i j v :
  wf lt → nodeF (nodes lt) i = Some v → nodeF (nodes lt) j = Some v → i = j.
Proof. intros (H1 & _) Hi Hj. apply H1 in Hi, Hj. congruence. Qed.

Lemma tree_ok_mono h h' lo hi :
  (∀ i p, parF h i = Some p → parF h' i = Some p) →
  tree_ok h lo hi → tree_ok h' lo hi.
Proof.
  intros Hm Ht i Hi. destruct (Ht i Hi) as (p & Hp & Hlt & Hb).
  exists p. split; [auto|]. split; [done|]. intros b Hbi.
  eapply anc_mono; [done|]. by apply Hb.
Qed.

Lemma tree_ok_anc h lo hi i : tree_ok h lo hi → lo ≤ i < hi → anc (parF h) lo i.
Proof.
  intros Ht. induction (lt_wf i) as [i _ IH]. intros Hi.
  destruct (decide (i = lo)) as [->|]; [apply anc_refl|].
  destruct (Ht i) as (p & Hp & Hlt & _); [lia|].
  eapply anc_step; [done|]. apply IH; lia.
Qed.

Lemma closed_mono lt lt' lo hi :
  extends lt lt' → hi ≤ length (nodes lt) →
  closed lt lo hi → closed lt' lo hi.
Proof.
  intros (Hi & Hn & Hp & Hpr) Hhi Hc i vi w Hlt Hvi Hw.
  assert (nodeF (nodes lt) i = Some vi) as Hvi0.
  { destruct (proj1 (nodeF_lt (nodes lt) i)) as [v0 Hv0]; [lia|].
    pose proof (Hn _ _ Hv0). congruence. }
  destruct (Hc i vi w Hlt Hvi0 Hw) as (j & Hj & Hpred & Hanc).
  exists j. split_and!; [by eapply lookup_weaken|auto|].
  intros Hij. eapply anc_mono; [done|]. auto.
Qed.

Lemma wf_init : wf (LT [] ∅).
Proof.
  split_and!; simpl.
  - intros v i. unfold nodeF. rewrite lookup_empty, lookup_nil. done.
  - intros i j. unfold predF. rewrite lookup_nil. simpl. by intros ?%elem_of_nil.
  - intros c p. unfold parF. by rewrite lookup_nil.
  - intros i nd. by rewrite lookup_nil.
Qed.

(** Allocating the record of [v]. *)
Lemma wf_alloc lt v :
  wf lt → indexOf lt !! v = None →
  let n := length (nodes lt) in
  let lt1 := LT (nodes lt ++ [new_ltNode v n]) (<[v := n]> (indexOf lt)) in
  wf lt1 ∧ extends lt lt1 ∧
  (∀ i, i < n → parF (nodes lt1) i = parF (nodes lt) i) ∧
  nodeF (nodes lt1) n = Some v ∧ parF (nodes lt1) n = None.
Proof.
  intros (W1 & W2 & W3 & W4) Hv n lt1. subst lt1. simpl.
  set (h1 := nodes lt ++ [new_ltNode v n]).
  assert (∀ i, i < n → h1 !! i = nodes lt !! i) as Hold.
  { intros i Hi. by apply lookup_app_l. }
  assert (h1 !! n = Some (new_ltNode v n)) as Hnew.
  { unfold h1. rewrite lookup_app_r; [|done]. by rewrite Nat.sub_diag. }
  assert (∀ i, n < i → h1 !! i = None) as Hbig.
  { intros i Hi. apply lookup_ge_None. unfold h1. rewrite length_app. simpl. lia. }
  assert (∀ i, i ≠ n → h1 !! i = nodes lt !! i) as Hne.
  { intros i Hi. destruct (decide (i < n)); [auto|].
    rewrite Hbig; [|lia]. symmetry. apply lookup_ge_None. lia. }
  split_and!.
  - split_and!; simpl; fold h1.
    + intros w i. rewrite lookup_insert. case_decide as Hvw.
      * subst w. split.
        -- intros [= <-]. unfold nodeF. by rewrite Hnew.
        -- intros Hi. f_equal. destruct (decide (i = n)) as [|Hin]; [done|].
           unfold nodeF in Hi. rewrite Hne in Hi; [|done].
           apply W1 in Hi. congruence.
      * unfold nodeF. destruct (decide (i = n)) as [->|Hin].
        -- rewrite Hnew. simpl. split; [|congruence].
           intros Hi%(wf_index_lt lt); [lia|done].
        -- rewrite Hne; [|done]. apply W1.
    + intros i j. unfold predF, nodeF. destruct (decide (j = n)) as [->|Hjn].
      { rewrite Hnew. simpl. by intros ?%elem_of_nil. }
      rewrite (Hne j); [|done]. intros Hij.
      destruct (W2 i j Hij) as (vi & vj & Hvi & Hvj & He).
      exists vi, vj. split_and!; [|done..].
      rewrite Hold; [done|]. by eapply nodeF_Some_lt.
    + intros c p. unfold parF, predF. destruct (decide (c = n)) as [->|Hcn].
      { by rewrite Hnew. }
      rewrite (Hne c); [|done]. apply W3.
    + intros i nd. destruct (decide (i = n)) as [->|Hin].
      { rewrite Hnew. by intros [= <-]. }
      rewrite Hne; [|done]. apply W4.
  - split_and!; simpl; fold h1.
    + by apply insert_subseteq.
    + intros i w Hi. unfold nodeF in *.
      rewrite Hold; [done|]. by eapply (nodeF_Some_lt (nodes lt)).
    + intros i p Hi. unfold parF in *.
      rewrite Hold; [done|]. by eapply parF_Some_lt.
    + intros i j Hi. unfold predF in *.
      rewrite Hold; [done|]. by eapply elem_predF_lt.
  - intros i Hi. unfold parF. by rewrite Hold.
  - unfold nodeF. by rewrite Hnew.
  - unfold parF. by rewrite Hnew.
Qed.

(** Recording the edge from record [n] to record [idx], as a tree edge
    when [idx] has just been discovered. *)
Lemma wf_edge lt idx nd n v po :
  wf lt → nodes lt !! idx = Some nd → nodeF (nodes lt) n = Some v →
  node nd ∈ From g v →
  po = parent nd ∨ (parent nd = None ∧ po = Some n) →
  let nd' := with_pred (pred nd ++ [n]) (with_parent po nd) in
  let lt' := LT (<[idx := nd']> (nodes lt)) (indexOf lt) in
  wf lt' ∧ extends lt lt' ∧
  (∀ i, i ≠ idx → parF (nodes lt') i = parF (nodes lt) i) ∧
  parF (nodes lt') idx = po ∧
  (∀ i, nodeF (nodes lt') i = nodeF (nodes lt) i) ∧
  length (nodes lt') = length (nodes lt) ∧
  n ∈ predF (nodes lt') idx ∧
  (∀ j, predF (nodes lt') j
        = if decide (j = idx) then predF (nodes lt) idx ++ [n]
          else predF (nodes lt) j).
Proof.
  intros (W1 & W2 & W3 & W4) Hnd Hn He Hpo nd' lt'. subst lt'. simpl.
  set (h' := <[idx := nd']> (nodes lt)).
  pose proof (lookup_lt_Some _ _ _ Hnd) as Hlt.
  assert (h' !! idx = Some nd') as Hidx by (by apply list_lookup_insert_eq).
  assert (∀ i, i ≠ idx → h' !! i = nodes lt !! i) as Hne.
  { intros i Hi. by apply list_lookup_insert_ne. }
  assert (∀ i, nodeF h' i = nodeF (nodes lt) i) as Hnode.
  { intros i. unfold nodeF. destruct (decide (i = idx)) as [->|Hi].
    - by rewrite Hidx, Hnd.
    - by rewrite Hne. }
  assert (∀ i j, i ∈ predF (nodes lt) j → i ∈ predF h' j) as Hpred.
  { intros i j. unfold predF. destruct (decide (j = idx)) as [->|Hj].
    - rewrite Hidx, Hnd. simpl. set_solver.
    - by rewrite Hne. }
  assert (∀ i, i ≠ idx → parF h' i = parF (nodes lt) i) as Hpar.
  { intros i Hi. unfold parF. by rewrite Hne. }
  assert (parF h' idx = po) as Hparidx.
  { unfold parF. by rewrite Hidx. }
  assert (n ∈ predF h' idx) as Hin.
  { unfold predF. rewrite Hidx. simpl. set_solver. }
  assert (∀ j, predF h' j = if decide (j = idx) then predF (nodes lt) idx ++ [n]
                            else predF (nodes lt) j) as Hpredeq.
  { intros j. unfold predF. case_decide as Hj.
    - subst j. by rewrite Hidx, Hnd.
    - by rewrite Hne. }
  split_and!; [|split_and!|done..|by apply length_insert|done|done]; simpl; fold h'.
  - split_and!; simpl; fold h'.
    + intros w i. rewrite Hnode. apply W1.
    + intros i j. rewrite !Hnode. unfold predF.
      destruct (decide (j = idx)) as [->|Hj].
      * rewrite Hidx. simpl. intros [Hi|Hi%list_elem_of_singleton]%elem_of_app.
        -- apply W2. unfold predF. by rewrite Hnd.
        -- subst i. exists v, (node nd). split_and!; [done| |done].
           unfold nodeF. by rewrite Hnd.
      * rewrite Hne; [|done]. apply W2.
    + intros c p. destruct (decide (c = idx)) as [->|Hc].
      * rewrite Hparidx. intros ->. destruct Hpo as [Hpo|[_ [= ->]]]; [|done].
        apply Hpred, W3. unfold parF. by rewrite Hnd.
      * rewrite Hpar; [|done]. intros Hp. by apply Hpred, W3.
    + intros i x. destruct (decide (i = idx)) as [->|Hi].
      * rewrite Hidx. intros [= <-]. simpl. by apply W4.
      * rewrite Hne; [|done]. apply W4.
  - done.
  - intros i v'. by rewrite Hnode.
  - intros i p. destruct (decide (i = idx)) as [->|Hi].
    + rewrite Hparidx. unfold parF. rewrite Hnd. simpl.
      destruct Hpo as [->|[-> _]]; done.
    + by rewrite Hpar.
  - done.
Qed.

(** The specification of [dfs]. *)
Lemma dfs_spec fuel v lt lt' :
  wf lt → indexOf lt !! v = None → dfs fuel g v lt = Ok lt' →
  let n := length (nodes lt) in
  let n' := length (nodes lt') in
  wf lt' ∧ extends lt lt' ∧ n < n' ∧
  (∀ i, i < n → parF (nodes lt') i = parF (nodes lt) i) ∧
  nodeF (nodes lt') n = Some v ∧ parF (nodes lt') n = None ∧
  tree_ok (nodes lt') n n' ∧ closed lt' n n' ∧
  (∀ j i, i < n → cnt i (predF (nodes lt') j) = cnt i (predF (nodes lt) j)) ∧
  (∀ i vi j w, n ≤ i < n' → nodeF (nodes lt') i = Some vi →
     nodeF (nodes lt') j = Some w →
     cnt i (predF (nodes lt') j) = cnt w (From g vi)).
Proof.
  revert v lt lt'. induction fuel as [|fuel IH]; intros v lt lt' Hwf Hv Hdfs; [done|].
  simpl in Hdfs. intros n n'. fold n in Hdfs.
  destruct (wf_alloc lt v Hwf Hv) as (Hwf1 & Hext1 & Hpar1 & Hnode1 & Hparn1).
  fold n in Hwf1, Hext1, Hpar1, Hnode1, Hparn1.
  set (lt1 := LT (nodes lt ++ [new_ltNode v n]) (<[v:=n]> (indexOf lt))) in *.
  assert (length (nodes lt1) = S n) as Hlen1.
  { simpl. rewrite length_app. simpl. lia. }
  pose (I := λ (done : list Z) (s : lengauerTarjan),
    wf s ∧ extends lt1 s ∧ n < length (nodes s) ∧
    (∀ i, i ≤ n → parF (nodes s) i = parF (nodes lt1) i) ∧
    tree_ok (nodes s) n (length (nodes s)) ∧
    closed s (S n) (length (nodes s)) ∧
    (∀ w, w ∈ done → ∃ j, indexOf s !! w = Some j ∧ n ∈ predF (nodes s) j) ∧
    (∀ j i, i < n → cnt i (predF (nodes s) j) = cnt i (predF (nodes lt) j)) ∧
    (∀ i vi j w, n < i < length (nodes s) → nodeF (nodes s) i = Some vi →
       nodeF (nodes s) j = Some w →
       cnt i (predF (nodes s) j) = cnt w (From g vi)) ∧
    (∀ j w, nodeF (nodes s) j = Some w → cnt n (predF (nodes s) j) = cnt w done)).
  assert (∀ j, predF (nodes lt1) j = predF (nodes lt) j) as Hpred1.
  { intros j. unfold predF. simpl. destruct (decide (j < n)) as [Hj|Hj].
    - by rewrite lookup_app_l.
    - rewrite (lookup_ge_None_2 (nodes lt) j); [|unfold n in Hj; lia].
      destruct (decide (j = n)) as [->|Hjn].
      + rewrite lookup_app_r; [|done]. by rewrite Nat.sub_diag.
      + rewrite lookup_ge_None_2; [done|]. rewrite length_app. simpl. unfold n in *. lia. }
  assert (I (From g v) lt') as
    (Hwf' & Hext' & Hlen' & Hpar' & Htree' & Hclosed' & Hdone' & Hc1' & Hc2' & Hc3').
  { eapply (foldR_inv _ I); [exact Hdfs| |].
    - unfold I. split_and!; [done|apply extends_refl|lia|done| | | | | |].
      + intros i Hi. lia.
      + intros i vi w Hi. lia.
      + intros w Hw. by apply elem_of_nil in Hw.
      + intros j i _. by rewrite Hpred1.
      + intros i vi j w Hi. lia.
      + intros j w Hj. rewrite cnt_nil. apply cnt_not_elem.
        rewrite Hpred1. intros Hin.
        destruct Hwf as (_ & W2 & _). destruct (W2 _ _ Hin) as (vn & _ & Hvn & _).
        apply nodeF_Some_lt in Hvn. unfold n in Hvn. lia.
    - clear Hdfs. intros done w rest s1 s2 Hsplit
        (Hwf_s & Hext_s & Hlen_s & Hpar_s & Htree_s & Hclosed_s & Hdone_s
         & Hc1_s & Hc2_s & Hc3_s) Hedge.
      assert (w ∈ From g v) as Hw by (rewrite Hsplit; set_solver).
      assert (nodeF (nodes s1) n = Some v) as Hnv.
      { by apply Hext_s. }
      unfold dfs_edge in Hedge.
      apply rbind_Ok in Hedge as ([idx s] & Hfirst & Hedge).
      apply rbind_Ok in Hedge as (ltw & Hltw%load_Ok & [= <-]).
      destruct (indexOf s1 !! w) as [idx'|] eqn:Hidx.
      + (* [w] is indexed already *)
        injection Hfirst as <- <-.
        pose proof (wf_index_lt _ _ _ Hwf_s Hidx) as Hidxlt.
        assert (node ltw = w) as Hnodew.
        { pose proof Hwf_s as (W1 & _). apply W1 in Hidx.
          unfold nodeF in Hidx. rewrite Hltw in Hidx. by injection Hidx. }
        rewrite (store_insert _ _ _ _ Hltw).
        destruct (wf_edge s1 idx' ltw n v (parent ltw)) as
          (Hwf2 & Hext2 & Hpar2 & Hparidx2 & Hnode2 & Hlen2 & Hin2 & Hpred2);
          [done|done|done|by rewrite Hnodew|by left|].
        assert (with_pred (pred ltw ++ [n]) (with_parent (parent ltw) ltw)
                = with_pred (pred ltw ++ [n]) ltw) as Heq by (by destruct ltw).
        rewrite Heq in Hwf2, Hext2, Hpar2, Hparidx2, Hnode2, Hlen2, Hin2, Hpred2. clear Heq.
        set (s2 := LT (<[idx':=with_pred (pred ltw ++ [n]) ltw]> (nodes s1)) (indexOf s1)) in *.
        assert (∀ i, parF (nodes s2) i = parF (nodes s1) i) as Hpar2'.
        { intros i. destruct (decide (i = idx')) as [->|]; [|auto].
          rewrite Hparidx2. unfold parF. by rewrite Hltw. }
        unfold I. rewrite Hlen2. split_and!.
        * done.
        * by eapply extends_trans.
        * done.
        * intros i Hi. rewrite Hpar2'. auto.
        * eapply tree_ok_mono; [|done]. intros i p. by rewrite Hpar2'.
        * eapply closed_mono; [done..|].  done.
        * intros w' [Hw'|Hw'%list_elem_of_singleton]%elem_of_app.
          -- destruct (Hdone_s w' Hw') as (j & Hj & Hjn).
             exists j. split; [done|]. by apply Hext2.
          -- subst w'. exists idx'. by split.
        * intros j i Hi. rewrite Hpred2, <-Hc1_s; [|done]. case_decide; [subst j|done].
          rewrite cnt_app, cnt_singleton, decide_False; lia.
        * intros i vi j w' Hi. rewrite !Hnode2. intros Hvi Hw'.
          rewrite Hpred2, <-(Hc2_s i vi j w'); [|done..]. case_decide; [subst j|done].
          rewrite cnt_app, cnt_singleton, decide_False; lia.
        * intros j w'. rewrite Hnode2. intros Hw'.
          rewrite Hpred2, cnt_app, cnt_singleton, <-(Hc3_s j w' Hw').
          case_decide as Hj.
          -- subst j. rewrite cnt_app, cnt_singleton, decide_True; [|done].
             assert (w' = w) as ->; [|by rewrite decide_True].
             unfold nodeF in Hw'. rewrite Hltw in Hw'. simpl in Hw'. congruence.
          -- rewrite decide_False; [lia|]. intros ->. apply Hj.
             pose proof Hwf_s as (W1 & _). apply W1 in Hidx.
             by eapply (wf_inj s1).
      + (* [w] is discovered now *)
        apply rbind_Ok in Hfirst as (sa & Hrec & Hfirst).
        apply rbind_Ok in Hfirst as (m & Hm & Hfirst).
        apply rbind_Ok in Hfirst as (ndm & Hndm%load_Ok & [= <- <-]).
        simpl in Hltw |- *.
        destruct (IH w s1 sa Hwf_s Hidx Hrec) as
          (Hwf_a & Hext_a & Hlen_a & Hpar_a & Hnode_a & Hparm_a & Htree_a & Hclosed_a
           & Hc1_a & Hc2_a).
        unfold check_initialized in Hm.
        destruct (indexOf sa !! w) as [m'|] eqn:Hidxa; [|done].
        injection Hm as ->.
        assert (m = length (nodes s1)) as ->.
        { pose proof Hwf_a as (W1 & _). apply W1 in Hidxa.
          by eapply (wf_inj sa). }
        set (m := length (nodes s1)) in *.
        rewrite (store_insert _ _ _ _ Hndm) in Hltw |- *.
        pose proof (lookup_lt_Some _ _ _ Hndm) as Hmlt.
        rewrite list_lookup_insert_eq in Hltw; [|done].
        injection Hltw as <-.
        rewrite (store_insert _ _ _ (with_parent (Some n) ndm));
          [|by apply list_lookup_insert_eq].
        rewrite list_insert_insert_eq.
        assert (parent ndm = None) as Hparndm.
        { unfold parF in Hparm_a. by rewrite Hndm in Hparm_a. }
        assert (node ndm = w) as Hnodem.
        { unfold nodeF in Hnode_a. rewrite Hndm in Hnode_a. by injection Hnode_a. }
        destruct (wf_edge sa m ndm n v (Some n)) as
          (Hwf2 & Hext2 & Hpar2 & Hparidx2 & Hnode2 & Hlen2 & Hin2 & Hpred2);
          [done|done|by apply Hext_a|by rewrite Hnodem|by right|].
        simpl in Hwf2, Hext2, Hpar2, Hparidx2, Hnode2, Hlen2, Hin2, Hpred2.
        set (s2 := LT (<[m:=with_pred (pred ndm ++ [n]) (with_parent (Some n) ndm)]> (nodes sa)) (indexOf sa)) in *.
        assert (extends s1 s2) as Hext12 by (by eapply extends_trans).
        assert (∀ i p, parF (nodes sa) i = Some p → parF (nodes s2) i = Some p) as Hmono2
          by apply Hext2.
        assert (∀ i p, parF (nodes s1) i = Some p → parF (nodes s2) i = Some p) as Hmono12
          by apply Hext12.
        unfold I. split_and!.
        * done.
        * by eapply extends_trans.
        * simpl. rewrite Hlen2. lia.
        * intros i Hi. simpl. rewrite Hpar2; [|unfold m; lia].
          rewrite Hpar_a; [|lia]. auto.
        * assert (tree_ok (nodes s2) n m) as Hlow.
          { eapply tree_ok_mono; [|done]. done. }
          intros i Hi. simpl in Hi. rewrite Hlen2 in Hi.
          destruct (decide (i < m)) as [|Hge]; [apply Hlow; lia|].
          destruct (decide (i = m)) as [->|Hne].
          -- exists n. split; [done|]. split; [unfold m; lia|].
             intros b Hb. eapply tree_ok_anc; [done|lia].
          -- destruct (Htree_a i) as (p & Hp & Hlt & Hb); [lia|].
             exists p. split; [by apply Hmono2|]. split; [lia|].
             intros b Hbi. eapply anc_mono; [exact Hmono2|]. by apply Hb.
        * intros i vi w' Hi Hvi Hw'. simpl in Hi. rewrite Hlen2 in Hi.
          destruct (decide (i < m)) as [|Hge].
          -- eapply (closed_mono s1 s2 (S n) m); [done|done|done|lia|done..].
          -- eapply (closed_mono sa s2 m (length (nodes sa))); [done|done|done|lia|done..].
        * intros w' [Hw'|Hw'%list_elem_of_singleton]%elem_of_app.
          -- destruct (Hdone_s w' Hw') as (j & Hj & Hjn).
             exists j. split; [|by apply Hext12].
             eapply lookup_weaken; [done|]. apply Hext12.
          -- subst w'. exists m. by split.
        * intros j i Hi. simpl. rewrite Hpred2, <-Hc1_s, <-Hc1_a; [|unfold m; lia|done].
          case_decide; [subst j|done].
          rewrite cnt_app, cnt_singleton, decide_False; lia.
        * intros i vi j w' Hi. simpl in Hi |- *. rewrite Hlen2 in Hi. rewrite !Hnode2.
          intros Hvi Hw'.
          rewrite Hpred2.
          assert (cnt i (if decide (j = m) then predF (nodes sa) m ++ [n]
                         else predF (nodes sa) j) = cnt i (predF (nodes sa) j)) as ->.
          { case_decide; [subst j|done].
            rewrite cnt_app, cnt_singleton, decide_False; lia. }
          destruct (decide (i < m)) as [Him|Him]; [|apply (Hc2_a i vi j w'); [lia|done..]].
          rewrite Hc1_a; [|done].
          assert (nodeF (nodes s1) i = Some vi) as Hvi1.
          { destruct (proj1 (nodeF_lt (nodes s1) i)) as [v0 Hv0]; [unfold m in Him; lia|].
            destruct Hext_a as (_ & Hn & _). pose proof (Hn _ _ Hv0). congruence. }
          destruct (decide (j < m)) as [Hjm|Hjm].
          -- apply (Hc2_s i vi j w'); [unfold m in Him; lia|done|].
             destruct (proj1 (nodeF_lt (nodes s1) j)) as [v0 Hv0]; [unfold m in Hjm; lia|].
             destruct Hext_a as (_ & Hn & _). pose proof (Hn _ _ Hv0). congruence.
          -- unfold predF at 1. rewrite lookup_ge_None_2; [|unfold m in Hjm; lia].
             simpl. rewrite cnt_nil. symmetry. apply cnt_not_elem. intros Hin.
             destruct (Hclosed_s i vi w') as (j' & Hj' & _); [unfold m in Him; lia|done..|].
             pose proof (wf_index_lt _ _ _ Hwf_s Hj') as Hj'lt.
             destruct Hext_a as (Hsub & _).
             pose proof (lookup_weaken _ _ _ _ Hj' Hsub) as Hj'a.
             pose proof Hwf_a as (W1 & _). apply W1 in Hj'a.
             pose proof (wf_inj _ _ _ _ Hwf_a Hj'a Hw'). unfold m in Hjm. lia.
        * intros j w'. simpl. rewrite Hnode2. intros Hw'.
          assert (w ∉ done) as Hwdone.
          { intros Hin. destruct (Hdone_s w Hin) as (j' & Hj' & _). congruence. }
          assert (∀ j0, m ≤ j0 → cnt n (predF (nodes sa) j0) = 0) as Hnew.
          { intros j0 Hj0. rewrite Hc1_a; [|done]. unfold predF.
            rewrite lookup_ge_None_2; [done|unfold m in Hj0; lia]. }
          assert (∀ j0 w0, m ≤ j0 → nodeF (nodes sa) j0 = Some w0 → w0 ∉ done) as Hfresh.
          { intros j0 w0 Hj0 Hw0 Hin. destruct (Hdone_s w0 Hin) as (j' & Hj' & _).
            pose proof (wf_index_lt _ _ _ Hwf_s Hj') as Hj'lt.
            destruct Hext_a as (Hsub & _).
            pose proof (lookup_weaken _ _ _ _ Hj' Hsub) as Hj'a.
            pose proof Hwf_a as (W1 & _). apply W1 in Hj'a.
            pose proof (wf_inj _ _ _ _ Hwf_a Hj'a Hw0). unfold m in Hj0. lia. }
          rewrite Hpred2, cnt_app, cnt_singleton. case_decide as Hj.
          -- subst j. assert (w' = w) as -> by congruence.
             rewrite cnt_app, cnt_singleton, !decide_True; [|done..].
             rewrite Hnew; [|done]. by rewrite (cnt_not_elem w done).
          -- rewrite decide_False; [|intros ->; apply Hj; by eapply (wf_inj sa)].
             rewrite Nat.add_0_r. destruct (decide (j < m)) as [Hjm|Hjm].
             ++ rewrite Hc1_a; [|done]. apply Hc3_s.
                destruct (proj1 (nodeF_lt (nodes s1) j)) as [v0 Hv0]; [unfold m in Hjm; lia|].
                destruct Hext_a as (_ & Hn & _). pose proof (Hn _ _ Hv0). congruence.
             ++ rewrite Hnew; [|lia]. symmetry. apply cnt_not_elem.
                apply (Hfresh j w'); [lia|done]. }
  split_and!.
  - done.
  - by eapply extends_trans.
  - done.
  - intros i Hi. rewrite Hpar'; [|lia]. auto.
  - by apply Hext'.
  - rewrite Hpar'; [|lia]. done.
  - done.
  - intros i vi w Hi Hvi Hw. destruct (decide (i = n)) as [->|Hne].
    + assert (vi = v) as ->.
      { apply Hext' in Hnode1. congruence. }
      destruct (Hdone' w Hw) as (j & Hj & Hjn).
      exists j. split_and!; [done..|].
      intros Hlt. eapply tree_ok_anc; [done|].
      pose proof (wf_index_lt _ _ _ Hwf' Hj). lia.
    + apply (Hclosed' i vi w); [lia|done..].
  - done.
  - intros i vi j w Hi Hvi Hw. destruct (decide (i = n)) as [->|Hne].
    + assert (vi = v) as ->.
      { apply Hext' in Hnode1. congruence. }
      by apply Hc3'.
    + apply (Hc2' i vi j w); [lia|done..].
Qed.

(** *** The search returns *)

Lemma dfs_edge_old rec n s1 w idx ltw :
  indexOf s1 !! w = Some idx → nodes s1 !! idx = Some ltw →
  dfs_edge rec n s1 w
  = Ok (LT (<[idx := with_pred (pred ltw ++ [n]) ltw]> (nodes s1)) (indexOf s1)).
Proof.
  intros Hidx Hltw. unfold dfs_edge. rewrite Hidx. simpl.
  unfold load. rewrite Hltw. simpl. by rewrite (store_insert _ _ _ _ Hltw).
Qed.

Lemma dfs_edge_new rec n s1 w sa m ndm :
  indexOf s1 !! w = None → rec w s1 = Ok sa →
  indexOf sa !! w = Some m → nodes sa !! m = Some ndm →
  dfs_edge rec n s1 w
  = Ok (LT (<[m := with_pred (pred ndm ++ [n]) (with_parent (Some n) ndm)]> (nodes sa))
           (indexOf sa)).
Proof.
  intros Hidx Hrec Hm Hndm. unfold dfs_edge, check_initialized.
  rewrite Hidx, Hrec. simpl. rewrite Hm. simpl.
  pose proof (lookup_lt_Some _ _ _ Hndm).
  unfold load. rewrite Hndm. simpl.
  rewrite (store_insert _ _ _ _ Hndm).
  rewrite list_lookup_insert_eq; [|done]. simpl.
  rewrite (store_insert _ _ _ (with_parent (Some n) ndm));
    [|by apply list_lookup_insert_eq].
  by rewrite list_insert_insert_eq.
Qed.

(** The index only grows, and holds the node a call was made for. *)
Lemma dfs_keys fuel v lt lt' :
  dfs fuel g v lt = Ok lt' →
  v ∈ base.dom (indexOf lt') ∧ base.dom (indexOf lt) ⊆ base.dom (indexOf lt').
Proof.
  revert v lt lt'. induction fuel as [|fuel IH]; intros v lt lt' Hdfs; [done|].
  simpl in Hdfs.
  set (lt1 := LT (nodes lt ++ [new_ltNode v (length (nodes lt))])
                 (<[v:=length (nodes lt)]> (indexOf lt))) in *.
  assert (base.dom (indexOf lt1) ⊆ base.dom (indexOf lt')) as Hsub.
  { eapply (foldR_inv _ (λ _ s, base.dom (indexOf lt1) ⊆ base.dom (indexOf s))); [exact Hdfs|done|].
    intros _ w _ s1 s2 _ Hs1 Hedge. etrans; [exact Hs1|].
    unfold dfs_edge in Hedge.
    apply rbind_Ok in Hedge as ([idx s] & Hfirst & Hedge).
    apply rbind_Ok in Hedge as (ltw & _ & [= <-]). simpl.
    destruct (indexOf s1 !! w).
    - by injection Hfirst as <- <-.
    - apply rbind_Ok in Hfirst as (sa & Hrec & Hfirst).
      apply rbind_Ok in Hfirst as (m & _ & Hfirst).
      apply rbind_Ok in Hfirst as (ndm & _ & [= <- <-]). simpl.
      by apply IH in Hrec as [_ ?]. }
  simpl in Hsub. rewrite dom_insert in Hsub. set_solver.
Qed.

(** The explicit panic of [dfs] is never reached. *)
Lemma dfs_initialized fuel v lt : dfs fuel g v lt ≠ Err UninitializedNode.
Proof.
  revert v lt. induction fuel as [|fuel IH]; intros v lt; [done|].
  simpl. intros (s1 & w & _ & Hedge)%foldR_Err.
  unfold dfs_edge in Hedge.
  destruct (indexOf s1 !! w) as [idx|] eqn:Hidx; simpl in Hedge.
  - unfold load in Hedge. by destruct (_ !! idx).
  - destruct (dfs fuel g w s1) as [sa|e] eqn:Hrec; simpl in Hedge.
    + apply dfs_keys in Hrec as [[m Hm]%elem_of_dom _].
      unfold check_initialized in Hedge. rewrite Hm in Hedge. simpl in Hedge.
      unfold load in Hedge. destruct (nodes sa !! m) eqn:Hndm; simpl in Hedge; [|done].
      rewrite (store_lookup_eq m), Hndm in Hedge. done.
    + injection Hedge as ->. by eapply IH.
Qed.

Lemma universe_closed r a w : w ∈ From g a → w ∈ universe r g.
Proof.
  unfold From. destruct (g !! a) as [ws|] eqn:Ha; simpl; [|by intros ?%elem_of_nil].
  intros Hw. unfold universe. apply elem_of_union. right. apply elem_of_list_to_set.
  apply list_elem_of_join. exists ws. split; [done|].
  apply list_elem_of_fmap. exists (a, ws). split; [done|].
  by apply elem_of_map_to_list.
Qed.

Lemma dfs_total (U : gset Z) fuel v lt :
  (∀ a w, w ∈ From g a → w ∈ U) →
  wf lt → indexOf lt !! v = None → v ∈ U → base.dom (indexOf lt) ⊆ U →
  size (U ∖ base.dom (indexOf lt)) ≤ fuel →
  ∃ lt', dfs fuel g v lt = Ok lt' ∧ base.dom (indexOf lt') ⊆ U.
Proof.
  intros HU. revert v lt.
  induction fuel as [|fuel IH]; intros v lt Hwf Hv HvU Hdom Hsize.
  { assert (v ∈ U ∖ base.dom (indexOf lt)) as Hin.
    { apply elem_of_difference. split; [done|]. by apply not_elem_of_dom. }
    assert (size (U ∖ base.dom (indexOf lt)) ≠ 0); [|lia].
    apply size_non_empty_iff. set_solver. }
  simpl. set (n := length (nodes lt)).
  destruct (wf_alloc lt v Hwf Hv) as (Hwf1 & Hext1 & Hpar1 & Hnode1 & Hparn1).
  fold n in Hwf1, Hext1, Hpar1, Hnode1, Hparn1.
  set (lt1 := LT (nodes lt ++ [new_ltNode v n]) (<[v:=n]> (indexOf lt))) in *.
  assert (size (U ∖ base.dom (indexOf lt1)) ≤ fuel) as Hsize1.
  { assert (U ∖ base.dom (indexOf lt1) ⊂ U ∖ base.dom (indexOf lt)) as Hss.
    { simpl. rewrite dom_insert. apply not_elem_of_dom in Hv. set_solver. }
    apply subset_size in Hss. lia. }
  assert (base.dom (indexOf lt1) ⊆ U) as Hdom1.
  { simpl. rewrite dom_insert. set_solver. }
  destruct (foldR_total (dfs_edge (dfs fuel g) n)
    (λ _ s, wf s ∧ extends lt1 s ∧ base.dom (indexOf s) ⊆ U) (From g v) lt1)
    as (lt' & Hfold & _ & _ & Hdom'); [| |by eauto].
  { split_and!; [done|apply extends_refl|done]. }
  intros done w rest s1 Hsplit (Hwf_s & Hext_s & Hdom_s).
  assert (w ∈ From g v) as Hw by (rewrite Hsplit; set_solver).
  assert (nodeF (nodes s1) n = Some v) as Hnv by (by apply Hext_s).
  destruct (indexOf s1 !! w) as [idx|] eqn:Hidx.
  - destruct (lookup_lt_is_Some_2 (nodes s1) idx) as [ltw Hltw].
    { by eapply wf_index_lt. }
    eexists. split; [by eapply dfs_edge_old|].
    assert (node ltw = w) as Hnodew.
    { pose proof Hwf_s as (W1 & _). apply W1 in Hidx.
      unfold nodeF in Hidx. rewrite Hltw in Hidx. by injection Hidx. }
    destruct (wf_edge s1 idx ltw n v (parent ltw)) as (Hwf2 & Hext2 & _);
      [done|done|done|by rewrite Hnodew|by left|].
    assert (with_pred (pred ltw ++ [n]) (with_parent (parent ltw) ltw)
            = with_pred (pred ltw ++ [n]) ltw) as Heq by (by destruct ltw).
    rewrite Heq in Hwf2, Hext2.
    split_and!; [done|by eapply extends_trans|done].
  - destruct (IH w s1) as (sa & Hrec & Hdom_a); [done|done|by apply HU in Hw|done| |].
    { etrans; [|exact Hsize1]. apply subseteq_size.
      destruct Hext_s as (Hsub & _). apply subseteq_dom in Hsub. set_solver. }
    destruct (dfs_spec _ _ _ _ Hwf_s Hidx Hrec) as
      (Hwf_a & Hext_a & Hlen_a & _ & Hnode_a & Hparm_a & _).
    set (m := length (nodes s1)) in *.
    assert (indexOf sa !! w = Some m) as Hm.
    { pose proof Hwf_a as (W1 & _). by apply W1. }
    destruct (lookup_lt_is_Some_2 (nodes sa) m) as [ndm Hndm]; [done|].
    eexists. split; [by eapply dfs_edge_new|].
    destruct (wf_edge sa m ndm n v (Some n)) as (Hwf2 & Hext2 & _);
      [done|done|by apply Hext_a| |right|].
    { unfold nodeF in Hnode_a. rewrite Hndm in Hnode_a.
      injection Hnode_a as ->. done. }
    { split; [|done]. unfold parF in Hparm_a. by rewrite Hndm in Hparm_a. }
    split_and!; [done| |done].
    eapply extends_trans; [done|]. by eapply extends_trans.
Qed.

(** What the main loop starts from. *)
Definition dfs_done (r : Node) (lt : lengauerTarjan) : Prop :=
  wf lt ∧ nodeF (nodes lt) 0 = Some r ∧ parF (nodes lt) 0 = None ∧
  tree_ok (nodes lt) 0 (length (nodes lt)) ∧
  closed lt 0 (length (nodes lt)) ∧
  (∀ i vi j w, nodeF (nodes lt) i = Some vi → nodeF (nodes lt) j = Some w →
     cnt i (predF (nodes lt) j) = cnt w (From g vi)).

Lemma run_dfs_done r : ∃ lt, run_dfs r g = Ok lt ∧ dfs_done r lt.
Proof.
  unfold run_dfs.
  destruct (dfs_total (universe r g) (dfs_fuel r g) r (LT [] ∅)) as (lt & Hdfs & _).
  - intros a w. apply universe_closed.
  - apply wf_init.
  - done.
  - unfold universe. set_solver.
  - simpl. rewrite dom_empty. set_solver.
  - unfold dfs_fuel. etrans; [apply subseteq_size|]; [|apply Nat.le_succ_diag_r].
    set_solver.
  - exists lt. split; [done|].
    destruct (dfs_spec _ _ _ _ wf_init eq_refl Hdfs) as
      (Hwf & _ & _ & _ & Hnode & Hpar & Htree & Hclosed & _ & Hcnt).
    split_and!; [done..|].
    intros i vi j w Hvi Hw. apply (Hcnt i vi j w); [|done..].
    apply nodeF_Some_lt in Hvi. simpl. lia.
Qed.

(** The search leaves a depth-first spanning tree numbered in preorder. *)
Section done.
Context (r : Node) (lt : lengauerTarjan) (Hdone : dfs_done r lt).
Local Notation h := (nodes lt).
Local Notation N := (length (nodes lt)).

Lemma done_par_lt c p : parF h c = Some p → p < c.
Proof using Hdone.
  destruct Hdone as (_ & _ & Hp0 & Htree & _). intros Hp.
  pose proof (parF_Some_lt _ _ _ Hp) as Hc.
  destruct (decide (c = 0)) as [->|Hne]; [congruence|].
  destruct (Htree c) as (p' & Hp' & Hlt & _); [lia|].
  assert (p = p') as -> by congruence. lia.
Qed.

Lemma done_par_some c : 0 < c < N → is_Some (parF h c).
Proof using Hdone.
  destruct Hdone as (_ & _ & _ & Htree & _). intros Hc.
  destruct (Htree c Hc) as (p & Hp & _). by exists p.
Qed.

Lemma done_par_edge c p : parF h c = Some p → p ∈ predF h c.
Proof using Hdone. destruct Hdone as ((_ & _ & W3 & _) & _). apply W3. Qed.

Lemma done_edge_bound a b : a ∈ predF h b → a < N ∧ b < N.
Proof using Hdone.
  destruct Hdone as ((_ & W2 & _) & _). intros (va & vb & Ha & Hb & _)%W2.
  split; by eapply nodeF_Some_lt.
Qed.

Lemma done_tree_interval c p b :
  parF h c = Some p → p < b < c → anc (parF h) p b.
Proof using Hdone.
  pose proof Hdone as (_ & _ & Hp0 & Htree & _). intros Hp Hb.
  pose proof (parF_Some_lt _ _ _ Hp) as Hc.
  destruct (Htree c) as (p' & Hp' & Hlt & Hint); [lia|].
  assert (p = p') as -> by congruence. by apply Hint.
Qed.

Lemma done_edge_forward a b : a ∈ predF h b → a < b → anc (parF h) a b.
Proof using Hdone.
  pose proof Hdone as (Hwf & _ & _ & _ & Hclosed & _). pose proof Hwf as (W1 & W2 & _).
  intros Hab Hlt. destruct (W2 _ _ Hab) as (va & vb & Ha & Hb & He).
  destruct (Hclosed a va vb) as (j & Hj & _ & Hanc); [|done..|].
  { apply nodeF_Some_lt in Ha. lia. }
  apply W1 in Hj. assert (j = b) as -> by (by eapply wf_inj). by apply Hanc.
Qed.

Lemma done_node_inj i j v : nodeF h i = Some v → nodeF h j = Some v → i = j.
Proof using Hdone. destruct Hdone as (Hwf & _). by apply wf_inj. Qed.

Lemma done_nonempty : 0 < N.
Proof using Hdone. destruct Hdone as (_ & H0 & _). by apply nodeF_Some_lt in H0. Qed.
End done.
End dfs.

(** ** Reading fields after a store *)

Lemma lookup_fields (h : heap) i :
  i < length h →
  ∃ nd, h !! i = Some nd ∧ parent nd = parF h i ∧ pred nd = predF h i ∧
        semi nd = semiF h i ∧ bucket nd = bucketF h i ∧ dom nd = domF h i ∧
        ancestor nd = ancF h i ∧ label nd = labelF h i ∧
        Some (node nd) = nodeF h i.
Proof.
  intros [nd Hnd]%lookup_lt_is_Some. exists nd.
  unfold parF, predF, semiF, bucketF, domF, ancF, labelF, nodeF.
  by rewrite Hnd.
Qed.

Lemma load_fields (h : heap) i :
  i < length h →
  ∃ nd, load h i = Ok nd ∧ parent nd = parF h i ∧ pred nd = predF h i ∧
        semi nd = semiF h i ∧ bucket nd = bucketF h i ∧ dom nd = domF h i ∧
        ancestor nd = ancF h i ∧ label nd = labelF h i ∧
        Some (node nd) = nodeF h i.
Proof.
  intros (nd & Hnd & ?)%lookup_fields. exists nd. split; [|done].
  by apply load_Ok.
Qed.

Section store_fields.
Context (p : nat) (f : ltNode → ltNode) (h : heap) (i : nat).

Lemma parF_store : (∀ n, parent (f n) = parent n) → parF (store p f h) i = parF h i.
Proof. apply field_store_frame. Qed.
Lemma predF_store : (∀ n, pred (f n) = pred n) → predF (store p f h) i = predF h i.
Proof. apply field_store_frame. Qed.
Lemma semiF_store : (∀ n, semi (f n) = semi n) → semiF (store p f h) i = semiF h i.
Proof. apply field_store_frame. Qed.
Lemma bucketF_store : (∀ n, bucket (f n) = bucket n) → bucketF (store p f h) i = bucketF h i.
Proof. apply field_store_frame. Qed.
Lemma domF_store : (∀ n, dom (f n) = dom n) → domF (store p f h) i = domF h i.
Proof. apply field_store_frame. Qed.
Lemma ancF_store : (∀ n, ancestor (f n) = ancestor n) → ancF (store p f h) i = ancF h i.
Proof. apply field_store_frame. Qed.
Lemma labelF_store : (∀ n, label (f n) = label n) → labelF (store p f h) i = labelF h i.
Proof. apply field_store_frame. Qed.
End store_fields.

Lemma semiF_store_semi p x (h : heap) i :
  p < length h →
  semiF (store p (with_semi x) h) i = if decide (p = i) then x else semiF h i.
Proof.
  intros Hp. unfold semiF. case_decide; subst.
  - by apply field_store_eq.
  - by apply field_store_ne.
Qed.

Lemma labelF_store_label p x (h : heap) i :
  p < length h →
  labelF (store p (with_label x) h) i = if decide (p = i) then x else labelF h i.
Proof.
  intros Hp. unfold labelF. case_decide; subst.
  - by apply field_store_eq.
  - by apply field_store_ne.
Qed.

Lemma ancF_store_ancestor p x (h : heap) i :
  p < length h →
  ancF (store p (with_ancestor x) h) i = if decide (p = i) then x else ancF h i.
Proof.
  intros Hp. unfold ancF. case_decide; subst.
  - by apply field_store_eq.
  - by apply field_store_ne.
Qed.

Lemma domF_store_dom p x (h : heap) i :
  p < length h →
  domF (store p (with_dom x) h) i = if decide (p = i) then x else domF h i.
Proof.
  intros Hp. unfold domF. case_decide; subst.
  - by apply field_store_eq.
  - by apply field_store_ne.
Qed.

Lemma bucketF_store_bucket p x (h : heap) i :
  p < length h →
  bucketF (store p (with_bucket x) h) i = if decide (p = i) then x else bucketF h i.
Proof.
  intros Hp. unfold bucketF. case_decide; subst.
  - by apply field_store_eq.
  - by apply field_store_ne.
Qed.

Create HintDb heap.
#[export] Hint Rewrite store_length : heap.
#[export] Hint Rewrite parF_store predF_store semiF_store bucketF_store domF_store
  ancF_store labelF_store nodeF_store using done : heap.
#[export] Hint Rewrite semiF_store_semi labelF_store_label ancF_store_ancestor
  domF_store_dom bucketF_store_bucket using (rewrite ?store_length; lia) : heap.

Ltac heap_simpl := autorewrite with heap in *.

Lemma deref_Some (h : heap) q n : h !! q = Some n → deref h (Some q) = Ok (q, n).
Proof. intros. by apply deref_Ok. Qed.

(** ** Iteration order *)

Lemma pick_order_perm cs (l : list nat) : pick_order (length l) cs l ≡ₚ l.
Proof.
  remember (length l) as n eqn:Hn. revert cs l Hn.
  induction n as [|n IH]; intros cs l Hn; simpl.
  - by destruct l.
  - assert (hd 0 cs `mod` length l < length l) as Hlt.
    { apply Nat.mod_upper_bound. lia. }
    destruct (lookup_lt_is_Some_2 l _ Hlt) as [k Hk]. rewrite Hk.
    etrans; [|symmetry; apply (delete_Permutation l _ k Hk)]. constructor.
    apply IH. pose proof (length_delete l _ ltac:(eauto)). lia.
Qed.

Lemma range_keys_perm cs (m : gset nat) : range_keys cs m ≡ₚ elements m.
Proof. unfold range_keys. apply pick_order_perm. Qed.

Lemma elem_of_range_keys cs (m : gset nat) v : v ∈ range_keys cs m ↔ v ∈ m.
Proof. rewrite range_keys_perm. apply elem_of_elements. Qed.

Lemma NoDup_range_keys cs (m : gset nat) : NoDup (range_keys cs m).
Proof. rewrite range_keys_perm. apply NoDup_elements. Qed.

Lemma seq_split_at a n (done : list nat) x rest :
  seq a n = done ++ x :: rest →
  x = a + length done ∧ x < a + n ∧ (∀ v, v ∈ done ↔ a ≤ v < x).
Proof.
  intros Heq.
  assert (seq a n !! length done = Some x) as Hx.
  { rewrite Heq. by rewrite list_lookup_middle. }
  apply lookup_seq in Hx as [-> Hlt]. split; [done|]. split; [lia|].
  assert (done = seq a (length done)) as Hd.
  { apply (f_equal (take (length done))) in Heq.
    rewrite take_app_length, take_seq in Heq.
    rewrite Nat.min_l in Heq by lia. done. }
  intros v. rewrite Hd at 1. rewrite elem_of_seq. lia.
Qed.

(** ** The compression forest *)

(** The heaps of steps 2 to 4 share the tree, the predecessor lists and the
    nodes left by the search. *)
Definition same_static (h h' : heap) : Prop :=
  length h' = length h ∧
  ∀ i, parF h' i = parF h i ∧ predF h' i = predF h i ∧ nodeF h' i = nodeF h i.

(** What [eval] and [compress] leave alone. *)
Definition eval_frame (h h' : heap) : Prop :=
  same_static h h' ∧
  ∀ i, semiF h' i = semiF h i ∧ domF h' i = domF h i ∧ bucketF h' i = bucketF h i.

Lemma same_static_refl h : same_static h h.
Proof. by split. Qed.

Lemma same_static_trans h1 h2 h3 :
  same_static h1 h2 → same_static h2 h3 → same_static h1 h3.
Proof.
  intros [L1 H1] [L2 H2]. split; [congruence|]. intros i.
  destruct (H1 i) as (? & ? & ?), (H2 i) as (? & ? & ?).
  split_and!; congruence.
Qed.

Lemma eval_frame_refl h : eval_frame h h.
Proof. split; [apply same_static_refl|done]. Qed.

Lemma eval_frame_trans h1 h2 h3 :
  eval_frame h1 h2 → eval_frame h2 h3 → eval_frame h1 h3.
Proof.
  intros [S1 H1] [S2 H2]. split; [by eapply same_static_trans|]. intros i.
  destruct (H1 i) as (? & ? & ?), (H2 i) as (? & ? & ?).
  split_and!; congruence.
Qed.

Section loop.
Context (N : nat) (par : nat → option nat) (prd : nat → list nat).
Context (nds : nat → option Z).
Let edge : nat → nat → Prop := λ a b, a ∈ prd b.
Context (par_lt : ∀ c p, par c = Some p → p < c).
Context (par_some : ∀ c, 0 < c < N → is_Some (par c)).
Context (par_edge : ∀ c p, par c = Some p → edge p c).
Context (edge_bound : ∀ a b, edge a b → a < N ∧ b < N).
Context (tree_interval : ∀ c p b, par c = Some p → p < b < c → anc par p b).
Context (edge_forward : ∀ a b, edge a b → a < b → anc par a b).

Set Default Proof Using "All".

Local Notation "a ⪯ b" := (anc par a b) (at level 70).
Local Abbreviation th l :=
  (l N par edge par_lt par_some par_edge edge_bound tree_interval edge_forward)
  (only parsing).

(** [x] lies on the tree path from below [a] down to [v]. *)
Definition between (a x v : nat) : Prop := a ⪯ x ∧ a ≠ x ∧ x ⪯ v.

Definition shape (h : heap) : Prop :=
  length h = N ∧ (∀ i, parF h i = par i) ∧ (∀ i, predF h i = prd i) ∧
  (∀ i, nodeF h i = nds i).

(** The vertices from [k] on are linked.  A linked vertex points to a
    proper tree ancestor, the vertices in between are linked, and its
    label has the least [semi] among them. *)
Definition linked_ok (k : nat) (h : heap) (v : nat) : Prop :=
  ∃ a, ancF h v = Some a ∧ between a v v ∧
    (∀ x, between a x v → k ≤ x) ∧
    between a (labelF h v) v ∧
    (∀ x, between a x v → semiF h (labelF h v) ≤ semiF h x).

Definition forest (k : nat) (h : heap) : Prop :=
  (∀ v, v < k → v < N → ancF h v = None ∧ labelF h v = v) ∧
  (∀ v, k ≤ v < N → linked_ok k h v).

Lemma between_lt a x v : between a x v → a < x ∧ x ≤ v.
Proof.
  intros (H1 & H2 & H3). apply (anc_le _ par_lt) in H1, H3. lia.
Qed.

Lemma between_split a b x v :
  between a b v → between a x v → between a x b ∨ between b x v.
Proof.
  intros (Hab & Hne & Hbv) (Hax & Hnx & Hxv).
  destruct (anc_linear _ par_lt x b v Hxv Hbv) as [Hxb|Hbx].
  - left. by split_and!.
  - destruct (decide (b = x)) as [->|]; [left|right]; by split_and!.
Qed.

Lemma between_weaken_l a b x v : a ⪯ b → between b x v → between a x v.
Proof.
  intros Hab (Hbx & Hne & Hxv). split_and!; [by eapply anc_trans| |done].
  apply (anc_le _ par_lt) in Hab, Hbx. lia.
Qed.

Lemma between_weaken_r a b x v : b ⪯ v → between a x b → between a x v.
Proof. intros Hbv (Hax & Hne & Hxb). split_and!; [done..|by eapply anc_trans]. Qed.

Lemma shape_static h h' : same_static h h' → shape h → shape h'.
Proof.
  intros [HL HS] (HN & Hp & Hq & Hn). split_and!; [congruence|intros i..].
  - destruct (HS i) as (-> & _). apply Hp.
  - destruct (HS i) as (_ & -> & _). apply Hq.
  - destruct (HS i) as (_ & _ & ->). apply Hn.
Qed.

Lemma linked_ok_congr k h h' v :
  ancF h' v = ancF h v → labelF h' v = labelF h v →
  (∀ x, k ≤ x → semiF h' x = semiF h x) →
  linked_ok k h v → linked_ok k h' v.
Proof.
  intros Ha Hl Hs (a & Hanc & Hav & Hk & Hlab & Hmin).
  exists a. rewrite Ha, Hl. split_and!; [done..|].
  intros x Hx. rewrite !Hs; [by apply Hmin|by apply Hk..].
Qed.

Lemma forest_unlinked k h a : forest k h → a < N → ancF h a = None → a < k.
Proof.
  intros [_ Hli] Ha Hanc. destruct (decide (a < k)) as [|Hge]; [done|].
  destruct (Hli a) as (a' & Ha' & _); [lia|congruence].
Qed.

Lemma forest_linked k h a a' : forest k h → a < N → ancF h a = Some a' → k ≤ a.
Proof.
  intros [Hun _] Ha Hanc. destruct (decide (k ≤ a)) as [|Hlt]; [done|].
  destruct (Hun a) as [Hn _]; [lia|done|congruence].
Qed.

(** COMPRESS makes [v] point to the root of its tree in the forest. *)
Lemma compress_spec fuel k h v :
  shape h → forest k h → k ≤ v < N → v < fuel →
  ∃ h', compress fuel v h = Ok h' ∧ eval_frame h h' ∧ forest k h' ∧
    (∀ i, v < i → ancF h' i = ancF h i ∧ labelF h' i = labelF h i) ∧
    ∃ r, ancF h' v = Some r ∧ r < k.
Proof.
  revert v h. induction fuel as [|fuel IH]; intros v h Hsh Hfo Hv Hfu; [lia|].
  pose proof Hsh as (HN & _).
  pose proof Hfo as [Hun Hli].
  destruct (Hli v Hv) as (a & Ha & Hbav & Hk & Hlab & Hmin).
  pose proof (between_lt _ _ _ Hbav) as [Hav _].
  destruct (load_fields h v) as (nv & Hnv & _ & _ & _ & _ & _ & Hnva & Hnvl & _); [lia|].
  destruct (lookup_fields h a) as (na & Hna & _ & _ & _ & _ & _ & Hnaa & Hnal & _); [lia|].
  simpl. rewrite Hnv. simpl. rewrite Hnva, Ha, (deref_Some _ _ _ Hna). simpl.
  rewrite Hnaa. destruct (ancF h a) as [a2|] eqn:Haa.
  2:{ exists h. split_and!; [done|apply eval_frame_refl|done|done|].
      exists a. split; [done|]. eapply forest_unlinked; [done|lia|done]. }
  assert (k ≤ a) as Hka by (eapply forest_linked; [done|lia|done]).
  destruct (IH a h) as (h1 & -> & Hfr1 & Hfo1 & Habove1 & r & Hr & Hrk);
    [done|done|lia|lia|].
  simpl. pose proof Hfr1 as [[HL1 Hst1] Hdyn1].
  assert (shape h1) as Hsh1 by (eapply shape_static; [apply Hfr1|done]).
  destruct (Habove1 v) as [Hancv1 Hlabv1]; [lia|].
  pose proof Hfo1 as [Hun1 Hli1].
  destruct (Hli1 a) as (r' & Hr' & Hbra & Hk1 & Hlab1 & Hmin1); [lia|].
  assert (r' = r) as -> by congruence.
  pose proof (between_lt _ _ _ Hlab1) as [_ Hlale].
  pose proof (between_lt _ _ _ Hlab) as [_ Hlvle].
  destruct (load_fields h1 v) as (nv1 & Hnv1 & _ & _ & _ & _ & _ & Hnv1a & Hnv1l & _); [lia|].
  destruct (lookup_fields h1 a) as (na1 & Hna1 & _ & _ & _ & _ & _ & Hna1a & Hna1l & _); [lia|].
  destruct (load_fields h1 (labelF h1 a)) as (la & Hla & _ & _ & Hlas & _); [lia|].
  destruct (load_fields h1 (labelF h1 v)) as (lv & Hlv & _ & _ & Hlvs & _);
    [rewrite Hlabv1; lia|].
  rewrite Hnv1. simpl. rewrite Hnv1a, Hancv1, Ha, (deref_Some _ _ _ Hna1). simpl.
  rewrite Hna1l, Hla. simpl. rewrite Hnv1l, Hlv. simpl.
  rewrite Hlas, Hlvs.
  set (h2 := if decide (semiF h1 (labelF h1 a) < semiF h1 (labelF h1 v))
             then store v (with_label (labelF h1 a)) h1 else h1).
  assert (length h2 = N) as HL2.
  { unfold h2. case_decide; rewrite ?store_length; lia. }
  assert (∀ i, ancF h2 i = ancF h1 i) as Hanc2.
  { intros i. unfold h2. case_decide; [|done]. by rewrite ancF_store. }
  assert (∀ i, i ≠ v → labelF h2 i = labelF h1 i) as Hlab2.
  { intros i Hi. unfold h2. case_decide; [|done].
    rewrite labelF_store_label; [|lia]. by case_decide. }
  assert (eval_frame h1 h2) as Hfr2.
  { unfold h2. case_decide; [|apply eval_frame_refl].
    split; [split|]; [by rewrite store_length|intros i..];
      split_and!; by autorewrite with heap. }
  destruct (load_fields h2 v) as (nv2 & Hnv2 & _ & _ & _ & _ & _ & Hnv2a & _); [lia|].
  destruct (lookup_fields h2 a) as (na2 & Hna2 & _ & _ & _ & _ & _ & Hna2a & _); [lia|].
  rewrite Hnv2. simpl. rewrite Hnv2a, Hanc2, Hancv1, Ha, (deref_Some _ _ _ Hna2). simpl.
  rewrite Hna2a, Hanc2, Hr.
  set (h' := store v (with_ancestor (Some r)) h2).
  assert (eval_frame h2 h') as Hfr'.
  { split; [split|]; [by unfold h'; rewrite store_length|intros i..];
      split_and!; unfold h'; by autorewrite with heap. }
  assert (eval_frame h h') as Hfr.
  { eapply eval_frame_trans; [done|]. by eapply eval_frame_trans. }
  assert (∀ i, i ≠ v → ancF h' i = ancF h1 i) as Hanc'.
  { intros i Hi. unfold h'. rewrite ancF_store_ancestor; [|lia].
    case_decide; [done|apply Hanc2]. }
  assert (ancF h' v = Some r) as Hancv'.
  { unfold h'. rewrite ancF_store_ancestor; [|lia]. by case_decide. }
  assert (∀ i, labelF h' i = labelF h2 i) as Hlab'.
  { intros i. unfold h'. by rewrite labelF_store. }
  assert (∀ x, semiF h' x = semiF h1 x) as Hsemi'.
  { intros x. destruct Hfr' as [_ Hd']. destruct Hfr2 as [_ Hd2].
    destruct (Hd' x) as (-> & _). by destruct (Hd2 x) as (-> & _). }
  assert (∀ x, semiF h1 x = semiF h x) as Hsemi1.
  { intros x. by destruct (Hdyn1 x) as (-> & _). }
  exists h'. split_and!; [done|done| | |by exists r].
  - split.
    + intros u Hu HuN. destruct (Hun1 u Hu HuN) as [Hn Hl].
      rewrite Hanc', Hlab', Hlab2; [done|lia..].
    + intros u Hu. destruct (decide (u = v)) as [->|Hne].
      * (* the compressed vertex *)
        assert (r ⪯ a) as Hra by apply Hbra.
        assert (between r v v) as Hbrv.
        { eapply between_weaken_l; [exact Hra|done]. }
        assert (∀ x, between r x v →
                  between r x a ∨ between a x v) as Hsplit.
        { intros x Hx. apply (between_split r a x v); [|done].
          split_and!; [done| |apply Hbav]. lia. }
        exists r. split; [done|]. split; [done|]. split.
        { intros x [Hx|Hx]%Hsplit; [by apply Hk1|by apply Hk]. }
        rewrite Hlab'. unfold h2. case_decide as Hcmp.
        -- rewrite labelF_store_label; [|lia]. rewrite decide_True; [|done].
           split.
           ++ apply (between_weaken_r r a); [apply Hbav|done].
           ++ intros x Hx. rewrite !Hsemi'.
              apply Hsplit in Hx as [Hx|Hx]; [by apply Hmin1|].
              apply Hmin in Hx. rewrite <-Hlabv1, <-!Hsemi1 in Hx. lia.
        -- rewrite Hlabv1. split.
           ++ apply (between_weaken_l r a); [exact Hra|done].
           ++ intros x Hx. rewrite !Hsemi'.
              apply Hsplit in Hx as [Hx|Hx].
              ** apply Hmin1 in Hx. rewrite Hlabv1 in Hcmp. lia.
              ** apply Hmin in Hx. by rewrite <-!Hsemi1 in Hx.
      * eapply linked_ok_congr; [ | | |by apply Hli1].
        -- by apply Hanc'.
        -- rewrite Hlab'. by apply Hlab2.
        -- intros x _. apply Hsemi'.
  - intros i Hi. destruct (Habove1 i) as [<- <-]; [lia|].
    rewrite Hanc', Hlab', Hlab2; [done|lia..].
Qed.

(** EVAL: an unlinked vertex is its own answer; for a linked one the
    answer has the least [semi] on the tree path from below the root [r]
    of its tree in the forest. *)
Lemma eval_spec k h v :
  shape h → forest k h → v < N →
  ∃ u h', eval N v h = Ok (u, h') ∧ eval_frame h h' ∧ forest k h' ∧
    ((v < k ∧ u = v ∧ h' = h) ∨
     (k ≤ v ∧ ∃ r, r < k ∧ between r u v ∧
        ∀ x, between r x v → k ≤ x ∧ semiF h u ≤ semiF h x)).
Proof.
  intros Hsh Hfo Hv. pose proof Hsh as (HN & _).
  destruct (load_fields h v) as (nv & Hnv & _ & _ & _ & _ & _ & Hnva & _); [lia|].
  unfold eval. rewrite Hnv. simpl. rewrite Hnva.
  destruct (ancF h v) as [a|] eqn:Ha.
  - assert (k ≤ v) as Hkv by (by eapply forest_linked).
    destruct (compress_spec N k h v) as (h' & -> & Hfr & Hfo' & _ & r & Hr & Hrk);
      [done|done|lia|lia|].
    simpl. pose proof Hfr as [[HL _] Hdyn].
    destruct (load_fields h' v) as (nv' & -> & _ & _ & _ & _ & _ & _ & Hnvl' & _); [lia|].
    simpl. rewrite Hnvl'. eexists _, _. split; [done|]. split; [done|]. split; [done|].
    right. split; [done|]. exists r. split; [done|].
    destruct Hfo' as [_ Hli']. destruct (Hli' v) as (r' & Hr' & _ & Hk & Hlab & Hmin); [lia|].
    assert (r' = r) as -> by congruence.
    split; [done|]. intros x Hx. split; [by apply Hk|].
    specialize (Hmin x Hx).
    destruct (Hdyn (labelF h' v)) as (<- & _). by destruct (Hdyn x) as (<- & _).
  - exists v, h. split; [done|]. split; [apply eval_frame_refl|]. split; [done|].
    left. split; [|done]. by eapply forest_unlinked.
Qed.

(** *** The invariant of the main loop *)

Definition sdom_ok (h : heap) (v : nat) : Prop := is_sdom edge v (semiF h v).

(** [c] is the child of [s] on the tree path to [v]. *)
Definition child_of (s c v : nat) : Prop := par c = Some s ∧ c ⪯ v.

(** What step 3 leaves in [dom]: with [u] of least [semi] on the tree path
    from below the semidominator of [v] to [v], the semidominator when
    [u]'s is no smaller, and [u] otherwise. *)
Definition domspec (h : heap) (v : nat) : Prop :=
  ∃ u, between (semiF h v) u v ∧
    (∀ x, between (semiF h v) x v → semiF h u ≤ semiF h x) ∧
    domF h v = Some (if decide (semiF h u < semiF h v) then u else semiF h v).

(** Before the round of [k - 1]: the vertices from [k] on are linked and
    hold their semidominators; a bucket holds the vertices whose
    semidominator's child towards them is yet to be linked; the others have
    [dom] set. *)
Definition inv (k : nat) (h : heap) : Prop :=
  shape h ∧ forest k h ∧
  (∀ v, v < k → v < N → semiF h v = v) ∧
  (∀ v, k ≤ v < N → sdom_ok h v) ∧
  (∀ x v, v ∈ bucketF h x ↔
     k ≤ v < N ∧ semiF h v = x ∧ ∃ c, child_of x c v ∧ c < k) ∧
  (∀ v c, k ≤ v < N → child_of (semiF h v) c v → k ≤ c → domspec h v).

Lemma child_toward a v : a ⪯ v → a ≠ v → ∃ c, child_of a c v.
Proof.
  induction 1 as [|p c Hp Ha IH]; intros Hne; [done|].
  destruct (decide (a = p)) as [->|Hap].
  - exists c. split; [done|apply anc_refl].
  - destruct (IH Hap) as (c' & Hc' & Hc'p). exists c'. split; [done|].
    by eapply anc_step.
Qed.

Lemma child_between s c x v : child_of s c v → between s x v → c ⪯ x.
Proof.
  intros [Hc Hcv] (Hsx & Hne & Hxv).
  destruct (anc_linear _ par_lt c x v Hcv Hxv) as [|Hxc]; [done|].
  destruct (decide (x = c)) as [->|Hxne]; [apply anc_refl|].
  pose proof (anc_proper _ _ _ _ Hxc Hxne Hc) as Hxs.
  by destruct Hne; apply (anc_antisym _ par_lt).
Qed.

Lemma child_unique s c c' v : child_of s c v → child_of s c' v → c = c'.
Proof.
  intros [Hc Hcv] [Hc' Hcv'].
  assert (between s c v) as Hb.
  { split_and!; [by apply anc_parent| |done]. apply par_lt in Hc. lia. }
  assert (between s c' v) as Hb'.
  { split_and!; [by apply anc_parent| |done]. apply par_lt in Hc'. lia. }
  apply (anc_antisym _ par_lt).
  - by apply (child_between s c c' v).
  - by apply (child_between s c' c v).
Qed.

(** A child of [s] numbered up to [w] on the way to a vertex from [w] on is
    [w] itself when [w] is a child of [s]. *)
Lemma child_is w p c v :
  par w = Some p → child_of p c v → c ≤ w → w ≤ v → c = w.
Proof.
  intros Hw [Hc Hcv] Hcw Hwv.
  assert (c ⪯ w) as Hanc.
  { apply (th anc_interval c w v); [done|lia]. }
  destruct (decide (c = w)) as [|Hne]; [done|].
  pose proof (anc_proper _ _ _ _ Hanc Hne Hw) as Hcp.
  apply (anc_le _ par_lt) in Hcp. apply par_lt in Hc. lia.
Qed.

Lemma domspec_congr h h' v c :
  child_of (semiF h v) c v →
  (∀ x, c ≤ x → semiF h' x = semiF h x) →
  domF h' v = domF h v →
  domspec h v → domspec h' v.
Proof.
  intros Hc Hs Hd (u & Hu & Hmin & Hdom).
  assert (c ≤ v) as Hcv by (apply (anc_le _ par_lt), Hc).
  assert (∀ x, between (semiF h v) x v → semiF h' x = semiF h x) as Hs'.
  { intros x Hx. apply Hs. by apply (anc_le _ par_lt), (child_between _ _ _ _ Hc Hx). }
  exists u. rewrite Hd, (Hs v Hcv), (Hs' u Hu). split; [done|]. split; [|done].
  intros x Hx. rewrite (Hs' x Hx). by apply Hmin.
Qed.

Lemma sdom_bound h v : 0 < v < N → sdom_ok h v → semiF h v < v ∧ between (semiF h v) v v.
Proof.
  intros Hv Hs.
  destruct (th sdom_anc v _ Hv Hs) as [Ha Hne].
  pose proof (anc_le _ par_lt _ _ Ha). split; [lia|]. split_and!; [done..|apply anc_refl].
Qed.

Lemma forest_congr k h h' :
  (∀ i, ancF h' i = ancF h i ∧ labelF h' i = labelF h i) →
  (∀ x, k ≤ x → semiF h' x = semiF h x) →
  forest k h → forest k h'.
Proof.
  intros Hal Hs [Hun Hli]. split.
  - intros v Hv HvN. destruct (Hal v) as [-> ->]. by apply Hun.
  - intros v Hv. destruct (Hal v) as [Ha Hl].
    eapply linked_ok_congr; [done..|by apply Hli].
Qed.

(** *** Step 2 *)

Lemma step2_spec w h :
  inv (S w) h → 0 < w < N →
  ∃ h', foldR (step2_pred N w) h (prd w) = Ok h' ∧
    same_static h h' ∧ forest (S w) h' ∧
    (∀ x, x ≠ w → semiF h' x = semiF h x) ∧
    (∀ x, domF h' x = domF h x ∧ bucketF h' x = bucketF h x) ∧
    sdom_ok h' w.
Proof.
  intros (Hsh & Hfo & Hsemi & Hsd & _ & _) Hw.
  pose proof Hsh as (HN & _).
  pose (J := λ (done : list nat) (s : heap),
    same_static h s ∧ forest (S w) s ∧
    (∀ x, x ≠ w → semiF s x = semiF h x) ∧
    (∀ x, domF s x = domF h x ∧ bucketF s x = bucketF h x) ∧
    semiF s w ≤ w ∧ (semiF s w = w ∨ cand edge w (semiF s w)) ∧
    (∀ v, v ∈ done →
       (v ≤ w → semiF s w ≤ v) ∧
       (∀ y, y ⪯ v → w < y → semiF s w ≤ semiF h y))).
  destruct (foldR_total (step2_pred N w) J (prd w) h)
    as (h' & Hfold & Hst' & Hfo' & Hsemi' & Hdb' & Hle' & Hcand' & Hdone').
  { unfold J. split_and!; [apply same_static_refl|done|done|done| | |].
    - rewrite Hsemi; lia.
    - left. apply Hsemi; lia.
    - intros v Hv. by apply elem_of_nil in Hv. }
  { intros done v rest s Hsplit (Hst & Hfos & Hsemis & Hdbs & Hle & Hcand & Hdone).
    assert (edge v w) as He by (unfold edge; rewrite Hsplit; set_solver).
    destruct (edge_bound _ _ He) as [HvN _].
    assert (shape s) as Hshs by (by eapply shape_static).
    pose proof Hshs as (HNs & _).
    destruct (eval_spec (S w) s v Hshs Hfos HvN) as (u & s' & Hev & Hfr & Hfo' & Hcase).
    pose proof Hfr as [[HL' Hst'] Hdyn'].
    assert (u < N) as HuN.
    { destruct Hcase as [(_ & -> & _)|(_ & r & _ & Hb%between_lt & _)]; lia. }
    destruct (load_fields s' u) as (nu & Hnu & _ & _ & Hnus & _); [lia|].
    destruct (load_fields s' w) as (nw & Hnw & _ & _ & Hnws & _); [lia|].
    unfold step2_pred. rewrite Hev. simpl. rewrite Hnu. simpl. rewrite Hnw. simpl.
    rewrite Hnus, Hnws.
    destruct (Hdyn' u) as (Hsu & _). destruct (Hdyn' w) as (Hsw & _).
    rewrite Hsu, Hsw.
    eexists. split; [done|].
    set (s2 := if decide (semiF s u < semiF s w)
               then store w (with_semi (semiF s u)) s' else s').
    assert (same_static s' s2) as Hst2.
    { unfold s2. case_decide; [|apply same_static_refl].
      split; [by rewrite store_length|]. intros i. by autorewrite with heap. }
    assert (∀ i, ancF s2 i = ancF s' i ∧ labelF s2 i = labelF s' i) as Hal2.
    { intros i. unfold s2. case_decide; [|done]. by autorewrite with heap. }
    assert (∀ x, domF s2 x = domF s' x ∧ bucketF s2 x = bucketF s' x) as Hdb2.
    { intros i. unfold s2. case_decide; [|done]. by autorewrite with heap. }
    assert (∀ x, x ≠ w → semiF s2 x = semiF s' x) as Hsemi2.
    { intros x Hx. unfold s2. case_decide; [|done].
      rewrite semiF_store_semi; [|lia]. by case_decide. }
    assert (semiF s2 w = semiF s u `min` semiF s w) as Hsemiw2.
    { unfold s2. case_decide.
      - rewrite semiF_store_semi; [|lia]. rewrite decide_True; [lia|done].
      - rewrite Hsw. lia. }
    (* what [eval] returned *)
    assert ((v ≤ w → semiF s u ≤ v) ∧
            (∀ y, y ⪯ v → w < y → semiF s u ≤ semiF h y) ∧
            (semiF s u < semiF s w → cand edge w (semiF s u))) as (Hu1 & Hu2 & Hu3).
    { destruct Hcase as [(Hvk & -> & _)|(Hvk & r & Hrk & Hbu & Hmin)].
      - split_and!.
        + intros _. destruct (decide (v = w)) as [->|Hne]; [done|].
          rewrite Hsemis, Hsemi; [lia|lia..|done].
        + intros y Hy%(anc_le _ par_lt) ?. lia.
        + intros Hlt. assert (v ≠ w) as Hne by (intros ->; lia).
          rewrite Hsemis, Hsemi; [|lia..|done]. by apply (th cand_edge).
      - pose proof (between_lt _ _ _ Hbu) as [Hru Huv].
        destruct (Hmin u Hbu) as [Hku _].
        split_and!.
        + lia.
        + intros y Hy Hwy.
          assert (between r y v) as Hby.
          { split_and!; [|lia|done].
            apply (anc_chain _ par_lt r y v); [|done|lia].
            eapply anc_trans; apply Hbu. }
          destruct (Hmin y Hby) as [_ Hle']. rewrite <-(Hsemis y); [done|lia].
        + intros _. rewrite Hsemis; [|lia].
          apply (th cand_via w v u); [done|apply Hbu|lia|].
          apply Hsd. lia. }
    unfold J. split_and!.
    - eapply same_static_trans; [done|]. by eapply same_static_trans.
    - eapply forest_congr; [apply Hal2| |done].
      intros x Hx. apply Hsemi2. lia.
    - intros x Hx. rewrite Hsemi2; [|done]. destruct (Hdyn' x) as (-> & _). by apply Hsemis.
    - intros x. destruct (Hdb2 x) as [-> ->]. destruct (Hdyn' x) as (_ & -> & ->). apply Hdbs.
    - lia.
    - rewrite Hsemiw2. destruct (decide (semiF s u < semiF s w)) as [Hlt|Hge].
      + right. rewrite Nat.min_l; [|lia]. by apply Hu3.
      + rewrite Nat.min_r; [|lia]. done.
    - intros v' [Hv'|Hv'%list_elem_of_singleton]%elem_of_app.
      + destruct (Hdone v' Hv') as [H1 H2]. split.
        * intros Hle1. specialize (H1 Hle1). lia.
        * intros y Hy Hwy. specialize (H2 y Hy Hwy). lia.
      + subst v'. split.
        * intros Hle1. specialize (Hu1 Hle1). lia.
        * intros y Hy Hwy. specialize (Hu2 y Hy Hwy). lia. }
  exists h'. split_and!; [done..|].
  destruct (par_some w Hw) as [p Hp].
  pose proof (par_lt _ _ Hp) as Hpw.
  destruct (Hdone' p (par_edge _ _ Hp)) as [Hp1 _].
  split.
  - destruct Hcand' as [Heq|Hc]; [|done]. specialize (Hp1 ltac:(lia)). lia.
  - intros x Hx.
    destruct (th cand_inv w x Hx) as (v & He & Hv).
    destruct (Hdone' v He) as [Hv1 Hv2].
    destruct (edge_bound _ _ He) as [HvN _].
    destruct Hv as [->|(y & Hy & Hwy & Hcy)].
    + destruct (decide (v ≤ w)) as [Hle|Hgt]; [by apply Hv1|].
      etrans; [apply (Hv2 v); [apply anc_refl|lia]|].
      assert (sdom_ok h v) as Hsv by (apply Hsd; lia).
      apply (th sdom_lt) in Hsv; lia.
    + etrans; [by apply (Hv2 y)|].
      pose proof (anc_le _ par_lt _ _ Hy).
      by apply (Hsd y); [lia|].
Qed.

(** *** Step 3 *)

(** While the bucket of [p], the parent of [w], is emptied; [rem] are the
    vertices still to come. *)
Definition mid (w p : nat) (h : heap) (rem : list nat) : Prop :=
  shape h ∧ forest w h ∧
  (∀ v, v < w → semiF h v = v) ∧
  (∀ v, w ≤ v < N → sdom_ok h v) ∧
  (∀ x v, x ≠ p →
     v ∈ bucketF h x ↔ w ≤ v < N ∧ semiF h v = x ∧ ∃ c, child_of x c v ∧ c < w) ∧
  (∀ v, v ∈ bucketF h p ↔ v ∈ rem) ∧
  (∀ v, v ∈ rem → w ≤ v < N ∧ semiF h v = p ∧ w ⪯ v) ∧
  NoDup rem ∧
  (∀ v c, w ≤ v < N → child_of (semiF h v) c v → w ≤ c → v ∉ rem → domspec h v).

Lemma step3_spec w p h v rem :
  par w = Some p → 0 < w < N → mid w p h (v :: rem) →
  ∃ h', step3_bucket N w h v = Ok h' ∧ mid w p h' rem.
Proof.
  intros Hp Hw (Hsh & Hfo & Hsemi & Hsd & Hbx & Hbp & Hrem & Hnd & Hdom).
  pose proof Hsh as (HN & Hpar & Hprd & _).
  pose proof (par_lt _ _ Hp) as Hpw.
  destruct (Hrem v) as (Hv & Hsv & Hwv); [set_solver|].
  destruct (load_fields h w) as (nw & Hnw & Hnwp & _); [lia|].
  destruct (lookup_fields h p) as (np & Hnp & _ & _ & _ & Hnpb & _); [lia|].
  unfold step3_bucket. rewrite Hnw. simpl.
  rewrite Hnwp, Hpar, Hp, (deref_Some _ _ _ Hnp). simpl. rewrite Hnpb.
  set (h1 := store p (with_bucket (bucketF h p ∖ {[v]})) h).
  assert (same_static h h1) as Hst1.
  { split; [by unfold h1; rewrite store_length|]. intros i.
    unfold h1. by autorewrite with heap. }
  assert (shape h1) as Hsh1 by (by eapply shape_static).
  assert (∀ i, semiF h1 i = semiF h i ∧ domF h1 i = domF h i ∧
               ancF h1 i = ancF h i ∧ labelF h1 i = labelF h i) as Hdyn1.
  { intros i. unfold h1. by autorewrite with heap. }
  assert (forest w h1) as Hfo1.
  { eapply forest_congr; [| |done]; intros i; [|intros _]; by destruct (Hdyn1 i) as (? & ? & ? & ?). }
  destruct (eval_spec w h1 v Hsh1 Hfo1) as (u & h2 & Hev & Hfr2 & Hfo2 & Hcase); [lia|].
  destruct Hcase as [(Hlt & _)|(_ & r & Hrw & Hbu & Hmin)]; [lia|].
  rewrite Hev. simpl.
  pose proof Hfr2 as [[HL2 Hst2] Hdyn2]. pose proof Hst1 as [HL1 Hst1'].
  (* the root of the tree of [v] is [p] *)
  assert (r = p) as ->.
  { assert (r ⪯ v) as Hrv by (eapply anc_trans; apply Hbu).
    assert (child_of p w v) as Hch by done.
    assert (p ⪯ v) as Hpv by (eapply anc_trans; [by apply anc_parent|done]).
    destruct (decide (r = p)) as [|Hne]; [done|exfalso].
    destruct (anc_linear _ par_lt r p v Hrv Hpv) as [Hrp|Hpr].
    - destruct (Hmin p) as [Hle _]; [by split_and!|lia].
    - assert (between p r v) as Hb by (by split_and!).
      apply (child_between _ _ _ _ Hch), (anc_le _ par_lt) in Hb. lia. }
  pose proof (between_lt _ _ _ Hbu) as [Hpu Huv].
  destruct (load_fields h2 u) as (nu & Hnu & _ & _ & Hnus & _); [lia|].
  destruct (load_fields h2 v) as (nv & Hnv & _ & _ & Hnvs & _); [lia|].
  destruct (load_fields h2 w) as (nw2 & Hnw2 & Hnw2p & _); [lia|].
  rewrite Hnu. simpl. rewrite Hnv. simpl. rewrite Hnus, Hnvs.
  assert (∀ i, semiF h2 i = semiF h i) as Hsemi2.
  { intros i. destruct (Hdyn2 i) as (-> & _). by destruct (Hdyn1 i) as (-> & _). }
  rewrite !Hsemi2.
  set (d := if decide (semiF h u < semiF h v) then u else semiF h v).
  set (h3 := store v (with_dom (Some d)) h2).
  assert ((if decide (semiF h u < semiF h v)
           then Ok (store v (with_dom (Some u)) h2)
           else nw ←ᵣ load h2 w; Ok (store v (with_dom (parent nw)) h2)) = Ok h3) as ->.
  { unfold h3, d. case_decide; [done|]. rewrite Hnw2. simpl. rewrite Hnw2p.
    destruct (Hst2 w) as (-> & _). destruct (Hst1' w) as (-> & _).
    by rewrite Hpar, Hp, Hsv. }
  exists h3. split; [done|].
  assert (same_static h2 h3) as Hst3.
  { split; [by unfold h3; rewrite store_length|]. intros i.
    unfold h3. by autorewrite with heap. }
  assert (∀ i, semiF h3 i = semiF h i) as Hsemi3.
  { intros i. unfold h3. rewrite semiF_store; [|done]. apply Hsemi2. }
  assert (∀ i, bucketF h3 i = if decide (p = i) then bucketF h p ∖ {[v]} else bucketF h i) as Hb3.
  { intros i. unfold h3. rewrite bucketF_store; [|done].
    destruct (Hdyn2 i) as (_ & _ & ->). unfold h1.
    rewrite bucketF_store_bucket; [done|lia]. }
  assert (∀ i, i ≠ v → domF h3 i = domF h i) as Hd3.
  { intros i Hi. unfold h3. rewrite domF_store_dom; [|lia].
    rewrite decide_False; [|done]. destruct (Hdyn2 i) as (_ & -> & _).
    by destruct (Hdyn1 i) as (_ & -> & _). }
  assert (domF h3 v = Some d) as Hdv3.
  { unfold h3. rewrite domF_store_dom; [|lia]. by rewrite decide_True. }
  apply NoDup_cons in Hnd as [Hvrem Hnd].
  split_and!.
  - eapply shape_static; [|exact Hsh1]. by eapply same_static_trans.
  - eapply forest_congr; [| |exact Hfo2].
    + intros i. unfold h3. by autorewrite with heap.
    + intros x _. rewrite Hsemi3. by rewrite Hsemi2.
  - intros x Hx. rewrite Hsemi3. by apply Hsemi.
  - intros x Hx. unfold sdom_ok. rewrite Hsemi3. by apply Hsd.
  - intros x y Hx. rewrite Hb3, decide_False; [|done].
    rewrite Hsemi3. by apply Hbx.
  - intros y. rewrite Hb3, decide_True; [|done].
    rewrite elem_of_difference, Hbp, elem_of_cons, not_elem_of_singleton.
    split; [intros [[?|?] ?]; done|]. intros Hy. split; [by right|]. by intros ->.
  - intros y Hy. rewrite Hsemi3. apply Hrem. by right.
  - done.
  - intros y c Hy Hc Hwc Hyrem. rewrite Hsemi3 in Hc.
    destruct (decide (y = v)) as [->|Hne].
    + exists u. rewrite !Hsemi3, Hdv3, Hsv. split; [done|]. split.
      * intros x Hx. rewrite ?Hsemi3. destruct (Hmin x Hx) as [_ Hle].
        destruct (Hdyn1 u) as (Hu1 & _), (Hdyn1 x) as (Hx1 & _). lia.
      * unfold d. by rewrite Hsv.
    + eapply (domspec_congr h h3 y c); [done| | |].
      * intros x _. apply Hsemi3.
      * by apply Hd3.
      * eapply Hdom; [done..|]. set_solver.
Qed.

Lemma drain_spec w p h rem :
  par w = Some p → 0 < w < N → mid w p h rem →
  ∃ h', foldR (step3_bucket N w) h rem = Ok h' ∧ mid w p h' [].
Proof.
  intros Hp Hw. revert h. induction rem as [|v rem IH]; intros h Hmid; simpl.
  - by exists h.
  - destruct (step3_spec w p h v rem Hp Hw Hmid) as (h1 & -> & Hmid1). simpl.
    by apply IH.
Qed.

Lemma mid_done w p h : par w = Some p → mid w p h [] → inv w h.
Proof.
  intros Hp (Hsh & Hfo & Hsemi & Hsd & Hbx & Hbp & _ & _ & Hdom).
  split_and!; [done|done|by intros; apply Hsemi|done| |].
  - intros x v. destruct (decide (x = p)) as [->|Hne]; [|by apply Hbx].
    rewrite Hbp. split; [by intros ?%elem_of_nil|].
    intros (Hv & _ & c & Hc & Hcw).
    pose proof (child_is w p c v Hp Hc). lia.
  - intros v c Hv Hc Hwc. eapply Hdom; [done..|]. by intros ?%elem_of_nil.
Qed.

(** One round of the main loop. *)
Lemma process_spec sched w h :
  inv (S w) h → 0 < w < N →
  ∃ h', process sched N h w = Ok h' ∧ inv w h'.
Proof.
  intros Hinv Hw.
  destruct (step2_spec w h Hinv Hw) as (h1 & Hfold & Hst1 & Hfo1 & Hsemi1 & Hdb1 & Hsdw).
  destruct Hinv as (Hsh & Hfo & Hsemi & Hsd & Hbk & Hdom).
  pose proof Hsh as (HN & Hpar & Hprd & _).
  destruct (par_some w Hw) as [p Hp]. pose proof (par_lt _ _ Hp) as Hpw.
  assert (shape h1) as Hsh1 by (by eapply shape_static).
  pose proof Hsh1 as (HN1 & Hpar1 & _).
  destruct (sdom_bound h1 w Hw Hsdw) as [Hsw Hbsw].
  set (sw := semiF h1 w) in *.
  destruct (load_fields h w) as (nw & Hnw & _ & Hnwp & _); [lia|].
  destruct (load_fields h1 w) as (nw1 & Hnw1 & _ & _ & Hnw1s & _); [lia|].
  destruct (load_fields h1 sw) as (ns & Hns & _ & _ & _ & Hnsb & _); [lia|].
  unfold process. rewrite Hnw. simpl. rewrite Hnwp, Hprd, Hfold. simpl.
  rewrite Hnw1. simpl. rewrite Hnw1s. fold sw. rewrite Hns. simpl. rewrite Hnsb.
  destruct (Hdb1 sw) as [_ Hbsw1]. rewrite Hbsw1.
  set (h2 := store sw (with_bucket (bucketF h sw ∪ {[w]})) h1).
  assert (length h2 = N) as HN2 by (unfold h2; by rewrite store_length).
  destruct (load_fields h2 w) as (nw2 & Hnw2 & Hnw2p & _); [lia|].
  rewrite Hnw2. simpl. rewrite Hnw2p.
  assert (parF h2 w = Some p) as Hparw2.
  { unfold h2. rewrite parF_store; [|done]. by rewrite Hpar1. }
  rewrite Hparw2. unfold link.
  set (h3 := store w (with_ancestor (Some p)) h2).
  assert (length h3 = N) as HN3 by (unfold h3; by rewrite store_length).
  assert (same_static h h3) as Hst3.
  { eapply same_static_trans; [done|].
    split; [unfold h3, h2; by rewrite !store_length|].
    intros i. unfold h3, h2. by autorewrite with heap. }
  assert (shape h3) as Hsh3 by (by eapply shape_static).
  pose proof Hsh3 as (_ & Hpar3 & _).
  destruct (load_fields h3 w) as (nw3 & Hnw3 & Hnw3p & _); [lia|].
  destruct (lookup_fields h3 p) as (np & Hnp & _ & _ & _ & Hnpb & _); [lia|].
  rewrite Hnw3. simpl. rewrite Hnw3p, Hpar3, Hp, (deref_Some _ _ _ Hnp). simpl.
  rewrite Hnpb.
  assert (∀ x, semiF h3 x = semiF h1 x) as Hsemi3.
  { intros x. unfold h3, h2. by autorewrite with heap. }
  assert (∀ x, domF h3 x = domF h x) as Hdom3.
  { intros x. unfold h3, h2. autorewrite with heap. apply Hdb1. }
  assert (∀ x, labelF h3 x = labelF h1 x) as Hlab3.
  { intros x. unfold h3, h2. by autorewrite with heap. }
  assert (∀ x, ancF h3 x = if decide (w = x) then Some p else ancF h1 x) as Hanc3.
  { intros x. unfold h3. rewrite ancF_store_ancestor; [|lia].
    case_decide; [done|]. unfold h2. by autorewrite with heap. }
  assert (∀ x, bucketF h3 x
               = if decide (sw = x) then bucketF h sw ∪ {[w]} else bucketF h x) as Hbk3.
  { intros x. unfold h3. rewrite bucketF_store; [|done]. unfold h2.
    rewrite bucketF_store_bucket; [|lia]. case_decide; [done|]. apply Hdb1. }
  assert (∀ x, between p x w → x = w) as Honly.
  { intros x (Hpx & Hne & Hxw). destruct (decide (x = w)) as [|Hnw']; [done|].
    pose proof (anc_proper _ _ _ _ Hxw Hnw' Hp) as Hxp.
    by destruct Hne; apply (anc_antisym _ par_lt). }
  assert (between p w w) as Hbpw.
  { split_and!; [by apply anc_parent|lia|apply anc_refl]. }
  assert (∀ v, S w ≤ v → semiF h3 v = semiF h v) as Hsemi3'.
  { intros v Hv. rewrite Hsemi3. apply Hsemi1. lia. }
  assert (∀ v, w ≤ v < N → sdom_ok h3 v) as Hsd3.
  { intros v Hv. unfold sdom_ok. rewrite Hsemi3.
    destruct (decide (v = w)) as [->|Hne]; [done|].
    rewrite Hsemi1; [|done]. apply Hsd. lia. }
  (* the vertices above [w] in the bucket of [p] are descendants of [w] *)
  assert (∀ v, v ∈ bucketF h3 p → w ≤ v < N ∧ semiF h3 v = p ∧ w ⪯ v) as Hinp.
  { intros v. rewrite Hbk3. intros Hv.
    assert (v ∈ bucketF h p ∨ (sw = p ∧ v = w)) as [Hold|[Hswp ->]].
    { case_decide as Hd; [|by left]. subst p.
      apply elem_of_union in Hv as [?|?%elem_of_singleton]; [by left|by right]. }
    - apply Hbk in Hold as (Hv' & Hsv & c & Hc & Hcw).
      rewrite Hsemi3'; [|lia]. split; [lia|]. split; [done|].
      rewrite <-(child_is w p c v Hp Hc); [apply Hc|lia..].
    - rewrite Hsemi3. split; [lia|]. split; [done|apply anc_refl]. }
  destruct (drain_spec w p h3 (range_keys (sched w) (bucketF h3 p)) Hp Hw)
    as (h' & Hdrain & Hmid).
  2:{ exists h'. split; [done|]. by eapply mid_done. }
  split_and!.
  - done.
  - destruct Hfo1 as [Hun1 Hli1]. split.
    + intros v Hv HvN. rewrite Hanc3, Hlab3, decide_False; [|lia].
      apply Hun1; [lia|done].
    + intros v Hv. destruct (decide (v = w)) as [->|Hne].
      * exists p. rewrite Hanc3, decide_True; [|done]. split; [done|].
        split; [done|]. split; [by intros x ->%Honly|].
        destruct (Hun1 w) as [_ Hlw]; [lia..|]. rewrite Hlab3, Hlw.
        split; [done|]. by intros x ->%Honly.
      * destruct (Hli1 v) as (a & Ha & Hav & Hk & Hlab & Hmin); [lia|].
        exists a. rewrite Hanc3, Hlab3, decide_False; [|lia].
        split_and!; [done|done| |done|].
        -- intros x Hx. specialize (Hk x Hx). lia.
        -- intros x Hx. rewrite !Hsemi3. by apply Hmin.
  - intros v Hv. rewrite Hsemi3, Hsemi1; [|lia]. apply Hsemi; lia.
  - done.
  - intros x v Hx. rewrite Hbk3. split.
    + intros Hv.
      assert (v ∈ bucketF h x ∨ (sw = x ∧ v = w)) as [Hold|[Hswx ->]].
      { case_decide as Hd; [|by left]. subst x.
        apply elem_of_union in Hv as [?|?%elem_of_singleton]; [by left|by right]. }
      * apply Hbk in Hold as (Hv' & Hsv & c & Hc & Hcw).
        rewrite Hsemi3'; [|lia]. split; [lia|]. split; [done|].
        exists c. split; [done|].
        destruct (decide (c = w)) as [->|]; [|lia].
        destruct Hc as [Hc _]. congruence.
      * rewrite Hsemi3. split; [lia|]. split; [done|].
        destruct (child_toward x w) as (c & Hc); [subst x; apply Hbsw..|].
        exists c. split; [done|].
        pose proof (anc_le _ par_lt _ _ (proj2 Hc)).
        destruct (decide (c = w)) as [->|]; [|lia].
        destruct Hc as [Hc _]. congruence.
    + intros (Hv & Hsv & c & Hc & Hcw).
      destruct (decide (v = w)) as [->|Hne].
      * rewrite Hsemi3 in Hsv. fold sw in Hsv. rewrite decide_True; [|done].
        apply elem_of_union. right. by apply elem_of_singleton.
      * rewrite Hsemi3' in Hsv; [|lia].
        assert (v ∈ bucketF h x) as Hin.
        { apply Hbk. split; [lia|]. split; [done|]. exists c. split; [done|lia]. }
        case_decide as Hd; [rewrite Hd; apply elem_of_union; by left|done].
  - intros v. by rewrite elem_of_range_keys.
  - intros v Hv%elem_of_range_keys. by apply Hinp.
  - apply NoDup_range_keys.
  - intros v c Hv Hc Hwc Hnin. rewrite elem_of_range_keys in Hnin.
    rewrite Hsemi3 in Hc.
    destruct (decide (c = w)) as [->|Hcne].
    + (* then [v] is in the bucket of [p] *)
      destruct Hc as [Hc Hcv]. rewrite Hp in Hc. injection Hc as Hc.
      destruct Hnin. rewrite Hbk3.
      destruct (decide (v = w)) as [->|Hne].
      * fold sw in Hc. rewrite decide_True; [|done].
        apply elem_of_union. right. by apply elem_of_singleton.
      * rewrite Hsemi1 in Hc; [|done].
        assert (v ∈ bucketF h p) as Hin.
        { apply Hbk. split; [lia|]. split; [done|]. exists w.
          split; [by split|lia]. }
        case_decide as Hd; [rewrite Hd; apply elem_of_union; by left|done].
    + pose proof (anc_le _ par_lt _ _ (proj2 Hc)) as Hcv.
      assert (v ≠ w) as Hne by lia.
      rewrite Hsemi1 in Hc; [|done].
      eapply (domspec_congr h h3 v c); [done| |by rewrite Hdom3|].
      * intros x Hx. apply Hsemi3'. lia.
      * eapply Hdom; [|done|]; lia.
Qed.

(** *** Steps 2 and 3 together *)

Lemma rounds_spec sched n h :
  S n ≤ N → inv (S n) h →
  ∃ h', foldR (process sched N) h (reverse (seq 1 n)) = Ok h' ∧ inv 1 h'.
Proof.
  revert h. induction n as [|n IH]; intros h Hn Hinv.
  - by exists h.
  - rewrite seq_S, reverse_app. simpl.
    destruct (process_spec sched (S n) h Hinv) as (h1 & -> & Hinv1); [lia|].
    simpl. apply IH; [lia|done].
Qed.

Lemma steps23_spec sched h :
  0 < N → inv N h → ∃ h', steps23 sched h = Ok h' ∧ inv 1 h'.
Proof.
  intros HN Hinv. pose proof Hinv as ((HL & _) & _).
  unfold steps23, downward. rewrite HL.
  apply rounds_spec; [lia|]. by replace (S (N - 1)) with N by lia.
Qed.

(** *** Step 4 *)

Definition idom_ok (h : heap) (v : nat) : Prop :=
  ∃ d, domF h v = Some d ∧ is_idom edge 0 d v.

Definition node_inj (h : heap) : Prop :=
  ∀ i j v, nodeF h i = Some v → nodeF h j = Some v → i = j.

(** Corollary 1 on the state left by step 3. *)
Lemma domspec_idom h w :
  inv 1 h → 0 < w < N → domspec h w →
  ∃ d, domF h w = Some d ∧ d < w ∧
    (d = semiF h w → is_idom edge 0 d w) ∧
    (d ≠ semiF h w → 0 < d ∧ ∀ d', is_idom edge 0 d' d → is_idom edge 0 d' w).
Proof.
  intros (Hsh & _ & _ & Hsd & _) Hw (u & Hu & Hmin & Hdom).
  assert (sdom_ok h w) as Hsw by (apply Hsd; lia).
  destruct (sdom_bound h w Hw Hsw) as [Hlt Hbw].
  pose proof (between_lt _ _ _ Hu) as [Hsu Huw].
  assert (∀ y x, between (semiF h w) y w → cand edge y x → semiF h u ≤ x) as Hall.
  { intros y x Hy Hc. etrans; [by apply Hmin|].
    pose proof (between_lt _ _ _ Hy). apply (Hsd y); [lia|done]. }
  eexists. split; [done|]. case_decide as Hcmp.
  - assert (u ≠ w) as Hune by (intros ->; lia).
    split; [lia|]. split; [lia|]. intros _. split; [lia|].
    intros d' Hd'. destruct Hu as (Hu1 & Hu2 & Hu3).
    apply (th idom_of_min w (semiF h w) u (semiF h u) d'); try done.
    + apply Hsd. lia.
    + intros y x ? ? ? ?. by apply (Hall y x).
  - split; [done|]. split; [|done]. intros _.
    apply (th sdom_is_idom); [done..|].
    intros y x ? ? ? Hc. etrans; [|by apply (Hall y x)]. lia.
Qed.

Lemma step4_spec h :
  inv 1 h → node_inj h →
  ∃ h', step4 h = Ok h' ∧ same_static h h' ∧
    (∀ x, semiF h' x = semiF h x) ∧
    (∀ v, 0 < v < N →
       idom_ok h' v ∧
       domF h' v = if decide (domF h v = Some (semiF h v)) then domF h v
                   else domF h v ≫= domF h').
Proof.
  intros Hinv Hinj. pose proof Hinv as (Hsh & _ & _ & Hsd & _ & Hdom).
  pose proof Hsh as (HN & _).
  assert (∀ v, 0 < v < N → domspec h v) as Hds.
  { intros v Hv. assert (sdom_ok h v) as Hsv by (apply Hsd; lia).
    destruct (sdom_bound h v Hv Hsv) as [_ (Ha & Hne & _)].
    destruct (child_toward _ _ Ha Hne) as (c & Hc).
    apply (Hdom v c); [lia|done|].
    destruct Hc as [Hc%par_lt _]. lia. }
  pose (K := λ (done : list nat) (s : heap),
    same_static h s ∧ (∀ x, semiF s x = semiF h x) ∧
    (∀ v, v ∈ done →
       idom_ok s v ∧
       domF s v = if decide (domF h v = Some (semiF h v)) then domF h v
                  else domF h v ≫= domF s) ∧
    (∀ v, v ∉ done → domF s v = domF h v)).
  unfold step4, tail_indices. rewrite HN.
  destruct (foldR_total step4_node K (seq 1 (N - 1)) h) as (h' & Hfold & Hst & Hsemi & Hdone & _).
  { unfold K. split_and!; [apply same_static_refl|done| |done].
    intros v Hv. by apply elem_of_nil in Hv. }
  { intros done w rest s Hsplit (Hst & Hsemi & Hdone & Hrest).
    destruct (seq_split_at _ _ _ _ _ Hsplit) as (_ & HwN & Hin).
    assert (0 < w < N) as Hw.
    { assert (w ∈ seq 1 (N - 1)) as Hws by (rewrite Hsplit; set_solver).
      apply elem_of_seq in Hws. lia. }
    assert (w ∉ done) as Hwd by (rewrite Hin; lia).
    pose proof Hst as [HL Hst'].
    destruct (domspec_idom h w Hinv Hw (Hds w Hw)) as (d & Hd & Hdw & Heq & Hne).
    destruct (load_fields s w) as (nw & Hnw & _ & _ & Hnws & _ & Hnwd & _); [lia|].
    destruct (lookup_fields s d) as (nd & Hnd & _ & _ & _ & _ & Hndd & _ & _ & Hndn); [lia|].
    assert (semiF h w < w) as Hsw by (apply sdom_bound; [done|apply Hsd; lia]).
    destruct (load_fields s (semiF h w)) as (ns & Hns & _ & _ & _ & _ & _ & _ & _ & Hnsn); [lia|].
    unfold step4_node. rewrite Hnw. simpl.
    rewrite Hnwd, (Hrest w Hwd), Hd, (deref_Some _ _ _ Hnd). simpl.
    rewrite Hnws, Hsemi, Hns. simpl.
    assert (node nd ≠ node ns ↔ d ≠ semiF h w) as Hcmp.
    { destruct (Hst' d) as (_ & _ & Hn1). destruct (Hst' (semiF h w)) as (_ & _ & Hn2).
      split; [by intros ? ->; congruence|]. intros Hdne Hnn. apply Hdne.
      apply (Hinj d (semiF h w) (node nd)); congruence. }
    set (s2 := if decide (node nd ≠ node ns) then store w (with_dom (dom nd)) s else s).
    assert ((if decide (node nd ≠ node ns)
             then Ok (store w (with_dom (dom nd)) s) else Ok s) = Ok s2) as ->.
    { unfold s2. by case_decide. }
    exists s2. split; [done|].
    assert (same_static s s2) as Hst2.
    { unfold s2. case_decide; [|apply same_static_refl].
      split; [by rewrite store_length|]. intros i. by autorewrite with heap. }
    assert (∀ x, semiF s2 x = semiF s x) as Hsemi2.
    { intros x. unfold s2. case_decide; [|done]. by autorewrite with heap. }
    assert (∀ x, x ≠ w → domF s2 x = domF s x) as Hdom2.
    { intros x Hx. unfold s2. case_decide; [|done].
      rewrite domF_store_dom; [|lia]. by rewrite decide_False. }
    assert (domF s2 w = if decide (d = semiF h w) then Some d else domF s d) as Hdomw2.
    { unfold s2. case_decide as Hc.
      - rewrite domF_store_dom; [|lia]. rewrite decide_True; [|done].
        rewrite decide_False; [|by apply Hcmp]. done.
      - rewrite (Hrest w Hwd), Hd. rewrite decide_True; [done|].
        destruct (decide (d = semiF h w)) as [|Hdn]; [done|].
        apply Hcmp in Hdn. by destruct Hc. }
    unfold K. split_and!.
    - by eapply same_static_trans.
    - intros x. by rewrite Hsemi2.
    - intros v [Hv|Hv%list_elem_of_singleton]%elem_of_app.
      + destruct (Hdone v Hv) as [(dv & Hdv & Hidv) Hform].
        assert (v ≠ w) as Hvw by (intros ->; done).
        split.
        * exists dv. rewrite Hdom2; done.
        * rewrite Hdom2; [|done]. rewrite Hform. case_decide; [done|].
          apply Hin in Hv.
          destruct (domspec_idom h v Hinv ltac:(lia) (Hds v ltac:(lia)))
            as (d0 & Hd0 & Hd0v & _). rewrite Hd0. simpl.
          rewrite Hdom2; [done|lia].
      + subst v. unfold idom_ok. rewrite Hdomw2, Hd. split.
        * case_decide as Hc.
          -- exists d. split; [done|]. by apply Heq.
          -- destruct (Hne Hc) as [Hd0 Himm].
             destruct (Hdone d) as [(dd & Hdd & Hidd) _]; [apply Hin; lia|].
             exists dd. split; [done|]. by apply Himm.
        * case_decide as Hc.
          -- rewrite decide_True; [done|]. by rewrite Hc.
          -- rewrite decide_False; [|by intros [= ?]]. simpl.
             rewrite Hdom2; [done|lia].
    - intros v Hv. rewrite Hdom2; [|set_solver]. apply Hrest. set_solver. }
  exists h'. split_and!; [done..|].
  intros v Hv. apply Hdone. apply elem_of_seq. lia.
Qed.
End loop.

(** ** The public tree *)

(** The node of the dominator recorded for the vertex [v]. *)
Definition idomN (h : heap) (v : nat) : option Z := domF h v ≫= nodeF h.

Lemma build_tree_spec r (h : heap) :
  node_inj h →
  (∀ v, 0 < v < length h → ∃ d, domF h v = Some d ∧ d < length h) →
  ∃ t, build_tree r h = Ok t ∧ root t = r ∧
    (∀ n d, dominatorOf t !! n = Some d ↔
       ∃ v, 0 < v < length h ∧ nodeF h v = Some n ∧ idomN h v = Some d) ∧
    (∀ d, default [] (dominatedBy t !! d)
          = omap (nodeF h) (filter (λ v, idomN h v = Some d) (seq 1 (length h - 1)))) ∧
    (∀ d l, dominatedBy t !! d = Some l → l ≠ []).
Proof.
  intros Hinj Hdom. unfold build_tree, tail_indices.
  pose (I := λ (done : list nat) (t : gmap Z Z * gmap Z (list Z)),
    (∀ n d, t.1 !! n = Some d ↔
       ∃ v, v ∈ done ∧ nodeF h v = Some n ∧ idomN h v = Some d) ∧
    (∀ d, default [] (t.2 !! d)
          = omap (nodeF h) (filter (λ v, idomN h v = Some d) done)) ∧
    (∀ d l, t.2 !! d = Some l → l ≠ [])).
  destruct (foldR_total (add_entry h) I (seq 1 (length h - 1)) (∅, ∅))
    as ([dof dby] & Hfold & H1 & H2 & H3).
  { unfold I. simpl. split_and!.
    - intros n d. rewrite lookup_empty. split; [done|].
      by intros (v & ?%elem_of_nil & _).
    - intros d. by rewrite lookup_empty.
    - intros d l. by rewrite lookup_empty. }
  { intros done w rest [dof dby] Hsplit (H1 & H2 & H3). simpl in H1, H2, H3.
    destruct (seq_split_at _ _ _ _ _ Hsplit) as (_ & HwN & Hin).
    assert (0 < w < length h) as Hw.
    { assert (w ∈ seq 1 (length h - 1)) as Hws by (rewrite Hsplit; set_solver).
      apply elem_of_seq in Hws. lia. }
    assert (w ∉ done) as Hwd by (rewrite Hin; lia).
    destruct (Hdom w Hw) as (dv & Hdv & Hdvlt).
    destruct (load_fields h w) as (nw & Hnw & _ & _ & _ & _ & Hnwd & _ & _ & Hnwn); [lia|].
    destruct (lookup_fields h dv) as (nd & Hnd & _ & _ & _ & _ & _ & _ & _ & Hndn); [lia|].
    unfold add_entry. rewrite Hnw. simpl. rewrite Hnwd, Hdv, (deref_Some _ _ _ Hnd). simpl.
    eexists. split; [done|].
    assert (idomN h w = Some (node nd)) as Hiw.
    { unfold idomN. rewrite Hdv. simpl. done. }
    unfold I. simpl. split_and!.
    - intros n d. rewrite lookup_insert. case_decide as Hn.
      + subst n. split.
        * intros [= <-]. exists w. split; [set_solver|]. by split.
        * intros (v & Hv & Hvn & Hvd).
          assert (v = w) as -> by (by eapply Hinj). congruence.
      + rewrite H1. split.
        * intros (v & Hv & ?). exists v. split; [set_solver|done].
        * intros (v & [Hv|Hv%list_elem_of_singleton]%elem_of_app & Hvn & Hvd).
          -- by exists v.
          -- subst v. congruence.
    - intros d. rewrite filter_app, omap_app, <-H2.
      rewrite lookup_insert. case_decide as Hd.
      + subst d. simpl. rewrite filter_cons_True; [|done]. simpl.
        rewrite <-Hnwn. simpl. done.
      + rewrite filter_cons_False; [|congruence]. simpl. by rewrite app_nil_r.
    - intros d l. rewrite lookup_insert. case_decide as Hd; [|by apply H3].
      intros [= <-]. by destruct (default [] (dby !! node nd)). }
  simpl in *. rewrite Hfold. simpl. eexists. split; [done|]. simpl.
  split_and!; [done| |done|done].
  intros n d. rewrite H1. split; intros (v & Hv & ?); exists v; (split; [|done]).
  - apply elem_of_seq in Hv. lia.
  - apply elem_of_seq. lia.
Qed.

(** ** The whole run *)

Section run.
Context (sched : nat → list nat) (r : Node) (g : graph).

(** The states a run goes through. *)
Definition run_states (lt : lengauerTarjan) (h1 h2 : heap) (t : DominatorTree) : Prop :=
  run_dfs r g = Ok lt ∧ steps23 sched (nodes lt) = Ok h1 ∧
  step4 h1 = Ok h2 ∧ build_tree r h2 = Ok t.

Lemma run_states_Dominators lt h1 h2 t :
  run_states lt h1 h2 t → Dominators sched r g = Ok t.
Proof.
  intros (H1 & H2 & H3 & H4). unfold Dominators.
  rewrite H1. simpl. rewrite H2. simpl. by rewrite H3.
Qed.

(** The graph on the ranks: [a → b] when [a] is listed as a predecessor
    of [b]. *)
Definition rank_edge (lt : lengauerTarjan) (a b : nat) : Prop :=
  a ∈ predF (nodes lt) b.

Lemma run_correct :
  ∃ lt h1 h2 t, run_states lt h1 h2 t ∧ dfs_done g r lt ∧
    same_static (nodes lt) h2 ∧ same_static (nodes lt) h1 ∧
    (∀ x, semiF h2 x = semiF h1 x) ∧
    (∀ v, 0 < v < length (nodes lt) →
       (∃ d, domF h2 v = Some d ∧ is_idom (rank_edge lt) 0 d v) ∧
       domF h2 v = if decide (domF h1 v = Some (semiF h1 v)) then domF h1 v
                   else domF h1 v ≫= domF h2).
Proof.
  destruct (run_dfs_done g r) as (lt & Hdfs & Hdone).
  set (h := nodes lt). set (N := length h).
  pose proof (done_par_lt g r lt Hdone) as T1.
  pose proof (done_par_some g r lt Hdone) as T2.
  pose proof (done_par_edge g r lt Hdone) as T3.
  pose proof (done_edge_bound g r lt Hdone) as T4.
  pose proof (done_tree_interval g r lt Hdone) as T5.
  pose proof (done_edge_forward g r lt Hdone) as T6.
  pose proof (done_nonempty g r lt Hdone) as HN.
  assert (inv N (parF h) (predF h) (nodeF h) N h) as Hinv.
  { destruct Hdone as ((_ & _ & _ & W4) & _).
    assert (∀ v, v < N → semiF h v = v ∧ labelF h v = v ∧ bucketF h v = ∅ ∧
                          domF h v = None ∧ ancF h v = None) as Hinit.
    { intros v (nd & Hnd & _ & _ & <- & <- & <- & <- & <- & _)%lookup_fields.
      by apply W4. }
    split_and!.
    - by split_and!.
    - split; [|intros v; lia]. intros v _ Hv.
      by destruct (Hinit v Hv) as (_ & ? & _ & _ & ?).
    - intros v _ Hv. by destruct (Hinit v Hv) as (? & _).
    - intros v ?. lia.
    - intros x v. split; [|intros (? & _); lia].
      destruct (decide (x < N)) as [Hx|Hx].
      + destruct (Hinit x Hx) as (_ & _ & -> & _). set_solver.
      + unfold bucketF. rewrite lookup_ge_None_2; [|unfold N in Hx; lia].
        simpl. set_solver.
    - intros v c ?. lia. }
  destruct (steps23_spec N (parF h) (predF h) (nodeF h) T1 T2 T3 T4 T5 T6 sched h HN Hinv)
    as (h1 & Hsteps & Hinv1).
  pose proof Hinv1 as (Hsh1 & _).
  assert (same_static h h1) as Hst1.
  { destruct Hsh1 as (HL & Hp & Hq & Hn). split; [done|]. intros i. by split_and!. }
  assert (node_inj h1) as Hinj1.
  { intros i j v Hi Hj. destruct Hsh1 as (_ & _ & _ & Hn). rewrite Hn in Hi, Hj.
    by eapply (done_node_inj g r lt). }
  destruct (step4_spec N (parF h) (predF h) (nodeF h) T1 T2 T3 T4 T5 T6 h1 Hinv1 Hinj1)
    as (h2 & Hstep4 & Hst2 & Hsemi2 & Hidom).
  assert (same_static h h2) as Hst02 by (by eapply same_static_trans).
  pose proof Hst02 as [HL2 Hst02'].
  destruct (build_tree_spec r h2) as (t & Hbuild & _).
  { intros i j v Hi Hj. destruct (Hst02' i) as (_ & _ & Hni).
    destruct (Hst02' j) as (_ & _ & Hnj). rewrite Hni in Hi. rewrite Hnj in Hj.
    by eapply (done_node_inj g r lt). }
  { intros v Hv. rewrite HL2 in Hv. destruct (Hidom v Hv) as [(d & Hd & Hid) _].
    exists d. split; [done|].
    apply (idom_lt N (parF h) _ T1 T2 T3 T4 T5 T6) in Hid; [|lia]. lia. }
  exists lt, h1, h2, t. split_and!; [done..|].
  intros v Hv. by apply Hidom.
Qed.
End run.

(** ** From ranks back to nodes *)

Lemma NoDup_omap_inj {A B} (f : A → option B) (l : list A) :
  (∀ i j v, f i = Some v → f j = Some v → i = j) →
  NoDup l → NoDup (omap f l).
Proof.
  intros Hinj. induction 1 as [|x l Hx Hl IH]; simpl; [constructor|].
  destruct (f x) as [v|] eqn:Hv; [|done]. constructor; [|done].
  intros (y & Hy & Hfy)%list_elem_of_omap.
  by rewrite (Hinj x y v Hv Hfy) in Hx.
Qed.

Lemma Forall2_elem_r {A B} (P : A → B → Prop) l l' k :
  Forall2 P l l' → k ∈ l' → ∃ z, z ∈ l ∧ P z k.
Proof.
  intros HF (i & Hi)%list_elem_of_lookup.
  destruct (Forall2_lookup_r _ _ _ _ _ HF Hi) as (z & Hz & HP).
  exists z. split; [|done]. by eapply list_elem_of_lookup_2.
Qed.

Lemma Forall2_elem_l {A B} (P : A → B → Prop) l l' z :
  Forall2 P l l' → z ∈ l → ∃ k, k ∈ l' ∧ P z k.
Proof.
  intros HF (i & Hi)%list_elem_of_lookup.
  destruct (Forall2_lookup_l _ _ _ _ _ HF Hi) as (k & Hk & HP).
  exists k. split; [|done]. by eapply list_elem_of_lookup_2.
Qed.

Section transfer.
Context (g : graph) (r : Node) (lt : lengauerTarjan) (Hdone : dfs_done g r lt).

Local Notation h := (nodes lt).
Local Notation N := (length (nodes lt)).
Local Notation redge := (rank_edge lt).
Local Abbreviation th l :=
  (l N (parF h) redge (done_par_lt g r lt Hdone) (done_par_some g r lt Hdone)
     (done_par_edge g r lt Hdone) (done_edge_bound g r lt Hdone)
     (done_tree_interval g r lt Hdone) (done_edge_forward g r lt Hdone))
  (only parsing).

Set Default Proof Using "All".

(** [n] has rank [i]. *)
Definition ranked (n : Node) (i : nat) : Prop := indexOf lt !! n = Some i.

Lemma ranked_node n i : ranked n i ↔ nodeF h i = Some n.
Proof. destruct Hdone as ((W1 & _) & _). apply W1. Qed.

Lemma ranked_lt n i : ranked n i → i < N.
Proof. intros Hn%ranked_node. by eapply nodeF_Some_lt. Qed.

Lemma ranked_fun n i j : ranked n i → ranked n j → i = j.
Proof. unfold ranked. congruence. Qed.

Lemma ranked_inj n m i : ranked n i → ranked m i → n = m.
Proof. intros Hn%ranked_node Hm%ranked_node. congruence. Qed.

Lemma ranked_root : ranked r 0.
Proof. apply ranked_node. apply Hdone. Qed.

Lemma ranked_exists i : i < N → ∃ n, ranked n i.
Proof.
  intros [n Hn]%nodeF_lt. exists n. by apply ranked_node.
Qed.

Lemma redge_gedge a b va vb :
  ranked va a → ranked vb b → redge a b → gedge g va vb.
Proof.
  intros Ha%ranked_node Hb%ranked_node Hab.
  destruct Hdone as ((_ & W2 & _) & _).
  destruct (W2 _ _ Hab) as (va' & vb' & Ha' & Hb' & He).
  unfold gedge. congruence.
Qed.

Lemma gedge_redge a va vb :
  ranked va a → gedge g va vb → ∃ b, ranked vb b ∧ redge a b.
Proof.
  intros Ha He. pose proof (ranked_lt _ _ Ha) as Hlt.
  apply ranked_node in Ha.
  destruct Hdone as (_ & _ & _ & _ & Hclosed & _).
  destruct (Hclosed a va vb) as (b & Hb & Hab & _); [lia|done..|].
  by exists b.
Qed.

Lemma path_to_ranks va a l vb :
  ranked va a → path (gedge g) va l vb →
  ∃ l' b, ranked vb b ∧ path redge a l' b ∧ Forall2 ranked l l'.
Proof.
  intros Ha Hp. revert a Ha. induction Hp as [va|va vc l vb He Hp IH]; intros a Ha.
  - exists [], a. split_and!; [done|constructor|constructor].
  - destruct (gedge_redge a va vc Ha He) as (c & Hc & Hac).
    destruct (IH c Hc) as (l' & b & Hb & Hp' & HF).
    exists (c :: l'), b. split_and!; [done|by constructor|by constructor].
Qed.

Lemma path_to_nodes a l' b va :
  ranked va a → path redge a l' b →
  ∃ l vb, ranked vb b ∧ path (gedge g) va l vb ∧ Forall2 ranked l l'.
Proof.
  intros Ha Hp. revert va Ha. induction Hp as [a|a c l' b He Hp IH]; intros va Ha.
  - exists [], va. split_and!; [done|constructor|constructor].
  - destruct (done_edge_bound g r lt Hdone _ _ He) as [_ Hc].
    destruct (ranked_exists c Hc) as (vc & Hvc).
    destruct (IH vc Hvc) as (l & vb & Hb & Hp' & HF).
    exists (vc :: l), vb. split_and!; [done| |by constructor].
    constructor; [|done]. by eapply redge_gedge.
Qed.

(** The indexed nodes are the nodes with a path from the root. *)
Lemma reachable_ranked n : reachable (gedge g) r n ↔ ∃ i, ranked n i.
Proof.
  split.
  - intros (l & Hp).
    destruct (path_to_ranks r 0 l n ranked_root Hp) as (l' & i & Hi & _).
    by exists i.
  - intros (i & Hi). pose proof (ranked_lt _ _ Hi) as Hlt.
    destruct (th tree_path 0 i (th anc_root i Hlt)) as (l' & Hp & _).
    destruct (path_to_nodes 0 l' i r ranked_root Hp) as (l & n' & Hn' & Hp' & _).
    rewrite (ranked_inj n n' i Hi Hn'). by exists l.
Qed.

Lemma dominates_ranks d n di i :
  ranked d di → ranked n i →
  dominates redge 0 di i ↔ dominates (gedge g) r d n.
Proof.
  intros Hd Hn. split.
  - intros Hdom l Hp.
    destruct (path_to_ranks r 0 l n ranked_root Hp) as (l' & i' & Hi' & Hp' & HF).
    rewrite <-(ranked_fun n i i' Hn Hi') in Hp'.
    specialize (Hdom l' Hp'). apply elem_of_cons in Hdom as [->|Hin].
    + rewrite (ranked_inj d r 0 Hd ranked_root). set_solver.
    + destruct (Forall2_elem_r _ _ _ _ HF Hin) as (z & Hz & Hzd).
      rewrite (ranked_inj d z di Hd Hzd). set_solver.
  - intros Hdom l' Hp'.
    destruct (path_to_nodes 0 l' i r ranked_root Hp') as (l & n' & Hn' & Hp & HF).
    rewrite <-(ranked_inj n n' i Hn Hn') in Hp.
    specialize (Hdom l Hp). apply elem_of_cons in Hdom as [->|Hin].
    + rewrite (ranked_fun r di 0 Hd ranked_root). set_solver.
    + destruct (Forall2_elem_l _ _ _ _ HF Hin) as (k & Hk & Hdk).
      rewrite (ranked_fun d di k Hd Hdk). set_solver.
Qed.

(** A dominator of a reachable node is reachable. *)
Lemma dominates_ranked d n i :
  ranked n i → dominates (gedge g) r d n → ∃ di, ranked d di.
Proof.
  intros Hn Hdom. apply reachable_ranked.
  assert (reachable (gedge g) r n) as (l & Hp) by (apply reachable_ranked; eauto).
  specialize (Hdom l Hp).
  apply list_elem_of_split in Hdom as (l1 & l2 & Heq).
  destruct (path_split_at _ _ _ _ _ _ _ Hp Heq) as (l0 & _ & Hp0 & _).
  by exists l0.
Qed.

Lemma is_idom_ranks d n di i :
  ranked d di → ranked n i →
  is_idom redge 0 di i ↔ is_idom (gedge g) r d n.
Proof.
  intros Hd Hn. split.
  - intros (Hne & Hdom & Hclose). split_and!.
    + intros ->. apply Hne. by eapply ranked_fun.
    + by apply (dominates_ranks d n di i).
    + intros d' Hne' Hdom'.
      destruct (dominates_ranked d' n i Hn Hdom') as (di' & Hd').
      apply (dominates_ranks d' d di' di); [done..|].
      apply Hclose.
      * intros ->. apply Hne'. by eapply ranked_inj.
      * by apply (dominates_ranks d' n di' i).
  - intros (Hne & Hdom & Hclose). split_and!.
    + intros ->. apply Hne. by eapply ranked_inj.
    + by apply (dominates_ranks d n di i).
    + intros di' Hne' Hdom'.
      assert (di' < N) as Hlt.
      { apply (th dominates_anc), (anc_le _ (done_par_lt g r lt Hdone)) in Hdom'.
        - pose proof (ranked_lt _ _ Hn). lia.
        - by eapply ranked_lt. }
      destruct (ranked_exists di' Hlt) as (d' & Hd').
      apply (dominates_ranks d' d di' di); [done..|].
      apply Hclose.
      * intros ->. apply Hne'. by eapply ranked_fun.
      * by apply (dominates_ranks d' n di' i).
Qed.

Lemma is_idom_unique d d' n :
  reachable (gedge g) r n →
  is_idom (gedge g) r d n → is_idom (gedge g) r d' n → d = d'.
Proof.
  intros (i & Hn)%reachable_ranked Hid Hid'.
  destruct (dominates_ranked d n i Hn) as (di & Hd); [apply Hid|].
  destruct (dominates_ranked d' n i Hn) as (di' & Hd'); [apply Hid'|].
  apply (is_idom_ranks d n di i Hd Hn) in Hid.
  apply (is_idom_ranks d' n di' i Hd' Hn) in Hid'.
  pose proof (ranked_lt _ _ Hn).
  assert (di = di') as <- by (by eapply (th idom_unique)).
  by eapply ranked_inj.
Qed.
End transfer.

(** ** What [Dominators] returns *)

(** The nodes in the order of their discovery, the root left out. *)
Definition discovered (lt : lengauerTarjan) : list Node :=
  omap (nodeF (nodes lt)) (seq 1 (length (nodes lt) - 1)).

Lemma omap_filter_nodes (f : nat → option Z) (P : nat → Prop) (Q : Z → Prop)
    `{!∀ v, Decision (P v)} `{!∀ n, Decision (Q n)} (l : list nat) :
  (∀ v n, v ∈ l → f v = Some n → (P v ↔ Q n)) →
  omap f (filter P l) = filter Q (omap f l).
Proof.
  induction l as [|v l IH]; intros HPQ; [done|].
  assert (omap f (filter P l) = filter Q (omap f l)) as IH'.
  { apply IH. intros v' n Hv'. apply HPQ. set_solver. }
  assert (v ∈ v :: l) as Hv by (by left).
  simpl. destruct (f v) as [n|] eqn:Hn.
  - destruct (decide (P v)) as [HP|HP].
    + rewrite filter_cons_True; [|done]. simpl. rewrite Hn.
      rewrite filter_cons_True; [|by apply (HPQ v n Hv Hn)]. by f_equal.
    + rewrite filter_cons_False; [|done].
      rewrite filter_cons_False; [done|]. intros HQ. apply HP.
      by apply (HPQ v n Hv Hn).
  - destruct (decide (P v)).
    + rewrite filter_cons_True; [|done]. simpl. by rewrite Hn.
    + by rewrite filter_cons_False.
Qed.

Lemma omap_pointwise {A B} (f f' : A → option B) (l : list A) :
  (∀ x, f x = f' x) → omap f l = omap f' l.
Proof.
  intros Hf. induction l as [|x l IH]; [done|].
  change (omap f (x :: l)) with (from_option (λ y, y :: omap f l) (omap f l) (f x)).
  change (omap f' (x :: l)) with (from_option (λ y, y :: omap f' l) (omap f' l) (f' x)).
  by rewrite Hf, IH.
Qed.

Lemma Dominators_spec sched r g :
  ∃ lt t, run_dfs r g = Ok lt ∧ Dominators sched r g = Ok t ∧ Root t = r ∧
    indexOf lt !! r = Some 0 ∧
    (∀ n, reachable (gedge g) r n ↔ is_Some (indexOf lt !! n)) ∧
    (∀ n d, DominatorOf t n = Some d ↔
       reachable (gedge g) r n ∧ n ≠ r ∧ is_idom (gedge g) r d n) ∧
    (∀ n d, DominatorOf t n = Some d →
       ∃ i j, indexOf lt !! n = Some i ∧ indexOf lt !! d = Some j ∧ j < i) ∧
    (∀ d, DominatedBy t d
          = filter (λ n, DominatorOf t n = Some d) (discovered lt)) ∧
    (∀ d l, dominatedBy t !! d = Some l → l ≠ []) ∧
    NoDup (discovered lt) ∧
    (∀ n, n ∈ discovered lt ↔ reachable (gedge g) r n ∧ n ≠ r) ∧
    (∀ n, reachable (gedge g) r n → n ≠ r → is_Some (DominatorOf t n)).
Proof.
  destruct (run_correct sched r g) as
    (lt & h1 & h2 & t & Hrun & Hdone & Hst2 & _ & _ & Hidom).
  pose proof Hrun as (Hdfs & _ & _ & Hbuild).
  pose proof Hst2 as [HL2 Hst2'].
  assert (∀ i, nodeF h2 i = nodeF (nodes lt) i) as Hnode.
  { intros i. by destruct (Hst2' i) as (_ & _ & ->). }
  assert (node_inj h2) as Hinj.
  { intros i j v. rewrite !Hnode. by apply (done_node_inj g r lt). }
  assert (∀ v, 0 < v < length (nodes lt) → ∃ d, domF h2 v = Some d ∧ d < v) as Hdlt.
  { intros v Hv. destruct (Hidom v Hv) as [(d & Hd & Hid) _]. exists d. split; [done|].
    eapply (idom_lt (length (nodes lt)) (parF (nodes lt)) (rank_edge lt)
              (done_par_lt g r lt Hdone) (done_par_some g r lt Hdone)
              (done_par_edge g r lt Hdone) (done_edge_bound g r lt Hdone)
              (done_tree_interval g r lt Hdone) (done_edge_forward g r lt Hdone));
      [|exact Hid]. lia. }
  destruct (build_tree_spec r h2 Hinj) as (t' & Hbuild' & Hroot & Hdof & Hdby & Hne).
  { intros v Hv. rewrite HL2 in Hv. destruct (Hdlt v Hv) as (d & Hd & Hlt).
    exists d. split; [done|lia]. }
  assert (t' = t) as -> by congruence.
  (* the dominator recorded for a rank, as a node *)
  assert (∀ v n, 0 < v < length (nodes lt) → ranked lt n v →
            ∃ dv d, domF h2 v = Some dv ∧ dv < v ∧ ranked lt d dv ∧
                    idomN h2 v = Some d ∧ is_idom (gedge g) r d n) as Hnodeidom.
  { intros v n Hv Hn. destruct (Hidom v Hv) as [(dv & Hdv & Hid) _].
    destruct (Hdlt v Hv) as (dv' & Hdv' & Hlt).
    assert (dv' = dv) as -> by congruence.
    destruct (ranked_exists g r lt Hdone dv) as (d & Hd); [lia|].
    exists dv, d. split_and!; [done..| |].
    - unfold idomN. rewrite Hdv. simpl. rewrite Hnode.
      by apply (ranked_node g r lt Hdone).
    - by apply (is_idom_ranks g r lt Hdone d n dv v). }
  assert (∀ n d, dominatorOf t !! n = Some d ↔
            ∃ v, 0 < v < length (nodes lt) ∧ ranked lt n v ∧ idomN h2 v = Some d) as Hdof'.
  { intros n d. rewrite Hdof. rewrite HL2.
    split; intros (v & Hv & Hn & Hi); exists v; (split; [done|]); (split; [|done]).
    - apply (ranked_node g r lt Hdone). by rewrite <-Hnode.
    - rewrite Hnode. by apply (ranked_node g r lt Hdone). }
  assert (∀ n d, DominatorOf t n = Some d ↔
       reachable (gedge g) r n ∧ n ≠ r ∧ is_idom (gedge g) r d n) as Hchar.
  { intros n d. unfold DominatorOf. rewrite Hdof'. split.
    - intros (v & Hv & Hn & Hi).
      destruct (Hnodeidom v n Hv Hn) as (dv & d' & _ & _ & _ & Hi' & Hid).
      assert (d' = d) as -> by congruence.
      split_and!; [|intros ->|done].
      + apply (reachable_ranked g r lt Hdone). by exists v.
      + pose proof (ranked_fun g r lt Hdone _ _ _ Hn (ranked_root g r lt Hdone)). lia.
    - intros (Hreach & Hnr & Hid).
      apply (reachable_ranked g r lt Hdone) in Hreach as Hrk. destruct Hrk as (v & Hn).
      assert (0 < v < length (nodes lt)) as Hv.
      { split; [|by eapply (ranked_lt g r lt Hdone)].
        destruct (decide (v = 0)) as [->|]; [|lia]. destruct Hnr.
        by eapply (ranked_inj g r lt Hdone); [|apply (ranked_root g r lt Hdone)]. }
      destruct (Hnodeidom v n Hv Hn) as (dv & d' & _ & _ & _ & Hi' & Hid').
      exists v. split_and!; [lia|lia|done|].
      by rewrite (is_idom_unique g r lt Hdone d d' n Hreach Hid Hid'). }
  exists lt, t. split_and!.
  - done.
  - by eapply run_states_Dominators.
  - done.
  - by apply (ranked_root g r lt Hdone).
  - intros n. by rewrite (reachable_ranked g r lt Hdone).
  - done.
  - intros n d. unfold DominatorOf. rewrite Hdof'. intros (v & Hv & Hn & Hi).
    destruct (Hnodeidom v n Hv Hn) as (dv & d' & _ & Hlt & Hd' & Hi' & _).
    assert (d' = d) as -> by congruence. by exists v, dv.
  - intros d. unfold DominatedBy, discovered. rewrite Hdby, HL2.
    rewrite (omap_pointwise _ _ _ Hnode).
    apply omap_filter_nodes. intros v n Hv%elem_of_seq Hn.
    unfold DominatorOf. rewrite Hdof'.
    apply (ranked_node g r lt Hdone) in Hn. split.
    + intros Hi. exists v. split_and!; [lia|lia|done..].
    + intros (v' & _ & Hn' & Hi'). by rewrite (ranked_fun g r lt Hdone n v v' Hn Hn').
  - done.
  - apply NoDup_omap_inj; [|apply NoDup_seq].
    intros i j v. by apply (done_node_inj g r lt).
  - intros n. unfold discovered. rewrite list_elem_of_omap. split.
    + intros (v & Hv%elem_of_seq & Hn). apply (ranked_node g r lt Hdone) in Hn. split.
      * apply (reachable_ranked g r lt Hdone). by exists v.
      * intros ->. pose proof (ranked_fun g r lt Hdone _ _ _ Hn (ranked_root g r lt Hdone)). lia.
    + intros [(v & Hn)%(reachable_ranked g r lt Hdone) Hnr]. exists v. split.
      * apply elem_of_seq. pose proof (ranked_lt g r lt Hdone _ _ Hn).
        destruct (decide (v = 0)) as [->|]; [|lia]. destruct Hnr.
        by eapply (ranked_inj g r lt Hdone); [|apply (ranked_root g r lt Hdone)].
      * by apply (ranked_node g r lt Hdone).
  - intros n (v & Hn)%(reachable_ranked g r lt Hdone) Hnr.
    assert (0 < v < length (nodes lt)) as Hv.
    { split; [|by eapply (ranked_lt g r lt Hdone)].
      destruct (decide (v = 0)) as [->|]; [|lia]. destruct Hnr.
      by eapply (ranked_inj g r lt Hdone); [|apply (ranked_root g r lt Hdone)]. }
    destruct (Hnodeidom v n Hv Hn) as (dv & d & _ & _ & _ & Hi & _).
    exists d. unfold DominatorOf. apply Hdof'. by exists v.
Qed.

(** Parallel edges show in the predecessor lists: the record of [b] lists
    the record of [a] once for every occurrence of [b] among the successors
    of [a]. *)
Lemma run_dfs_pred_count r g :
  ∃ lt, run_dfs r g = Ok lt ∧
    ∀ a b i j, indexOf lt !! a = Some i → indexOf lt !! b = Some j →
      cnt i (predF (nodes lt) j) = cnt b (From g a).
Proof.
  destruct (run_dfs_done g r) as (lt & Hdfs & Hdone).
  exists lt. split; [done|]. intros a b i j Ha Hb.
  destruct Hdone as (Hwf & _ & _ & _ & _ & Hcnt). pose proof Hwf as (W1 & _).
  apply W1 in Ha, Hb. by apply (Hcnt i a j b).
Qed.

(** ** Graphs with the same edges *)

Section same_edges.
Context {V : Type} (e1 e2 : V → V → Prop) (He : ∀ a b, e1 a b ↔ e2 a b).

Lemma path_same_edges a l b : path e1 a l b ↔ path e2 a l b.
Proof using He. split; apply path_mono; intros x y; apply He. Qed.

Lemma reachable_same_edges r n : reachable e1 r n ↔ reachable e2 r n.
Proof using He.
  unfold reachable. split; intros (l & Hp); exists l; by apply path_same_edges.
Qed.

Lemma dominates_same_edges r d n : dominates e1 r d n ↔ dominates e2 r d n.
Proof using He.
  unfold dominates. split; intros Hd l Hp; by apply Hd, path_same_edges.
Qed.

Lemma is_idom_same_edges r d n : is_idom e1 r d n ↔ is_idom e2 r d n.
Proof using He.
  unfold is_idom. split; intros (Hne & Hd & Hc); (split; [done|]);
    (split; [by apply dominates_same_edges|]); intros d' Hne' Hd';
    by apply dominates_same_edges, Hc, dominates_same_edges.
Qed.
End same_edges.

(** The forward map depends on the edges only, not on the order or the
    multiplicity of the successors. *)
Lemma Dominators_same_edges sched1 sched2 r g1 g2 :
  (∀ a b, gedge g1 a b ↔ gedge g2 a b) →
  ∃ t1 t2, Dominators sched1 r g1 = Ok t1 ∧ Dominators sched2 r g2 = Ok t2 ∧
    dominatorOf t1 = dominatorOf t2.
Proof.
  intros He.
  destruct (Dominators_spec sched1 r g1) as (lt1 & t1 & _ & Ht1 & _ & _ & _ & Hc1 & _).
  destruct (Dominators_spec sched2 r g2) as (lt2 & t2 & _ & Ht2 & _ & _ & _ & Hc2 & _).
  exists t1, t2. split; [done|]. split; [done|].
  apply map_eq. intros n. apply option_eq. intros d.
  fold (DominatorOf t1 n) (DominatorOf t2 n). rewrite Hc1, Hc2.
  by rewrite (reachable_same_edges _ _ He), (is_idom_same_edges _ _ He).
Qed.

(** The order in which the buckets are emptied does not show in the tree. *)
Lemma Dominators_sched sched1 sched2 r g :
  Dominators sched1 r g = Dominators sched2 r g.
Proof.
  destruct (Dominators_spec sched1 r g) as
    (lt1 & t1 & Hd1 & Ht1 & Hr1 & _ & _ & Hc1 & _ & Hby1 & Hne1 & _).
  destruct (Dominators_spec sched2 r g) as
    (lt2 & t2 & Hd2 & Ht2 & Hr2 & _ & _ & Hc2 & _ & Hby2 & Hne2 & _).
  assert (lt2 = lt1) as -> by congruence.
  rewrite Ht1, Ht2. f_equal.
  assert (∀ n, DominatorOf t1 n = DominatorOf t2 n) as Hof.
  { intros n. apply option_eq. intros d. by rewrite Hc1, Hc2. }
  assert (∀ d, DominatedBy t1 d = DominatedBy t2 d) as Hby.
  { intros d. rewrite Hby1, Hby2. apply list_filter_iff. intros n. by rewrite Hof. }
  destruct t1 as [r1 of1 by1], t2 as [r2 of2 by2]. simpl in *.
  unfold Root in *. simpl in *. subst r1 r2. f_equal.
  - apply map_eq. apply Hof.
  - apply map_eq. intros d. specialize (Hby d). unfold DominatedBy in Hby. simpl in Hby.
    destruct (by1 !! d) as [l1|] eqn:E1, (by2 !! d) as [l2|] eqn:E2; simpl in Hby.
    + by rewrite Hby.
    + subst l1. by destruct (Hne1 d [] E1).
    + subst l2. by destruct (Hne2 d [] E2).
    + done.
Qed.

(** ** The scenario of the diamond with a tail *)

Definition answers (res : result DominatorTree) (ns : list Node) : option (list (option Node)) :=
  match res with
  | Ok t => Some (DominatorOf t <$> ns)
  | Err _ => None
  end.

Lemma diamond_tail_answers :
  answers (Dominators (λ _, []) 0 diamond_tail) [0; 1; 2; 3; 4]%Z
  = Some [None; Some 0; Some 0; Some 0; Some 3]%Z.
Proof. vm_compute. reflexivity. Qed.

Lemma diamond_tail_children :
  (λ res, match res with Ok t => Some (DominatedBy t 0%Z) | Err _ => None end)
    (Dominators (λ _, []) 0 diamond_tail)
  = Some [1; 3; 2]%Z.
Proof. vm_compute. reflexivity. Qed.

(** ** The properties of the specification *)

Lemma cnt_NoDup_elem {A} `{EqDecision A} (x : A) l : NoDup l → x ∈ l → cnt x l = 1.
Proof.
  induction 1 as [|y l Hy Hl IH]; [by intros ?%elem_of_nil|].
  change (y :: l) with ([y] ++ l). rewrite cnt_app, cnt_singleton.
  intros [->|Hx]%elem_of_cons.
  - rewrite decide_True; [|done]. by rewrite cnt_not_elem.
  - rewrite decide_False; [by rewrite IH|]. by intros ->.
Qed.

(** C1.  [Dominators] returns a tree in which [DominatorOf] gives, for every
    node [n] other than the root with a path from the root, the immediate
    dominator of [n]: a node other than [n] on every path from the root to
    [n] that every other such node dominates; and no other node is one. *)
Theorem Dominators_immediate_dominator sched r g :
  ∃ t, Dominators sched r g = Ok t ∧
    ∀ n, reachable (gedge g) r n → n ≠ r →
      ∃ d, DominatorOf t n = Some d ∧ is_idom (gedge g) r d n ∧
           ∀ d', is_idom (gedge g) r d' n → d' = d.
Proof.
  destruct (Dominators_spec sched r g) as
    (lt & t & _ & Ht & _ & _ & _ & Hc & _ & _ & _ & _ & _ & Hex).
  exists t. split; [done|]. intros n Hreach Hnr.
  destruct (Hex n Hreach Hnr) as [d Hd]. exists d. split; [done|].
  pose proof (proj1 (Hc n d) Hd) as (_ & _ & Hid). split; [done|].
  intros d' Hid'. assert (DominatorOf t n = Some d') as Hd' by (by apply Hc).
  congruence.
Qed.

(** C2.  For every node [n] other than the root with a path from the root,
    [DominatorOf] returns one node, and its rank, the position at which
    [dfs] discovered it, is strictly below the rank of [n]. *)
Theorem Dominators_rank_decreases sched r g :
  ∃ lt t, run_dfs r g = Ok lt ∧ Dominators sched r g = Ok t ∧
    ∀ n, reachable (gedge g) r n → n ≠ r →
      ∃ d i j, DominatorOf t n = Some d ∧
        indexOf lt !! n = Some i ∧ indexOf lt !! d = Some j ∧ j < i.
Proof.
  destruct (Dominators_spec sched r g) as
    (lt & t & Hdfs & Ht & _ & _ & _ & _ & Hrank & _ & _ & _ & _ & Hex).
  exists lt, t. split; [done|]. split; [done|]. intros n Hreach Hnr.
  destruct (Hex n Hreach Hnr) as [d Hd].
  destruct (Hrank n d Hd) as (i & j & Hi & Hj & Hlt). by exists d, i, j.
Qed.

(** C3.  The root is never a key of [dominatorOf], so [DominatorOf(root)] is
    nil; it can be a value of [dominatorOf] and a key of [dominatedBy], as in
    the diamond with a tail. *)
Theorem Dominators_root_absent :
  (∀ sched r g, ∃ t, Dominators sched r g = Ok t ∧
     dominatorOf t !! r = None ∧ DominatorOf t r = None) ∧
  (∃ sched r g t n, Dominators sched r g = Ok t ∧
     dominatorOf t !! n = Some r ∧ is_Some (dominatedBy t !! r)).
Proof.
  split.
  - intros sched r g.
    destruct (Dominators_spec sched r g) as (lt & t & _ & Ht & _ & _ & _ & Hc & _).
    exists t. split; [done|].
    assert (DominatorOf t r = None) as Hnone; [|by split].
    destruct (DominatorOf t r) as [d|] eqn:Hd; [|done].
    by apply Hc in Hd as (_ & ? & _).
  - exists (λ _, []), 0%Z, diamond_tail.
    pose proof diamond_tail_answers as Ha. pose proof diamond_tail_children as Hch.
    destruct (Dominators (λ _, []) 0 diamond_tail) as [t|] eqn:Ht; [|done].
    exists t, 1%Z. split; [reflexivity|]. clear Ht.
    simpl in Ha, Hch. injection Ha as _ Ha _. injection Hch as Hch.
    split; [done|].
    unfold DominatedBy in Hch. by destruct (dominatedBy t !! 0%Z).
Qed.

(** C4.  Every key and every value of the two maps of the returned tree is
    a node with a path from the root. *)
Theorem Dominators_reachable_only sched r g :
  ∃ t, Dominators sched r g = Ok t ∧
    (∀ n d, dominatorOf t !! n = Some d →
       reachable (gedge g) r n ∧ reachable (gedge g) r d) ∧
    (∀ d l, dominatedBy t !! d = Some l →
       reachable (gedge g) r d ∧ ∀ n, n ∈ l → reachable (gedge g) r n).
Proof.
  destruct (Dominators_spec sched r g) as
    (lt & t & _ & Ht & _ & _ & Hreach & Hc & Hrank & Hby & Hne & _).
  assert (∀ n d, dominatorOf t !! n = Some d →
            reachable (gedge g) r n ∧ reachable (gedge g) r d) as Hof.
  { intros n d Hd. split; [by apply (Hc n d)|].
    destruct (Hrank n d Hd) as (i & j & _ & Hj & _). apply Hreach. by exists j. }
  exists t. split; [done|]. split; [done|].
  intros d l Hl.
  assert (∀ n, n ∈ l → dominatorOf t !! n = Some d) as Hin.
  { intros n Hn. specialize (Hby d). unfold DominatedBy in Hby. rewrite Hl in Hby.
    simpl in Hby. rewrite Hby in Hn. by apply list_elem_of_filter in Hn as [? _]. }
  split.
  - destruct l as [|n l]; [by destruct (Hne d [] Hl)|].
    apply (Hof n d). apply Hin. by left.
  - intros n Hn. by apply (Hof n d), Hin.
Qed.

(** C5.  Step 4 visits the records in increasing rank.  It replaces [w.dom]
    by [w.dom.dom] exactly when the rank of [w.dom] is not [w.semi], and this
    one hop is enough: afterwards [w.dom] is the record of the immediate
    dominator of the node of [w], for every record but the root's, and every
    node other than the root with a path from the root has such a record. *)
Theorem step4_one_hop sched r g :
  ∃ lt h1 h2, run_dfs r g = Ok lt ∧ steps23 sched (nodes lt) = Ok h1 ∧
    step4 h1 = Ok h2 ∧
    (∀ w, 0 < w < length h1 →
       domF h2 w = (if decide (domF h1 w = Some (semiF h1 w)) then domF h1 w
                    else domF h1 w ≫= domF h2) ∧
       ∃ d n dn, domF h2 w = Some d ∧ nodeF h2 w = Some n ∧
                 nodeF h2 d = Some dn ∧ is_idom (gedge g) r dn n) ∧
    (∀ n, reachable (gedge g) r n → n ≠ r →
       ∃ w, 0 < w < length h1 ∧ nodeF h2 w = Some n).
Proof.
  destruct (run_correct sched r g) as
    (lt & h1 & h2 & t & (Hdfs & H23 & H4 & _) & Hdone & Hst2 & Hst1 & _ & Hidom).
  pose proof Hst2 as [HL2 Hst2']. pose proof Hst1 as [HL1 _].
  assert (∀ i, nodeF h2 i = nodeF (nodes lt) i) as Hnode.
  { intros i. by destruct (Hst2' i) as (_ & _ & ->). }
  exists lt, h1, h2. split_and!; [done..| |].
  - intros w Hw. rewrite HL1 in Hw. destruct (Hidom w Hw) as [(d & Hd & Hid) Hform].
    split; [done|].
    destruct (ranked_exists g r lt Hdone w) as (n & Hn); [lia|].
    assert (d < w) as Hdw.
    { eapply (idom_lt (length (nodes lt)) (parF (nodes lt)) (rank_edge lt)
                (done_par_lt g r lt Hdone) (done_par_some g r lt Hdone)
                (done_par_edge g r lt Hdone) (done_edge_bound g r lt Hdone)
                (done_tree_interval g r lt Hdone) (done_edge_forward g r lt Hdone));
        [|exact Hid]. lia. }
    destruct (ranked_exists g r lt Hdone d) as (dn & Hdn); [lia|].
    exists d, n, dn. rewrite !Hnode. split_and!; [done| | |].
    + by apply (ranked_node g r lt Hdone).
    + by apply (ranked_node g r lt Hdone).
    + by apply (is_idom_ranks g r lt Hdone dn n d w).
  - intros n (w & Hn)%(reachable_ranked g r lt Hdone) Hnr. exists w.
    rewrite Hnode, HL1. split; [|by apply (ranked_node g r lt Hdone)].
    split; [|by eapply (ranked_lt g r lt Hdone)].
    destruct (decide (w = 0)) as [->|]; [|lia]. destruct Hnr.
    by eapply (ranked_inj g r lt Hdone); [|apply (ranked_root g r lt Hdone)].
Qed.

(** C6.  On the diamond with a tail, root→A, root→B, A→C, B→C, C→D (root =
    0, A = 1, B = 2, C = 3, D = 4), the dominators of A, B and C are the root
    and the dominator of D is C. *)
Theorem Dominators_diamond_tail sched :
  ∃ t, Dominators sched 0 diamond_tail = Ok t ∧
    DominatorOf t 1 = Some 0%Z ∧ DominatorOf t 2 = Some 0%Z ∧
    DominatorOf t 3 = Some 0%Z ∧ DominatorOf t 4 = Some 3%Z.
Proof.
  rewrite (Dominators_sched sched (λ _, [])).
  pose proof diamond_tail_answers as Ha.
  destruct (Dominators (λ _, []) 0 diamond_tail) as [t|] eqn:Ht; [|done].
  simpl in Ha. clear Ht. injection Ha as _ H1 H2 H3 H4. by exists t.
Qed.

(** C7.  Two runs on the same root and graph, whatever the order in which
    each empties its buckets, give the same [dominatorOf] map and
    [dominatedBy] maps with the same keys and, under each key, the same
    nodes. *)
Theorem Dominators_idempotent sched1 sched2 r g :
  ∃ t1 t2, Dominators sched1 r g = Ok t1 ∧ Dominators sched2 r g = Ok t2 ∧
    dominatorOf t1 = dominatorOf t2 ∧
    (∀ k, is_Some (dominatedBy t1 !! k) ↔ is_Some (dominatedBy t2 !! k)) ∧
    (∀ k, DominatedBy t1 k ≡ₚ DominatedBy t2 k).
Proof.
  destruct (Dominators_spec sched1 r g) as (lt & t & _ & Ht & _).
  exists t, t. split; [done|]. split; [|done].
  by rewrite <-(Dominators_sched sched1 sched2).
Qed.

(** C8.  The panic of [dfs] is never reached, and the search from any root
    returns.  One round of the loop over the successors, run with any
    procedure in place of the recursive call, panics exactly when the call
    returns without the successor in the index; a failure of the call is
    passed on; a procedure that indexes nothing makes the round panic. *)
Theorem dfs_never_uninitialized :
  (∀ fuel g v lt, dfs fuel g v lt ≠ Err UninitializedNode) ∧
  (∀ r g, ∃ lt, run_dfs r g = Ok lt) ∧
  (∀ rec ltv lt w lt', indexOf lt !! w = None → rec w lt = Ok lt' →
     (dfs_edge rec ltv lt w = Err UninitializedNode ↔ indexOf lt' !! w = None)) ∧
  (∀ rec ltv lt w e, indexOf lt !! w = None → rec w lt = Err e →
     dfs_edge rec ltv lt w = Err e) ∧
  dfs_edge (λ _ lt, Ok lt) 0 (LT [] ∅) 5 = Err UninitializedNode.
Proof.
  split_and!.
  - intros fuel g v lt. apply dfs_initialized.
  - intros r g. destruct (run_dfs_done g r) as (lt & Hdfs & _). by exists lt.
  - intros rec ltv lt w lt' Hw Hrec. unfold dfs_edge, check_initialized.
    rewrite Hw, Hrec. simpl. destruct (indexOf lt' !! w) as [idx|] eqn:Hidx; simpl.
    + split; [|done]. unfold load.
      destruct (nodes lt' !! idx) as [nd|] eqn:Hnd; simpl; [|done].
      by rewrite (store_lookup_eq idx), Hnd.
    + done.
  - intros rec ltv lt w e Hw Hrec. unfold dfs_edge. by rewrite Hw, Hrec.
  - done.
Qed.

(** C9.  The two maps are inverse to each other: [n] is in the list of [d]
    exactly when [d] is the entry of [n]; and every node other than the root
    with a path from the root is in the list of one node only, once. *)
Theorem Dominators_maps_inverse sched r g :
  ∃ t, Dominators sched r g = Ok t ∧
    (∀ d n, n ∈ DominatedBy t d ↔ DominatorOf t n = Some d) ∧
    (∀ n, reachable (gedge g) r n → n ≠ r →
       ∃ d, (∀ d', n ∈ DominatedBy t d' ↔ d' = d) ∧
            cnt n (DominatedBy t d) = 1).
Proof.
  destruct (Dominators_spec sched r g) as
    (lt & t & _ & Ht & _ & _ & _ & Hc & _ & Hby & _ & Hnd & Hdisc & Hex).
  assert (∀ d n, n ∈ DominatedBy t d ↔ DominatorOf t n = Some d) as Hinv.
  { intros d n. rewrite Hby, list_elem_of_filter. split; [by intros [? _]|].
    intros Hd. split; [done|]. apply Hdisc. by apply Hc in Hd as (? & ? & _). }
  exists t. split; [done|]. split; [done|].
  intros n Hreach Hnr. destruct (Hex n Hreach Hnr) as [d Hd]. exists d. split.
  - intros d'. rewrite Hinv. split; [congruence|by intros ->].
  - apply cnt_NoDup_elem; [|by apply Hinv].
    rewrite Hby. by apply NoDup_filter.
Qed.

(** C10.  Parallel edges do not change the forward map: it is the one
    computed on the graph whose successor lists have their duplicates
    removed, although each occurrence of [b] among the successors of [a] is
    one more entry for [a] in the predecessor list of [b]. *)
Theorem Dominators_parallel_edges sched r g :
  (∃ t t', Dominators sched r g = Ok t ∧
     Dominators sched r (remove_dups <$> g) = Ok t' ∧
     dominatorOf t = dominatorOf t') ∧
  (∃ lt, run_dfs r g = Ok lt ∧
     ∀ a b i j, indexOf lt !! a = Some i → indexOf lt !! b = Some j →
       cnt i (predF (nodes lt) j) = cnt b (From g a)).
Proof.
  split; [|apply run_dfs_pred_count].
  apply Dominators_same_edges. intros a b. unfold gedge, From.
  rewrite lookup_fmap. destruct (g !! a) as [ws|]; simpl; [|done].
  by rewrite elem_of_remove_dups.
Qed.

(** * Further properties of the code *)

(** ** The tree as a whole *)

(** [climbs t n d]: following [DominatorOf] from [n], zero or more times,
    leads to [d]. *)
Inductive climbs (t : DominatorTree) : Node → Node → Prop :=
  | climbs_refl n : climbs t n n
  | climbs_step n m d : DominatorOf t n = Some m → climbs t m d → climbs t n d.

Lemma dominates_trans {V} (edge : V → V → Prop) r a b c :
  dominates edge r a b → dominates edge r b c → dominates edge r a c.
Proof.
  intros Hab Hbc l Hp. pose proof (Hbc l Hp) as Hin.
  apply list_elem_of_split in Hin as (l1 & l2 & Heq).
  destruct (path_split_at _ _ _ _ _ _ _ Hp Heq) as (l0 & Hl0 & Hp0 & _).
  pose proof (Hab l0 Hp0) as Ha. rewrite Hl0 in Ha. rewrite Heq.
  apply elem_of_app in Ha as [Ha|Ha%list_elem_of_singleton].
  - apply elem_of_app. by left.
  - subst a. apply elem_of_app. right. by left.
Qed.

Lemma dominates_self {V} (edge : V → V → Prop) r n : dominates edge r n n.
Proof. intros l Hp. by eapply path_end_in. Qed.

Lemma dominates_root {V} (edge : V → V → Prop) r n : dominates edge r r n.
Proof. intros l Hp. by left. Qed.

Lemma dominates_of_root {V} (edge : V → V → Prop) r d : dominates edge r d r → d = r.
Proof.
  intros Hd. specialize (Hd [] (path_nil _ _)). by apply list_elem_of_singleton in Hd.
Qed.

(** The search that [Dominators] starts with, and what it leaves. *)
Lemma run_dfs_is_done r g lt : run_dfs r g = Ok lt → dfs_done g r lt.
Proof.
  intros Hdfs. destruct (run_dfs_done g r) as (lt' & Hdfs' & Hdone). congruence.
Qed.

(** X1.  The tree holds the whole dominance relation: for a node [n] with a
    path from the root, [d] dominates [n] exactly when following
    [DominatorOf] from [n] leads to [d]; the chain from [n] ends in the
    node that [Root] returns, which is the root passed in. *)
Theorem Dominators_dominance_chain sched r g :
  ∃ t, Dominators sched r g = Ok t ∧ Root t = r ∧
    ∀ n, reachable (gedge g) r n →
      climbs t n (Root t) ∧
      ∀ d, dominates (gedge g) r d n ↔ climbs t n d.
Proof.
  destruct (Dominators_spec sched r g) as
    (lt & t & _ & Ht & Hroot & _ & Hreach & Hc & Hrank & _ & _ & _ & _ & Hex).
  assert (∀ i n d, indexOf lt !! n = Some i →
            dominates (gedge g) r d n → climbs t n d) as Hfwd.
  { intros i. induction i as [i IH] using lt_wf_ind. intros n d Hi Hdom.
    destruct (decide (d = n)) as [->|Hdn]; [constructor|].
    destruct (decide (n = r)) as [->|Hnr].
    { by apply dominates_of_root in Hdom. }
    assert (reachable (gedge g) r n) as Hn by (apply Hreach; eauto).
    destruct (Hex n Hn Hnr) as [d0 Hd0].
    destruct (Hrank n d0 Hd0) as (i' & j & Hi' & Hj & Hlt).
    assert (i' = i) as -> by congruence.
    apply Hc in Hd0 as Hid. destruct Hid as (_ & _ & _ & _ & Hclose).
    eapply climbs_step; [done|]. apply (IH j Hlt); [done|]. by apply Hclose. }
  assert (∀ n d, climbs t n d → dominates (gedge g) r d n) as Hbwd.
  { intros n d. induction 1 as [n|n m d Hm _ IH]; [apply dominates_self|].
    apply Hc in Hm as (_ & _ & _ & Hdom & _). by eapply dominates_trans. }
  exists t. split; [done|]. split; [done|]. intros n Hn.
  apply Hreach in Hn as [i Hi]. split.
  - rewrite Hroot. apply (Hfwd i); [done|]. apply dominates_root.
  - intros d. split; [by apply (Hfwd i)|apply Hbwd].
Qed.

(** X2.  The immediate dominator of a node is a proper ancestor of it in the
    spanning tree of the search. *)
Theorem Dominators_dominator_is_ancestor sched r g :
  ∃ lt t, run_dfs r g = Ok lt ∧ Dominators sched r g = Ok t ∧
    ∀ n d, DominatorOf t n = Some d →
      ∃ i j, indexOf lt !! n = Some i ∧ indexOf lt !! d = Some j ∧
             j ≠ i ∧ anc (parF (nodes lt)) j i.
Proof.
  destruct (Dominators_spec sched r g) as
    (lt & t & Hdfs & Ht & _ & _ & _ & Hc & Hrank & _).
  pose proof (run_dfs_is_done r g lt Hdfs) as Hdone.
  exists lt, t. split; [done|]. split; [done|]. intros n d Hd.
  destruct (Hrank n d Hd) as (i & j & Hi & Hj & Hlt). exists i, j.
  split; [done|]. split; [done|]. split; [lia|].
  apply Hc in Hd as (_ & _ & Hid).
  pose proof (proj2 (is_idom_ranks g r lt Hdone d n j i Hj Hi) Hid) as (_ & Hdom & _).
  eapply (dominates_anc (length (nodes lt)) (parF (nodes lt)) (rank_edge lt)
            (done_par_lt g r lt Hdone) (done_par_some g r lt Hdone)
            (done_par_edge g r lt Hdone) (done_edge_bound g r lt Hdone)
            (done_tree_interval g r lt Hdone) (done_edge_forward g r lt Hdone));
    [|exact Hdom].
  by eapply (ranked_lt g r lt Hdone).
Qed.

Lemma filter_omap_sorted (f : nat → option Z) (P : Z → Prop) `{!∀ x, Decision (P x)}
    (l : list nat) a b n m :
  StronglySorted lt l → a < b →
  filter P (omap f l) !! a = Some n → filter P (omap f l) !! b = Some m →
  ∃ i j, i < j ∧ f i = Some n ∧ f j = Some m.
Proof.
  revert a b. induction l as [|x l IH]; intros a b Hs Hab Ha Hb.
  { done. }
  apply StronglySorted_inv in Hs as [Hs Hx]. specialize (λ a b, IH a b Hs).
  simpl in Ha, Hb. destruct (f x) as [v|] eqn:Hv; [|by eapply IH].
  destruct (decide (P v)) as [HP|HP].
  - rewrite filter_cons_True in Ha, Hb by done.
    destruct b as [|b]; [lia|]. simpl in Hb. destruct a as [|a].
    + injection Ha as <-.
      apply list_elem_of_lookup_2, list_elem_of_filter in Hb as [_ Hb].
      apply list_elem_of_omap in Hb as (j & Hj & Hfj).
      exists x, j. split; [|done]. rewrite Forall_forall in Hx. by apply Hx.
    + simpl in Ha. apply (IH a b); [lia|done..].
  - rewrite filter_cons_False in Ha, Hb by done. by eapply IH.
Qed.

Lemma seq_sorted a n : StronglySorted lt (seq a n).
Proof.
  revert a. induction n as [|n IH]; intros a; simpl; constructor; [done|].
  apply Forall_forall. intros x Hx%elem_of_seq. lia.
Qed.

(** X3.  [DominatedBy] lists the nodes a node immediately dominates in the
    order in which the search discovered them: an earlier element of the
    slice has the smaller number. *)
Theorem DominatedBy_discovery_order sched r g :
  ∃ lt t, run_dfs r g = Ok lt ∧ Dominators sched r g = Ok t ∧
    ∀ d a b n m, a < b →
      DominatedBy t d !! a = Some n → DominatedBy t d !! b = Some m →
      ∃ i j, indexOf lt !! n = Some i ∧ indexOf lt !! m = Some j ∧ i < j.
Proof.
  destruct (Dominators_spec sched r g) as
    (lt & t & Hdfs & Ht & _ & _ & _ & _ & _ & Hby & _).
  pose proof (run_dfs_is_done r g lt Hdfs) as Hdone.
  exists lt, t. split; [done|]. split; [done|]. intros d a b n m Hab.
  rewrite Hby. unfold discovered. intros Ha Hb.
  destruct (filter_omap_sorted _ _ _ a b n m (seq_sorted _ _) Hab Ha Hb)
    as (i & j & Hij & Hi & Hj).
  exists i, j. split_and!; [|  |done]; by apply (ranked_node g r lt Hdone).
Qed.

(** X4.  [dominatedBy] has a key exactly for the nodes that are the
    immediate dominator of some node, and never holds an empty slice;
    [DominatedBy] is nil for every other node. *)
Theorem dominatedBy_keys sched r g :
  ∃ t, Dominators sched r g = Ok t ∧
    (∀ d, is_Some (dominatedBy t !! d) ↔ ∃ n, DominatorOf t n = Some d) ∧
    (∀ d, dominatedBy t !! d ≠ Some []) ∧
    (∀ d, DominatedBy t d = [] ↔ ∀ n, DominatorOf t n ≠ Some d).
Proof.
  destruct (Dominators_spec sched r g) as
    (lt & t & _ & Ht & _ & _ & _ & Hc & _ & Hby & Hne & _ & Hdisc & _).
  assert (∀ d n, n ∈ DominatedBy t d ↔ DominatorOf t n = Some d) as Hinv.
  { intros d n. rewrite Hby, list_elem_of_filter. split; [by intros [? _]|].
    intros Hd. split; [done|]. apply Hdisc. by apply Hc in Hd as (? & ? & _). }
  exists t. split; [done|]. split_and!.
  - intros d. split.
    + intros [l Hl]. pose proof (Hne d l Hl) as Hnil.
      destruct l as [|n l]; [done|]. exists n. apply Hinv.
      unfold DominatedBy. rewrite Hl. simpl. by left.
    + intros (n & Hn%Hinv). unfold DominatedBy in Hn.
      destruct (dominatedBy t !! d) as [l|]; [done|].
      by apply elem_of_nil in Hn.
  - intros d Hd. by apply (Hne d []).
  - intros d. split.
    + intros Hnil n Hn%Hinv. rewrite Hnil in Hn. by apply elem_of_nil in Hn.
    + intros Hno. destruct (DominatedBy t d) as [|n l] eqn:E; [done|].
      destruct (Hno n). apply Hinv. rewrite E. by left.
Qed.

Lemma path_stuck {V} (edge : V → V → Prop) r l n :
  (∀ w, edge r w → w = r) → path edge r l n → n = r.
Proof.
  intros Hr. induction 1 as [a|a c l b He Hp IH]; [done|].
  apply Hr in He as ->. by apply IH.
Qed.

(** X5.  When the root has no successor but itself, both maps of the tree
    are empty. *)
Theorem Dominators_root_alone sched r g :
  (∀ w, w ∈ From g r → w = r) →
  ∃ t, Dominators sched r g = Ok t ∧ Root t = r ∧
    dominatorOf t = ∅ ∧ dominatedBy t = ∅.
Proof.
  intros Hr.
  destruct (Dominators_spec sched r g) as
    (lt & t & _ & Ht & Hroot & _ & _ & Hc & _ & Hby & Hne & _).
  assert (∀ n, DominatorOf t n = None) as Hnone.
  { intros n. destruct (DominatorOf t n) as [d|] eqn:Hd; [|done].
    apply Hc in Hd as ((l & Hp) & Hnr & _).
    destruct Hnr. by eapply (path_stuck (gedge g)). }
  exists t. split; [done|]. split; [done|]. split.
  - apply map_eq. intros n. rewrite lookup_empty. apply Hnone.
  - apply map_eq. intros d. rewrite lookup_empty.
    destruct (dominatedBy t !! d) as [l|] eqn:Hl; [|done].
    pose proof (Hne d l Hl) as Hnil. destruct l as [|n l]; [done|].
    assert (n ∈ DominatedBy t d) as Hn.
    { unfold DominatedBy. rewrite Hl. by left. }
    rewrite Hby in Hn. apply list_elem_of_filter in Hn as [Hn _].
    by rewrite Hnone in Hn.
Qed.

Lemma Dominators_root_alone_witness :
  ∃ t, Dominators (λ _, []) 7 {[ 7%Z := [7%Z] ]} = Ok t ∧ Root t = 7%Z ∧
    dominatorOf t = ∅ ∧ dominatedBy t = ∅.
Proof.
  apply (Dominators_root_alone (λ _, []) 7 {[ 7%Z := [7%Z] ]}).
  intros w. unfold From. rewrite lookup_singleton_eq. simpl.
  by intros ->%list_elem_of_singleton.
Defined.

(** Two edge relations with the same nodes in reach of the root and the
    same dominance give the same tree, up to the order of the slices. *)
Lemma is_idom_same_dominance {V} (e1 e2 : V → V → Prop) r :
  (∀ d n, dominates e1 r d n ↔ dominates e2 r d n) →
  ∀ d n, is_idom e1 r d n ↔ is_idom e2 r d n.
Proof.
  intros Hd d n. unfold is_idom. split; intros (Hne & Hdom & Hc);
    (split; [done|]); (split; [by apply Hd|]); intros d' Hne' Hd';
    by apply Hd, Hc, Hd.
Qed.

Lemma Dominators_same_dominance sched1 sched2 r g1 g2 :
  (∀ n, reachable (gedge g1) r n ↔ reachable (gedge g2) r n) →
  (∀ d n, dominates (gedge g1) r d n ↔ dominates (gedge g2) r d n) →
  ∃ t1 t2, Dominators sched1 r g1 = Ok t1 ∧ Dominators sched2 r g2 = Ok t2 ∧
    (∀ n, DominatorOf t1 n = DominatorOf t2 n) ∧
    (∀ d, DominatedBy t1 d ≡ₚ DominatedBy t2 d) ∧
    (∀ d, NoDup (DominatedBy t1 d)).
Proof.
  intros Hr Hd.
  destruct (Dominators_spec sched1 r g1) as
    (lt1 & t1 & _ & Ht1 & _ & _ & _ & Hc1 & _ & Hby1 & _ & Hnd1 & Hdisc1 & _).
  destruct (Dominators_spec sched2 r g2) as
    (lt2 & t2 & _ & Ht2 & _ & _ & _ & Hc2 & _ & Hby2 & _ & Hnd2 & Hdisc2 & _).
  assert (∀ n, DominatorOf t1 n = DominatorOf t2 n) as Hof.
  { intros n. apply option_eq. intros d. rewrite Hc1, Hc2.
    by rewrite Hr, (is_idom_same_dominance _ _ r Hd). }
  exists t1, t2. split; [done|]. split; [done|]. split; [done|]. split.
  - intros d. rewrite Hby1, Hby2. apply NoDup_Permutation.
    + by apply NoDup_filter.
    + by apply NoDup_filter.
    + intros n. by rewrite !list_elem_of_filter, Hdisc1, Hdisc2, Hof, Hr.
  - intros d. rewrite Hby1. by apply NoDup_filter.
Qed.

Lemma reachable_last {V} (e : V → V → Prop) r n :
  reachable e r n → n = r ∨ ∃ m, e m n.
Proof.
  intros (l & Hp). destruct (path_end _ _ _ _ Hp) as [[_ ->]|(l' & ->)]; [by left|].
  apply path_snoc_inv in Hp as (_ & x & _ & Hx). right. by exists x.
Qed.

Section reach_edges.
Context {V : Type} (e1 e2 : V → V → Prop) (r : V).
Context (He : ∀ a, reachable e1 r a → ∀ b, e1 a b ↔ e2 a b).

Lemma path_reach_fwd l0 a l n :
  path e1 r l0 a → path e1 a l n → path e2 a l n.
Proof using He.
  intros Ha Hp. revert l0 Ha. induction Hp as [a|a c l n Hac Hp IH]; intros l0 Ha.
  - constructor.
  - constructor; [apply He; [by exists l0|done]|].
    apply (IH (l0 ++ [c])). by eapply path_snoc.
Qed.

Lemma path_reach_bwd l0 a l n :
  path e1 r l0 a → path e2 a l n → path e1 a l n.
Proof using He.
  intros Ha Hp. revert l0 Ha. induction Hp as [a|a c l n Hac Hp IH]; intros l0 Ha.
  - constructor.
  - assert (e1 a c) as Hac' by (apply He; [by exists l0|done]).
    constructor; [done|]. apply (IH (l0 ++ [c])). by eapply path_snoc.
Qed.

Lemma path_reach l n : path e1 r l n ↔ path e2 r l n.
Proof using He.
  split; [apply (path_reach_fwd [])|apply (path_reach_bwd [])]; constructor.
Qed.

Lemma reachable_reach n : reachable e1 r n ↔ reachable e2 r n.
Proof using He.
  unfold reachable. split; intros (l & Hp); exists l; by apply path_reach.
Qed.

Lemma dominates_reach d n : dominates e1 r d n ↔ dominates e2 r d n.
Proof using He.
  unfold dominates. split; intros Hd l Hp; by apply Hd, path_reach.
Qed.
End reach_edges.

(** X6.  The tree depends only on the edges that leave the nodes in reach of
    the root: two graphs in which those nodes have the same successors,
    whatever their order and multiplicity and whatever the rest of the
    graphs, give the same [DominatorOf], and [DominatedBy] slices with the
    same elements, each once. *)
Theorem Dominators_reachable_edges_only sched1 sched2 r g1 g2 :
  (∀ a, reachable (gedge g1) r a → ∀ b, b ∈ From g1 a ↔ b ∈ From g2 a) →
  ∃ t1 t2, Dominators sched1 r g1 = Ok t1 ∧ Dominators sched2 r g2 = Ok t2 ∧
    (∀ n, DominatorOf t1 n = DominatorOf t2 n) ∧
    (∀ d, DominatedBy t1 d ≡ₚ DominatedBy t2 d) ∧
    (∀ d, NoDup (DominatedBy t1 d)).
Proof.
  intros He. apply Dominators_same_dominance.
  - intros n. by apply reachable_reach.
  - intros d n. by apply dominates_reach.
Qed.

Lemma Dominators_reachable_edges_only_witness :
  ∃ t1 t2,
    Dominators (λ _, []) 0 {[ 0%Z := [1%Z; 2%Z] ]} = Ok t1 ∧
    Dominators (λ _, []) 0 {[ 0%Z := [2%Z; 1%Z; 2%Z]; 5%Z := [1%Z] ]} = Ok t2 ∧
    (∀ n, DominatorOf t1 n = DominatorOf t2 n) ∧
    (∀ d, DominatedBy t1 d ≡ₚ DominatedBy t2 d) ∧
    (∀ d, NoDup (DominatedBy t1 d)).
Proof.
  apply (Dominators_reachable_edges_only (λ _, []) (λ _, []) 0
           {[ 0%Z := [1%Z; 2%Z] ]} {[ 0%Z := [2%Z; 1%Z; 2%Z]; 5%Z := [1%Z] ]}).
  intros a Ha b. unfold From. destruct (decide (a = 0%Z)) as [->|Ha0].
  - rewrite lookup_singleton_eq, lookup_insert_eq. simpl. set_solver.
  - rewrite lookup_singleton_ne by done. rewrite lookup_insert_ne by done.
    destruct (decide (a = 5%Z)) as [->|Ha5]; [|by rewrite lookup_singleton_ne].
    exfalso. apply reachable_last in Ha as [?|(m & Hm)]; [done|].
    unfold gedge, From in Hm. destruct (decide (m = 0%Z)) as [->|Hm0].
    + rewrite lookup_singleton_eq in Hm. simpl in Hm. set_solver.
    + rewrite lookup_singleton_ne in Hm by done. simpl in Hm. set_solver.
Defined.

Section self_loops.
Context {V : Type} `{EqDecision V} (e1 e2 : V → V → Prop) (r : V).
Context (He : ∀ a b, e2 a b ↔ e1 a b ∧ a ≠ b).

Lemma path_drop_loops a l n :
  path e1 a l n → ∃ l', path e2 a l' n ∧ l' ⊆ l.
Proof using He EqDecision0.
  induction 1 as [a|a c l b Hac Hp (l' & Hp' & Hsub)].
  - exists []. split; [constructor|done].
  - destruct (decide (a = c)) as [->|Hne].
    + exists l'. split; [done|]. set_solver.
    + exists (c :: l'). split; [|set_solver].
      constructor; [by apply He|done].
Qed.

Lemma path_keep_loops a l n : path e2 a l n → path e1 a l n.
Proof using He. apply path_mono. intros x y. by intros [? _]%He. Qed.

Lemma reachable_loops n : reachable e1 r n ↔ reachable e2 r n.
Proof using He EqDecision0.
  split; intros (l & Hp).
  - destruct (path_drop_loops _ _ _ Hp) as (l' & Hp' & _). by exists l'.
  - exists l. by apply path_keep_loops.
Qed.

Lemma dominates_loops d n : dominates e1 r d n ↔ dominates e2 r d n.
Proof using He EqDecision0.
  split; intros Hd l Hp.
  - by apply Hd, path_keep_loops.
  - destruct (path_drop_loops _ _ _ Hp) as (l' & Hp' & Hsub).
    specialize (Hd l' Hp'). set_solver.
Qed.
End self_loops.

(** X7.  Edges from a node to itself have no part in the result: a graph
    and the same graph without them give the same [DominatorOf], and
    [DominatedBy] slices with the same elements. *)
Theorem Dominators_self_loops sched1 sched2 r g1 g2 :
  (∀ a b, b ∈ From g2 a ↔ b ∈ From g1 a ∧ a ≠ b) →
  ∃ t1 t2, Dominators sched1 r g1 = Ok t1 ∧ Dominators sched2 r g2 = Ok t2 ∧
    (∀ n, DominatorOf t1 n = DominatorOf t2 n) ∧
    (∀ d, DominatedBy t1 d ≡ₚ DominatedBy t2 d) ∧
    (∀ d, NoDup (DominatedBy t1 d)).
Proof.
  intros He. apply Dominators_same_dominance.
  - intros n. by apply (reachable_loops (gedge g1) (gedge g2)).
  - intros d n. by apply (dominates_loops (gedge g1) (gedge g2)).
Qed.

Lemma Dominators_self_loops_witness :
  ∃ t1 t2,
    Dominators (λ _, []) 0 {[ 0%Z := [0%Z; 1%Z]; 1%Z := [1%Z; 0%Z] ]} = Ok t1 ∧
    Dominators (λ _, []) 0 {[ 0%Z := [1%Z]; 1%Z := [0%Z] ]} = Ok t2 ∧
    (∀ n, DominatorOf t1 n = DominatorOf t2 n) ∧
    (∀ d, DominatedBy t1 d ≡ₚ DominatedBy t2 d) ∧
    (∀ d, NoDup (DominatedBy t1 d)).
Proof.
  apply (Dominators_self_loops (λ _, []) (λ _, []) 0
           {[ 0%Z := [0%Z; 1%Z]; 1%Z := [1%Z; 0%Z] ]}
           {[ 0%Z := [1%Z]; 1%Z := [0%Z] ]}).
  intros a b. unfold From. destruct (decide (a = 0%Z)) as [->|Ha0].
  - rewrite !lookup_insert_eq. simpl. set_solver.
  - rewrite !lookup_insert_ne by done. destruct (decide (a = 1%Z)) as [->|Ha1].
    + rewrite !lookup_singleton_eq. simpl. set_solver.
    + rewrite !lookup_singleton_ne by done. simpl. set_solver.
Defined.

(** ** The search *)

(** X8.  The search numbers exactly the nodes with a path from the root,
    densely and one to one: the root gets number 0, [indexOf] and [nodes]
    are inverse to each other, every number below [len(nodes)] is used, and
    [indexOf] has as many keys as [nodes] has records. *)
Theorem run_dfs_numbering r g :
  ∃ lt, run_dfs r g = Ok lt ∧
    indexOf lt !! r = Some 0 ∧
    (∀ n i, indexOf lt !! n = Some i ↔ nodeF (nodes lt) i = Some n) ∧
    (∀ i, i < length (nodes lt) ↔ ∃ n, indexOf lt !! n = Some i) ∧
    (∀ n, is_Some (indexOf lt !! n) ↔ reachable (gedge g) r n) ∧
    size (indexOf lt) = length (nodes lt).
Proof.
  destruct (run_dfs_done g r) as (lt & Hdfs & Hdone). exists lt. split; [done|].
  pose proof Hdone as ((W1 & _) & H0 & _).
  split; [by apply W1|]. split; [apply W1|].
  assert (∀ i, i < length (nodes lt) ↔ ∃ n, indexOf lt !! n = Some i) as Hdense.
  { intros i. rewrite nodeF_lt. split; intros [n Hn]; exists n; by apply W1. }
  split; [done|]. split.
  { intros n. by rewrite (reachable_ranked g r lt Hdone). }
  rewrite <-length_map_to_list, <-(length_fmap snd).
  transitivity (length (seq 0 (length (nodes lt)))); [|apply length_seq].
  apply Permutation_length.
  apply NoDup_Permutation.
  - apply NoDup_fmap_2_strong; [|apply NoDup_map_to_list].
    intros [n i] [m j] Hn%elem_of_map_to_list Hm%elem_of_map_to_list. simpl.
    intros ->. f_equal. by apply (ranked_inj g r lt Hdone n m j).
  - apply NoDup_seq.
  - intros i. rewrite elem_of_seq, list_elem_of_fmap. split.
    + intros ([n j] & -> & Hn%elem_of_map_to_list). simpl.
      split; [lia|]. apply Hdense. by exists n.
    + intros [_ Hi]. apply Hdense in Hi as [n Hn].
      exists (n, i). split; [done|]. by apply elem_of_map_to_list.
Qed.

(** X9.  The [parent] pointers form the spanning tree of the search: the
    root has none; every other record has a parent of smaller number from
    whose node an edge of the graph leads to its own; the records numbered
    between a parent and its child are descendants of the parent; every
    record descends from the root; and an edge of the graph to a higher
    number leads to a descendant. *)
Theorem run_dfs_spanning_tree r g :
  ∃ lt, run_dfs r g = Ok lt ∧
    parF (nodes lt) 0 = None ∧
    (∀ c, 0 < c < length (nodes lt) →
       ∃ p vp vc, parF (nodes lt) c = Some p ∧ p < c ∧
         nodeF (nodes lt) p = Some vp ∧ nodeF (nodes lt) c = Some vc ∧
         vc ∈ From g vp ∧
         ∀ b, p < b < c → anc (parF (nodes lt)) p b) ∧
    (∀ c, c < length (nodes lt) → anc (parF (nodes lt)) 0 c) ∧
    (∀ a b va vb, nodeF (nodes lt) a = Some va → nodeF (nodes lt) b = Some vb →
       vb ∈ From g va → a < b → anc (parF (nodes lt)) a b).
Proof.
  destruct (run_dfs_done g r) as (lt & Hdfs & Hdone). exists lt. split; [done|].
  pose proof Hdone as ((W1 & W2 & W3 & W4) & H0 & Hp0 & Htree & Hclosed & _).
  split; [done|]. split; [|split].
  - intros c Hc. destruct (Htree c Hc) as (p & Hp & [_ Hlt] & Hint).
    destruct (W2 p c (W3 c p Hp)) as (vp & vc & Hvp & Hvc & He).
    by exists p, vp, vc.
  - intros c Hc.
    by apply (anc_root (length (nodes lt)) (parF (nodes lt)) (rank_edge lt)
                (done_par_lt g r lt Hdone) (done_par_some g r lt Hdone)
                (done_par_edge g r lt Hdone) (done_edge_bound g r lt Hdone)
                (done_tree_interval g r lt Hdone) (done_edge_forward g r lt Hdone)).
  - intros a b va vb Ha Hb He Hab.
    destruct (Hclosed a va vb) as (j & Hj & _ & Hanc); [|done..|].
    { split; [lia|]. by eapply nodeF_Some_lt. }
    apply W1 in Hj. assert (j = b) as -> by (by eapply (done_node_inj g r lt)).
    by apply Hanc.
Qed.

(** X10.  The search leaves every record as it was allocated but for
    [parent] and [pred]: [semi] is the record's own number, [label] the
    record itself, the bucket empty, [dom] and [ancestor] nil; and [indexOf]
    maps the record's node to its number. *)
Theorem run_dfs_initial_fields r g :
  ∃ lt, run_dfs r g = Ok lt ∧ 0 < length (nodes lt) ∧
    ∀ i nd, nodes lt !! i = Some nd →
      semi nd = i ∧ label nd = i ∧ bucket nd = ∅ ∧ dom nd = None ∧
      ancestor nd = None ∧ indexOf lt !! node nd = Some i.
Proof.
  destruct (run_dfs_done g r) as (lt & Hdfs & Hdone). exists lt. split; [done|].
  split; [by apply (done_nonempty g r lt)|].
  destruct Hdone as ((W1 & _ & _ & W4) & _). intros i nd Hnd.
  destruct (W4 i nd Hnd) as (? & ? & ? & ? & ?). split_and!; [done..|].
  apply W1. unfold nodeF. by rewrite Hnd.
Qed.

(** ** The main loop *)

Section rounds.
Context (sched : nat → list nat) (g : graph) (r : Node).
Context (lt : lengauerTarjan) (Hdone : dfs_done g r lt).

Local Notation h0 := (nodes lt).
Local Notation N := (length (nodes lt)).
Local Notation par := (parF (nodes lt)).
Local Notation redge := (rank_edge lt).
Local Abbreviation tl l :=
  (l N par (predF h0) (nodeF h0)
     (done_par_lt g r lt Hdone) (done_par_some g r lt Hdone)
     (done_par_edge g r lt Hdone) (done_edge_bound g r lt Hdone)
     (done_tree_interval g r lt Hdone) (done_edge_forward g r lt Hdone))
  (only parsing).
Local Abbreviation tt l :=
  (l N par redge
     (done_par_lt g r lt Hdone) (done_par_some g r lt Hdone)
     (done_par_edge g r lt Hdone) (done_edge_bound g r lt Hdone)
     (done_tree_interval g r lt Hdone) (done_edge_forward g r lt Hdone))
  (only parsing).
Local Notation Inv := (inv N par (predF h0) (nodeF h0)).

Set Default Proof Using "All".

(** The state after the rounds for [w = N - 1] down to [w = k]. *)
Definition rounds_to (k : nat) : result heap :=
  foldR (process sched N) h0 (reverse (seq k (N - k))).

Lemma rounds_to_steps23 : rounds_to 1 = steps23 sched h0.
Proof using Type. done. Qed.

Lemma init_inv : Inv N h0.
Proof.
  destruct Hdone as ((_ & _ & _ & W4) & _).
  assert (∀ v, v < N → semiF h0 v = v ∧ labelF h0 v = v ∧ bucketF h0 v = ∅ ∧
                        domF h0 v = None ∧ ancF h0 v = None) as Hinit.
  { intros v (nd & Hnd & _ & _ & <- & <- & <- & <- & <- & _)%lookup_fields.
    by apply W4. }
  split_and!.
  - by split_and!.
  - split; [|intros v; lia]. intros v _ Hv.
    by destruct (Hinit v Hv) as (_ & ? & _ & _ & ?).
  - intros v _ Hv. by destruct (Hinit v Hv) as (? & _).
  - intros v ?. lia.
  - intros x v. split; [|intros (? & _); lia].
    destruct (decide (x < N)) as [Hx|Hx].
    + destruct (Hinit x Hx) as (_ & _ & -> & _). set_solver.
    + unfold bucketF. rewrite lookup_ge_None_2; [|lia].
      simpl. set_solver.
  - intros v c ?. lia.
Qed.

Lemma rounds_to_inv k : 1 ≤ k ≤ N → ∃ h, rounds_to k = Ok h ∧ Inv k h.
Proof.
  intros Hk. remember (N - k) as n eqn:Hn. revert k Hk Hn.
  induction n as [|n IH]; intros k Hk Hn.
  - assert (k = N) as -> by lia. unfold rounds_to. rewrite Nat.sub_diag. simpl.
    exists h0. split; [done|]. apply init_inv.
  - destruct (IH (S k)) as (h & Hh & Hinv); [lia..|].
    unfold rounds_to in *. rewrite <-Hn. simpl. rewrite reverse_cons, foldR_app.
    replace (N - S k) with n in Hh by lia. rewrite Hh. simpl.
    destruct (tl process_spec sched k h Hinv) as (h' & -> & Hinv'); [lia|].
    by exists h'.
Qed.

Lemma inv_static k h : Inv k h → same_static h0 h.
Proof.
  intros ((HL & Hp & Hq & Hn) & _). split; [done|]. intros i. by split_and!.
Qed.

Lemma inv_semi k h v :
  Inv k h → k ≤ v < N → 0 < v →
  is_sdom redge v (semiF h v) ∧ semiF h v < v ∧ anc par (semiF h v) v.
Proof.
  intros (_ & _ & _ & Hsd & _) Hv Hv0. pose proof (Hsd v Hv) as Hs.
  split; [done|].
  destruct (tl sdom_bound h v) as [Hlt (Ha & _)]; [lia|done|]. by split.
Qed.

Lemma inv_bucket k h x v :
  Inv k h → 1 ≤ k → v ∈ bucketF h x →
  k ≤ v < N ∧ semiF h v = x ∧ is_sdom redge v x ∧ ∃ c, par c = Some x ∧ c < k.
Proof.
  intros Hinv Hk Hv. pose proof Hinv as (_ & _ & _ & Hsd & Hbk & _).
  apply Hbk in Hv as (Hvk & Hsemi & c & [Hc _] & Hck).
  split; [done|]. split; [done|]. split; [|by exists c].
  rewrite <-Hsemi. by apply Hsd.
Qed.

Lemma inv_bucket_empty h x : Inv 1 h → bucketF h x = ∅.
Proof.
  intros Hinv. apply set_eq. intros v. split; [|set_solver].
  intros (_ & _ & _ & c & Hc & Hc1)%(inv_bucket 1); [|done..].
  apply (done_par_lt g r lt Hdone) in Hc. lia.
Qed.

Lemma inv_domspec h w : Inv 1 h → 0 < w < N → domspec par h w.
Proof.
  intros Hinv Hw. pose proof Hinv as (_ & _ & _ & Hsd & _ & Hdom).
  assert (sdom_ok (predF h0) h w) as Hsw by (apply Hsd; lia).
  destruct (tl sdom_bound h w Hw Hsw) as [_ (Ha & Hne & _)].
  destruct (tl child_toward _ _ Ha Hne) as (c & Hc).
  apply (Hdom w c); [lia|done|].
  destruct Hc as [Hc%(done_par_lt g r lt Hdone) _]. lia.
Qed.

Lemma inv_dom h w :
  Inv 1 h → 0 < w < N →
  ∃ d, domF h w = Some d ∧ d < w ∧
    (is_idom redge 0 (semiF h w) w → d = semiF h w) ∧
    (d = semiF h w → is_idom redge 0 d w) ∧
    (d ≠ semiF h w → 0 < d ∧ ∀ d', is_idom redge 0 d' d → is_idom redge 0 d' w).
Proof.
  intros Hinv Hw. pose proof (inv_domspec h w Hinv Hw) as Hds.
  destruct (tl domspec_idom h w Hinv Hw Hds) as (d & Hd & Hlt & Heq & Hne).
  exists d. split; [done|]. split; [done|]. split; [|done].
  intros (_ & Hdom & _).
  destruct Hds as (u & Hu & _ & Hdu). rewrite Hd in Hdu.
  case_decide as Hcmp; [|congruence]. exfalso.
  destruct Hu as (Hu1 & Hu2 & Hu3).
  pose proof Hinv as (_ & _ & _ & Hsd & _).
  assert (0 < u < N) as HuN.
  { pose proof (tl between_lt (semiF h w) u w (conj Hu1 (conj Hu2 Hu3))). lia. }
  destruct (Hsd u) as [Hcu _]; [lia|].
  pose proof (tt dominates_no_bypass (semiF h w) w u (semiF h u)
                ltac:(lia) Hdom Hu1 Hu2 Hu3 Hcu). lia.
Qed.

Lemma inv_forest k h :
  Inv k h →
  (∀ v, v < k → v < N → ancF h v = None ∧ labelF h v = v) ∧
  (∀ v, k ≤ v < N →
     ∃ a, ancF h v = Some a ∧ a < v ∧ anc par a v ∧
       (∀ x, anc par a x → a ≠ x → anc par x v → k ≤ x) ∧
       anc par a (labelF h v) ∧ a ≠ labelF h v ∧ anc par (labelF h v) v ∧
       ∀ x, anc par a x → a ≠ x → anc par x v →
            semiF h (labelF h v) ≤ semiF h x).
Proof.
  intros (_ & [Hun Hli] & _). split; [done|]. intros v Hv.
  destruct (Hli v Hv) as (a & Ha & Hb & Hk & (L1 & L2 & L3) & Hmin).
  exists a. split; [done|].
  pose proof (tl between_lt a v v Hb) as [Hav _]. pose proof Hb as (B1 & _).
  split; [done|]. split; [done|]. split.
  { intros x X1 X2 X3. by apply Hk. }
  split; [done|]. split; [done|]. split; [done|].
  intros x X1 X2 X3. by apply Hmin.
Qed.
End rounds.

(** X11.  What [semi] holds while the main loop runs: after the rounds for
    [w = len(nodes) - 1] down to [w = k], the vertices below [k] still have
    their own number in [semi], and every vertex from [k] on has its
    semidominator there, the least vertex from which a path leads to it
    through higher-numbered vertices only; that is a proper ancestor of it
    in the spanning tree.  After the whole loop this holds for every vertex
    but the root. *)
Theorem semi_is_semidominator sched r g :
  ∃ lt, run_dfs r g = Ok lt ∧
    ∀ k, 1 ≤ k ≤ length (nodes lt) →
      ∃ h, rounds_to sched lt k = Ok h ∧
        (k = 1 → steps23 sched (nodes lt) = Ok h) ∧
        (∀ v, v < k → v < length (nodes lt) → semiF h v = v) ∧
        (∀ v, k ≤ v < length (nodes lt) →
           is_sdom (rank_edge lt) v (semiF h v) ∧ semiF h v < v ∧
           anc (parF (nodes lt)) (semiF h v) v).
Proof.
  destruct (run_dfs_done g r) as (lt & Hdfs & Hdone). exists lt. split; [done|].
  intros k Hk. destruct (rounds_to_inv sched g r lt Hdone k Hk) as (h & Hh & Hinv).
  exists h. split; [done|]. split; [by intros ->|]. split.
  - by destruct Hinv as (_ & _ & Hsemi & _).
  - intros v Hv. apply (inv_semi sched g r lt Hdone k); [done..|lia].
Qed.

(** X12.  What the buckets hold while the main loop runs: after the rounds
    down to [w = k], a vertex [v] in the bucket of [x] is one already
    processed, [x] is its semidominator and [semi] of [v] says so, and the
    child of [x] on the tree path to [v] is yet to be processed.  After the
    whole loop every bucket is empty. *)
Theorem bucket_holds_semidominated sched r g :
  ∃ lt h1, run_dfs r g = Ok lt ∧ steps23 sched (nodes lt) = Ok h1 ∧
    (∀ x, bucketF h1 x = ∅) ∧
    ∀ k, 1 ≤ k ≤ length (nodes lt) →
      ∃ h, rounds_to sched lt k = Ok h ∧
        ∀ x v, v ∈ bucketF h x →
          k ≤ v < length (nodes lt) ∧ semiF h v = x ∧
          is_sdom (rank_edge lt) v x ∧
          ∃ c, parF (nodes lt) c = Some x ∧ c < k.
Proof.
  destruct (run_dfs_done g r) as (lt & Hdfs & Hdone).
  pose proof (done_nonempty g r lt Hdone) as HN.
  destruct (rounds_to_inv sched g r lt Hdone 1) as (h1 & Hh1 & Hinv1); [lia|].
  exists lt, h1. split; [done|]. split; [done|]. split.
  - intros x. by apply (inv_bucket_empty sched g r lt Hdone).
  - intros k Hk. destruct (rounds_to_inv sched g r lt Hdone k Hk) as (h & Hh & Hinv).
    exists h. split; [done|]. intros x v Hv.
    apply (inv_bucket sched g r lt Hdone k h x v Hinv); [lia|done].
Qed.

(** X13.  What [dom] holds after step 3: a vertex of smaller number; the
    semidominator if that is the immediate dominator; otherwise a vertex
    other than the root whose immediate dominator is also the immediate
    dominator of [w]. *)
Theorem dom_after_step3 sched r g :
  ∃ lt h1, run_dfs r g = Ok lt ∧ steps23 sched (nodes lt) = Ok h1 ∧
    ∀ w, 0 < w < length (nodes lt) →
      is_sdom (rank_edge lt) w (semiF h1 w) ∧
      ∃ d, domF h1 w = Some d ∧ d < w ∧
        (is_idom (rank_edge lt) 0 (semiF h1 w) w → d = semiF h1 w) ∧
        (¬ is_idom (rank_edge lt) 0 (semiF h1 w) w →
           0 < d ∧ ∃ d', is_idom (rank_edge lt) 0 d' d ∧
                         is_idom (rank_edge lt) 0 d' w).
Proof.
  destruct (run_correct sched r g) as
    (lt & h1 & h2 & t & (Hdfs & H23 & _) & Hdone & _ & _ & _ & Hidom).
  destruct (rounds_to_inv sched g r lt Hdone 1) as (h1' & Hh1 & Hinv1).
  { pose proof (done_nonempty g r lt Hdone). lia. }
  rewrite rounds_to_steps23 in Hh1. assert (h1' = h1) as -> by congruence.
  exists lt, h1. split; [done|]. split; [done|]. intros w Hw.
  split; [apply (inv_semi sched g r lt Hdone 1); [done|lia..]|].
  destruct (inv_dom sched g r lt Hdone h1 w Hinv1 Hw) as (d & Hd & Hlt & Hsd & Heq & Hne).
  exists d. split; [done|]. split; [done|]. split; [done|].
  intros Hnot. assert (d ≠ semiF h1 w) as Hdne.
  { intros Hds. apply Hnot. rewrite <-Hds. by apply Heq. }
  destruct (Hne Hdne) as [Hd0 Himm]. split; [done|].
  destruct (Hidom d) as [(d' & _ & Hd') _]; [lia|].
  exists d'. split; [done|]. by apply Himm.
Qed.

(** X14.  The forest that [link] and [compress] maintain: after the rounds
    down to [w = k], a vertex below [k] has a nil [ancestor] and is its own
    [label]; a vertex from [k] on has as [ancestor] a proper ancestor in the
    spanning tree, the vertices on the tree path from below that ancestor
    down to it are all numbered from [k] on, and its [label] is one of them
    with the least [semi] among them. *)
Theorem forest_invariant sched r g :
  ∃ lt, run_dfs r g = Ok lt ∧
    ∀ k, 1 ≤ k ≤ length (nodes lt) →
      ∃ h, rounds_to sched lt k = Ok h ∧
        (∀ v, v < k → v < length (nodes lt) →
           ancF h v = None ∧ labelF h v = v) ∧
        (∀ v, k ≤ v < length (nodes lt) →
           ∃ a, ancF h v = Some a ∧ a < v ∧ anc (parF (nodes lt)) a v ∧
             (∀ x, anc (parF (nodes lt)) a x → a ≠ x →
                   anc (parF (nodes lt)) x v → k ≤ x) ∧
             anc (parF (nodes lt)) a (labelF h v) ∧ a ≠ labelF h v ∧
             anc (parF (nodes lt)) (labelF h v) v ∧
             ∀ x, anc (parF (nodes lt)) a x → a ≠ x →
                  anc (parF (nodes lt)) x v →
                  semiF h (labelF h v) ≤ semiF h x).
Proof.
  destruct (run_dfs_done g r) as (lt & Hdfs & Hdone). exists lt. split; [done|].
  intros k Hk. destruct (rounds_to_inv sched g r lt Hdone k Hk) as (h & Hh & Hinv).
  exists h. split; [done|]. by apply (inv_forest sched g r lt Hdone).
Qed.

(** ** EVAL and COMPRESS *)

Lemma eval_frame_store_label v x (h : heap) : eval_frame h (store v (with_label x) h).
Proof.
  split; [split|]; [by rewrite store_length|..]; intros i; by autorewrite with heap.
Qed.

Lemma eval_frame_store_ancestor v x (h : heap) :
  eval_frame h (store v (with_ancestor x) h).
Proof.
  split; [split|]; [by rewrite store_length|..]; intros i; by autorewrite with heap.
Qed.

Lemma compress_frame fuel v h h' : compress fuel v h = Ok h' → eval_frame h h'.
Proof.
  revert v h h'. induction fuel as [|fuel IH]; intros v h h' Hc; [done|].
  simpl in Hc. apply rbind_Ok in Hc as (nv & _ & Hc).
  apply rbind_Ok in Hc as ([a na] & _ & Hc).
  destruct (ancestor na) as [a2|].
  - apply rbind_Ok in Hc as (h1 & Hrec%IH & Hc).
    apply rbind_Ok in Hc as (nv1 & _ & Hc).
    apply rbind_Ok in Hc as ([a1 na1] & _ & Hc).
    apply rbind_Ok in Hc as (la & _ & Hc).
    apply rbind_Ok in Hc as (lv & _ & Hc).
    apply rbind_Ok in Hc as (nv2 & _ & Hc).
    apply rbind_Ok in Hc as ([a3 na3] & _ & Hc).
    injection Hc as <-.
    eapply eval_frame_trans; [exact Hrec|].
    eapply eval_frame_trans; [|apply eval_frame_store_ancestor].
    case_decide; [apply eval_frame_store_label|apply eval_frame_refl].
  - injection Hc as <-. apply eval_frame_refl.
Qed.

(** X15.  [eval], with the [compress] it calls, writes [ancestor] and
    [label] only: on any heap on which it returns, the length of the heap and
    the fields [node], [parent], [pred], [semi], [dom] and [bucket] of every
    record are as before.  A vertex with a nil [ancestor] is its own answer
    and the heap is untouched; otherwise the answer is the [label] of the
    vertex after the compression. *)
Theorem eval_writes_forest_only fuel v h u h' :
  eval fuel v h = Ok (u, h') →
  length h' = length h ∧
  (∀ i, nodeF h' i = nodeF h i ∧ parF h' i = parF h i ∧ predF h' i = predF h i ∧
        semiF h' i = semiF h i ∧ domF h' i = domF h i ∧
        bucketF h' i = bucketF h i) ∧
  (ancF h v = None → u = v ∧ h' = h) ∧
  (is_Some (ancF h v) → u = labelF h' v).
Proof.
  unfold eval. intros He. apply rbind_Ok in He as (nv & Hnv%load_Ok & He).
  assert (ancF h v = ancestor nv) as Ha by (unfold ancF; by rewrite Hnv).
  rewrite Ha. destruct (ancestor nv) as [a|].
  - apply rbind_Ok in He as (h1 & Hc%compress_frame & He).
    apply rbind_Ok in He as (nv1 & Hnv1%load_Ok & He). injection He as <- <-.
    destruct Hc as [[HL Hst] Hdyn]. split; [done|]. split.
    + intros i. destruct (Hst i) as (? & ? & ?), (Hdyn i) as (? & ? & ?). done.
    + split; [done|]. intros _. unfold labelF. by rewrite Hnv1.
  - injection He as <- <-. split; [done|]. split; [done|]. split; [done|].
    by intros [? ?].
Qed.

(** Three records in a chain, the two lower ones linked. *)
Definition chain3 : heap :=
  [LtNode 10 None [] 0 ∅ None None 0;
   LtNode 11 (Some 0) [0] 0 ∅ None (Some 0) 1;
   LtNode 12 (Some 1) [1] 1 ∅ None (Some 1) 2].

Definition chain3_compressed : heap :=
  [LtNode 10 None [] 0 ∅ None None 0;
   LtNode 11 (Some 0) [0] 0 ∅ None (Some 0) 1;
   LtNode 12 (Some 1) [1] 1 ∅ None (Some 0) 1].

Lemma eval_chain3 : eval 3 2 chain3 = Ok (1, chain3_compressed).
Proof. vm_compute. reflexivity. Qed.

Lemma eval_writes_forest_only_witness :
  length chain3_compressed = length chain3 ∧
  (∀ i, nodeF chain3_compressed i = nodeF chain3 i ∧
        parF chain3_compressed i = parF chain3 i ∧
        predF chain3_compressed i = predF chain3 i ∧
        semiF chain3_compressed i = semiF chain3 i ∧
        domF chain3_compressed i = domF chain3 i ∧
        bucketF chain3_compressed i = bucketF chain3 i) ∧
  (ancF chain3 2 = None → 1 = 2 ∧ chain3_compressed = chain3) ∧
  (is_Some (ancF chain3 2) → 1 = labelF chain3_compressed 2).
Proof.
  apply (eval_writes_forest_only 3 2 chain3 1 chain3_compressed).
  vm_compute. reflexivity.
Defined.

(** What the main loop keeps true of the tree: the six facts about the
    spanning tree and the predecessor lists that the search establishes. *)
Definition spanning (N : nat) (par : nat → option nat) (prd : nat → list nat) : Prop :=
  (∀ c p, par c = Some p → p < c) ∧
  (∀ c, 0 < c < N → is_Some (par c)) ∧
  (∀ c p, par c = Some p → p ∈ prd c) ∧
  (∀ a b, a ∈ prd b → a < N ∧ b < N) ∧
  (∀ c p b, par c = Some p → p < b < c → anc par p b) ∧
  (∀ a b, a ∈ prd b → a < b → anc par a b).

(** X16.  EVAL on a forest as the main loop keeps it: with the vertices from
    [k] on linked and the others not, [eval] returns without a nil
    dereference and within [len(nodes)] nested calls of [compress]; an
    unlinked vertex is its own answer, and for a linked vertex [v] the answer
    is a vertex of least [semi] on the tree path to [v] from below the root
    of [v]'s tree in the forest.  The forest is as good after the path
    compression as before. *)
Theorem eval_least_semi N par prd nds k h v :
  spanning N par prd → shape N par prd nds h → forest N par k h → v < N →
  ∃ u h', eval N v h = Ok (u, h') ∧ eval_frame h h' ∧ forest N par k h' ∧
    ((v < k ∧ u = v ∧ h' = h) ∨
     (k ≤ v ∧ ∃ r, r < k ∧ between par r u v ∧
        ∀ x, between par r x v → k ≤ x ∧ semiF h u ≤ semiF h x)).
Proof.
  intros (T1 & T2 & T3 & T4 & T5 & T6) Hsh Hfo Hv.
  by apply (eval_spec N par prd nds T1 T2 T3 T4 T5 T6).
Qed.

Definition chain3_par (c : nat) : option nat :=
  match c with 1 => Some 0 | 2 => Some 1 | _ => None end.
Definition chain3_prd (c : nat) : list nat :=
  match c with 1 => [0] | 2 => [1] | _ => [] end.

Lemma chain3_par_lt c p : chain3_par c = Some p → p < c.
Proof. destruct c as [|[|[|c]]]; intros [= <-]; lia. Qed.

Lemma chain3_spanning : spanning 3 chain3_par chain3_prd.
Proof.
  split_and!.
  - apply chain3_par_lt.
  - intros [|[|[|c]]] ?; simpl; eauto; lia.
  - intros [|[|[|c]]] p [= <-]; simpl; by left.
  - intros a [|[|[|b]]]; simpl; intros Ha; try (by apply elem_of_nil in Ha);
      apply list_elem_of_singleton in Ha; subst a; lia.
  - intros [|[|[|c]]] p b [= <-] ?; lia.
  - intros a [|[|[|b]]]; simpl; intros Ha; try (by apply elem_of_nil in Ha);
      apply list_elem_of_singleton in Ha; subst a; intros _; by apply anc_parent.
Qed.

Lemma chain3_shape :
  shape 3 chain3_par chain3_prd (nodeF chain3) chain3.
Proof.
  split; [done|]. split_and!; [| |done]; by intros [|[|[|i]]].
Qed.

Lemma chain3_forest : forest 3 chain3_par 1 chain3.
Proof.
  assert (∀ a x, anc chain3_par a x → a ≤ x) as Hle.
  { intros a x. apply anc_le, chain3_par_lt. }
  split.
  - intros v ? _. by assert (v = 0) as -> by lia.
  - intros v Hv. assert (v = 1 ∨ v = 2) as [-> | ->] by lia.
    + exists 0. split; [done|].
      assert (between chain3_par 0 1 1) as Hb.
      { split_and!; [by apply anc_parent|done|constructor]. }
      split; [done|]. split; [|split; [done|]].
      * intros x (Hx%Hle & ? & _). lia.
      * intros x _. simpl. unfold semiF. simpl. lia.
    + exists 1. split; [done|].
      assert (between chain3_par 1 2 2) as Hb.
      { split_and!; [by apply anc_parent|done|constructor]. }
      split; [done|]. split; [|split; [done|]].
      * intros x (Hx%Hle & ? & _). lia.
      * intros x (Hx%Hle & ? & Hx2%Hle). by assert (x = 2) as -> by lia.
Qed.

Lemma eval_least_semi_witness :
  ∃ u h', eval 3 2 chain3 = Ok (u, h') ∧ eval_frame chain3 h' ∧
    forest 3 chain3_par 1 h' ∧
    ((2 < 1 ∧ u = 2 ∧ h' = chain3) ∨
     (1 ≤ 2 ∧ ∃ r, r < 1 ∧ between chain3_par r u 2 ∧
        ∀ x, between chain3_par r x 2 → 1 ≤ x ∧ semiF chain3 u ≤ semiF chain3 x)).
Proof.
  apply (eval_least_semi 3 chain3_par chain3_prd (nodeF chain3) 1 chain3 2).
  - apply chain3_spanning.
  - apply chain3_shape.
  - apply chain3_forest.
  - lia.
Defined.
